(** * remote.craftos-pc.cc: the session-pairing relay of [src/server.ts]

    A shallow embedding of the WebSocket relay core of [createServer]:
    the two registries [connectionPools] and [connectionPoolOpen], the
    ['connection'], ['message'] and ['close'] handlers, the periodic clean-up,
    the broadcast framer [sendMessage] with its [crc32], and [makeID].

    JavaScript values are modelled as follows.
    - A socket is an object compared by identity ([!==], [indexOf]): a [nat].
    - A string is its sequence of UTF-16 code units, a [Buffer] its sequence
      of bytes: both [list Z].
    - A plain object used as a dictionary is the list of its own properties
      in creation order, which is the order [for (x in o)] visits them
      (the keys here are request paths: they start with a slash, so none is
      integer-like or the name of an inherited property).
    - [Date.now()] is an integer number of milliseconds: a [Z].
    - Calls on the transport ([send], [close]) are asynchronous requests: a
      handler returns the list of requests it issued, in order. *)

From Stdlib Require Import ZArith String Ascii List Bool Lia Permutation.
Import ListNotations.
Local Open Scope Z_scope.

(** ** Plain objects as dictionaries *)

Section JSObject.
Context {V : Type}.

Definition object : Type := list (string * V).

(** [o[k]]; [None] is [undefined]. *)
Fixpoint obj_get (o : object) (k : string) : option V :=
  match o with
  | [] => None
  | (k', v) :: o' => if String.eqb k' k then Some v else obj_get o' k
  end.

(** [o[k] = v]: an existing property keeps its place, a new one goes last. *)
Fixpoint obj_set (o : object) (k : string) (v : V) : object :=
  match o with
  | [] => [(k, v)]
  | (k', v') :: o' =>
      if String.eqb k' k then (k', v) :: o' else (k', v') :: obj_set o' k v
  end.

(** [delete o[k]]. *)
Fixpoint obj_delete (o : object) (k : string) : object :=
  match o with
  | [] => []
  | (k', v') :: o' =>
      if String.eqb k' k then obj_delete o' k else (k', v') :: obj_delete o' k
  end.

(** The keys [for (x in o)] visits, in order. *)
Definition obj_keys (o : object) : list string := map fst o.

(** [Object.values(o)]. *)
Definition obj_values (o : object) : list V := map snd o.

End JSObject.

Arguments object V : clear implicits.

(** ** Arrays of sockets *)

Definition WebSocket : Type := nat.

(** [a.indexOf(x)], searching from index [i]. *)
Fixpoint indexOf_from (a : list WebSocket) (x : WebSocket) (i : Z) : Z :=
  match a with
  | [] => -1
  | y :: a' => if Nat.eqb y x then i else indexOf_from a' x (i + 1)
  end.

Definition indexOf (a : list WebSocket) (x : WebSocket) : Z := indexOf_from a x 0.

(** The array after [a.splice(start, deleteCount)] (ECMAScript 23.1.3.31):
    a negative [start] counts from the end. *)
Definition splice {A : Type} (a : list A) (start deleteCount : Z) : list A :=
  let len := Z.of_nat (length a) in
  let actualStart := if start <? 0 then Z.max (len + start) 0 else Z.min start len in
  let actualDeleteCount := Z.min (Z.max deleteCount 0) (len - actualStart) in
  firstn (Z.to_nat actualStart) a ++ skipn (Z.to_nat (actualStart + actualDeleteCount)) a.

(** ** Requests to the transport, and handler results *)

Inductive action : Type :=
| Send (s : WebSocket) (data : list Z)
| Close (s : WebSocket).

(** A handler either completes or throws a [TypeError] (a property read on
    [undefined]); nothing is mutated before the throw. *)
Inductive result (A : Type) : Type :=
| Ok (a : A)
| TypeError.

Arguments Ok {A} a.
Arguments TypeError {A}.

(** ** The registry *)

Record state : Type := mkState {
  connectionPools : object (list WebSocket);
  connectionPoolOpen : object Z;
  pipeCount : Z
}.

Definition initial : state :=
  {| connectionPools := []; connectionPoolOpen := []; pipeCount := 0 |}.

(** [wsServer.on('connection', ...)], lines 135-145, at time [now = Date.now()]
    for a request of path [url]. *)
Definition on_connection (now : Z) (url : string) (socket : WebSocket) (st : state) : state :=
  match obj_get (connectionPools st) url with
  | None =>
      {| connectionPools := obj_set (connectionPools st) url [socket];
         connectionPoolOpen := obj_set (connectionPoolOpen st) url now;
         pipeCount := pipeCount st + 1 |}
  | Some pool =>
      {| connectionPools := obj_set (connectionPools st) url (pool ++ [socket]);
         connectionPoolOpen := connectionPoolOpen st;
         pipeCount := pipeCount st |}
  end.

(** [isServer], line 137: [request.headers["X-Rawterm-Is-Server"] === "Yes"],
    a look-up by the exact key.  The close handler captures the result. *)
Definition isServer (headers : object string) : bool :=
  match obj_get headers "X-Rawterm-Is-Server" with
  | Some v => String.eqb v "Yes"
  | None => false
  end.

(** [request.headers] is the object Node's HTTP parser builds from the
    header lines of the request, and the parser writes every header name in
    lower case: its keys are their own [toLowerCase()]. *)
Definition toLowerCase_char (c : ascii) : ascii :=
  let n := nat_of_ascii c in
  if ((65 <=? n) && (n <=? 90))%nat then ascii_of_nat (n + 32) else c.

Fixpoint toLowerCase (s : string) : string :=
  match s with
  | EmptyString => EmptyString
  | String c s' => String (toLowerCase_char c) (toLowerCase s')
  end.

Definition lower_case_names (headers : object string) : bool :=
  forallb (fun k => String.eqb (toLowerCase k) k) (obj_keys headers).

(** [socket.on('message', ...)], lines 147-149. *)
Definition on_message (url : string) (socket : WebSocket) (message : list Z) (st : state)
  : result (list action) :=
  match obj_get (connectionPools st) url with
  | None => TypeError
  | Some pool =>
      Ok (flat_map (fun s => if Nat.eqb s socket then [] else [Send s message]) pool)
  end.

(** [socket.on('close', ...)], lines 151-161; [url], [isServer] and [socket]
    are the variables the closure captured at connection time. *)
Definition on_close (url : string) (isServer : bool) (socket : WebSocket) (st : state)
  : result (state * list action) :=
  match obj_get (connectionPools st) url with
  | None => TypeError
  | Some pool =>
      let pool' := splice pool (indexOf pool socket) 1 in
      let closes := if isServer then map Close pool' else [] in
      if Z.of_nat (length pool') =? 0 then
        Ok ({| connectionPools := obj_delete (connectionPools st) url;
               connectionPoolOpen := obj_delete (connectionPoolOpen st) url;
               pipeCount := pipeCount st - 1 |}, closes)
      else
        Ok ({| connectionPools := obj_set (connectionPools st) url pool';
               connectionPoolOpen := connectionPoolOpen st;
               pipeCount := pipeCount st |}, closes)
  end.

(** The body of the [cleanupInterval] loop for one key [x], lines 168-169.
    [now - undefined > 60000] is [NaN > 60000], false. *)
Definition cleanupInterval_one (now : Z) (st : state) (x : string) : list action :=
  match obj_get (connectionPools st) x with
  | None => []
  | Some pool =>
      let old :=
        match obj_get (connectionPoolOpen st) x with
        | Some t => now - t >? 60000
        | None => false
        end in
      if (Z.of_nat (length pool) =? 1) && old then
        match pool with
        | s :: _ => [Close s]
        | [] => []
        end
      else []
  end.

(** One run of the [cleanupInterval] callback, lines 165-170. *)
Definition cleanupInterval (now : Z) (st : state) : list action :=
  flat_map (cleanupInterval_one now st) (obj_keys (connectionPools st)).

(** [getConnectionCount], line 275, and [getPipeCount], line 276. *)
Definition getConnectionCount (st : state) : Z :=
  fold_left (fun sum pool => sum + Z.of_nat (length pool)) (obj_values (connectionPools st)) 0.

Definition getPipeCount (st : state) : Z := pipeCount st.

(** The registry read per session. *)
Definition membersOf (st : state) (url : string) : list WebSocket :=
  match obj_get (connectionPools st) url with
  | Some pool => pool
  | None => []
  end.

Definition memberCount (st : state) (url : string) : Z :=
  Z.of_nat (length (membersOf st url)).

Definition allSessionIds (st : state) : list string := obj_keys (connectionPools st).

(** ** The event loop

    The transport delivers one event at a time; an uncaught [TypeError]
    ends the process, so nothing runs after it. *)

Inductive event : Type :=
| Connection (now : Z) (url : string) (socket : WebSocket)
| Message (url : string) (socket : WebSocket) (message : list Z)
| Closed (url : string) (isServer : bool) (socket : WebSocket).

Definition handle (e : event) (st : state) : result (state * list action) :=
  match e with
  | Connection now url socket => Ok (on_connection now url socket st, [])
  | Message url socket message =>
      match on_message url socket message st with
      | Ok sends => Ok (st, sends)
      | TypeError => TypeError
      end
  | Closed url isServer socket => on_close url isServer socket st
  end.

Fixpoint run (evs : list event) (st : state) : result (state * list action) :=
  match evs with
  | [] => Ok (st, [])
  | e :: evs' =>
      match handle e st with
      | Ok (st1, acts1) =>
          match run evs' st1 with
          | Ok (st2, acts2) => Ok (st2, acts1 ++ acts2)
          | TypeError => TypeError
          end
      | TypeError => TypeError
      end
  end.

Definition reachable (st : state) : Prop :=
  exists evs acts, run evs initial = Ok (st, acts).

(** The number of joins, and of leaves, of session [url] in a sequence. *)
Fixpoint joins (url : string) (evs : list event) : Z :=
  match evs with
  | [] => 0
  | Connection _ u _ :: evs' => (if String.eqb u url then 1 else 0) + joins url evs'
  | _ :: evs' => joins url evs'
  end.

Fixpoint leaves (url : string) (evs : list event) : Z :=
  match evs with
  | [] => 0
  | Closed u _ _ :: evs' => (if String.eqb u url then 1 else 0) + leaves url evs'
  | _ :: evs' => leaves url evs'
  end.

(** ** Strings, numbers and buffers *)

(** The code units of an ASCII literal. *)
Definition js (s : string) : list Z :=
  map (fun a => Z.of_N (N_of_ascii a)) (list_ascii_of_string s).

(** [ToInt32], [ToUint32] and the 32-bit operators [^], [&] and [>>>]. *)
Definition ToInt32 (x : Z) : Z := (x + 2 ^ 31) mod 2 ^ 32 - 2 ^ 31.
Definition ToUint32 (x : Z) : Z := x mod 2 ^ 32.
Definition js_xor (a b : Z) : Z := ToInt32 (Z.lxor (ToInt32 a) (ToInt32 b)).
Definition js_and (a b : Z) : Z := ToInt32 (Z.land (ToInt32 a) (ToInt32 b)).
Definition js_ushr (a k : Z) : Z := Z.shiftr (ToUint32 a) (k mod 32).

(** [n.toString(16)] for an integer [n >= 0]: the digits are produced from
    the least significant one; [n] has at most [log2 n + 1] of them. *)
Definition hexdigit (d : Z) : Z := nth (Z.to_nat d) (js "0123456789abcdef") 0.

Fixpoint toString16_loop (fuel : nat) (n : Z) (acc : list Z) : list Z :=
  match fuel with
  | O => acc
  | S fuel' =>
      let acc' := hexdigit (n mod 16) :: acc in
      if n / 16 =? 0 then acc' else toString16_loop fuel' (n / 16) acc'
  end.

Definition toString16 (n : Z) : list Z :=
  toString16_loop (S (Z.to_nat (Z.log2 n))) n [].

(** [s.slice(start)]: a negative [start] counts from the end. *)
Definition slice {A : Type} (s : list A) (start : Z) : list A :=
  let len := Z.of_nat (length s) in
  let from := if start <? 0 then Z.max (len + start) 0 else Z.min start len in
  skipn (Z.to_nat from) s.

(** [s.replace(/c/g, d)] for single characters [c] and [d]. *)
Definition replace_all (s : list Z) (c d : Z) : list Z :=
  map (fun x => if x =? c then d else x) s.

(** [Buffer.alloc(n)], [buf.fill(v)] and [buf[i] = v] (the value is stored
    modulo 256; an index outside the buffer is ignored). *)
Definition Buffer_alloc (n : Z) : list Z := repeat 0 (Z.to_nat n).

Definition Buffer_fill (buf : list Z) (v : Z) : list Z := map (fun _ => v mod 256) buf.

Definition Buffer_set (buf : list Z) (i v : Z) : list Z :=
  if (0 <=? i) && (i <? Z.of_nat (length buf)) then
    firstn (Z.to_nat i) buf ++ [v mod 256] ++ skipn (Z.to_nat (i + 1)) buf
  else buf.

(** UTF-8, one group of bytes per character: a surrogate pair is one
    character of four bytes, an unpaired surrogate is written as U+FFFD. *)
Definition is_high_surrogate (c : Z) : bool := (0xD800 <=? c) && (c <=? 0xDBFF).
Definition is_low_surrogate (c : Z) : bool := (0xDC00 <=? c) && (c <=? 0xDFFF).

Definition utf8_2 (c : Z) : list Z :=
  [Z.lor 0xC0 (Z.shiftr c 6); Z.lor 0x80 (Z.land c 0x3F)].

Definition utf8_3 (c : Z) : list Z :=
  [Z.lor 0xE0 (Z.shiftr c 12); Z.lor 0x80 (Z.land (Z.shiftr c 6) 0x3F);
   Z.lor 0x80 (Z.land c 0x3F)].

Definition utf8_4 (hi lo : Z) : list Z :=
  let cp := 0x10000 + Z.shiftl (hi - 0xD800) 10 + (lo - 0xDC00) in
  [Z.lor 0xF0 (Z.shiftr cp 18); Z.lor 0x80 (Z.land (Z.shiftr cp 12) 0x3F);
   Z.lor 0x80 (Z.land (Z.shiftr cp 6) 0x3F); Z.lor 0x80 (Z.land cp 0x3F)].

Fixpoint utf8_chars (s : list Z) : list (list Z) :=
  match s with
  | [] => []
  | c :: s' =>
      if c <? 0x80 then [c] :: utf8_chars s'
      else if c <? 0x800 then utf8_2 c :: utf8_chars s'
      else if is_high_surrogate c then
        match s' with
        | d :: s'' =>
            if is_low_surrogate d then utf8_4 c d :: utf8_chars s''
            else [0xEF; 0xBF; 0xBD] :: utf8_chars s'
        | [] => [[0xEF; 0xBF; 0xBD]]
        end
      else if is_low_surrogate c then [0xEF; 0xBF; 0xBD] :: utf8_chars s'
      else utf8_3 c :: utf8_chars s'
  end.

(** [Buffer.byteLength(s)]. *)
Definition byteLength (s : list Z) : Z := Z.of_nat (length (concat (utf8_chars s))).

(** The bytes of the characters that fit in [room] bytes: a character that
    does not fit whole is not written, nor is any after it. *)
Fixpoint fit (chars : list (list Z)) (room : nat) : list Z :=
  match chars with
  | [] => []
  | ch :: chars' =>
      if (length ch <=? room)%nat then ch ++ fit chars' (room - length ch) else []
  end.

(** [buf.write(s, offset)] with the default encoding, for [offset] within
    the buffer (it is 6 or 26 in a buffer of at least 27 bytes). *)
Definition Buffer_write (buf : list Z) (s : list Z) (offset : Z) : list Z :=
  let o := Z.to_nat offset in
  let bytes := fit (utf8_chars s) (length buf - o) in
  firstn o buf ++ bytes ++ skipn (o + length bytes) buf.

(** [buf.toString("base64")]. *)
Definition b64char (i : Z) : Z :=
  nth (Z.to_nat i)
    (js "ABCDEFGHIJKLMNOPQRSTUVWXYZabcdefghijklmnopqrstuvwxyz0123456789+/") 0.

Fixpoint base64 (buf : list Z) : list Z :=
  match buf with
  | [] => []
  | [a] =>
      [b64char (Z.shiftr a 2); b64char (Z.shiftl (Z.land a 3) 4); 61; 61]
  | [a; b] =>
      [b64char (Z.shiftr a 2);
       b64char (Z.lor (Z.shiftl (Z.land a 3) 4) (Z.shiftr b 4));
       b64char (Z.shiftl (Z.land b 15) 2); 61]
  | a :: b :: c :: rest =>
      b64char (Z.shiftr a 2)
      :: b64char (Z.lor (Z.shiftl (Z.land a 3) 4) (Z.shiftr b 4))
      :: b64char (Z.lor (Z.shiftl (Z.land b 15) 2) (Z.shiftr c 6))
      :: b64char (Z.land c 63)
      :: base64 rest
  end.

(** [buf.toString("binary")]: one character per byte. *)
Definition binary (buf : list Z) : list Z := buf.

(** ** CRC-32, lines 15-35 *)

Definition makeCRCTable : list Z :=
  map (fun n =>
         Nat.iter 8
           (fun c => if js_and c 1 =? 0 then js_ushr c 1
                     else js_xor 0xEDB88320 (js_ushr c 1))
           (Z.of_nat n))
      (seq 0 256).

Definition crc32_with (crcTable : list Z) (str : list Z) : Z :=
  let crc :=
    fold_left
      (fun crc ch =>
         js_xor (js_ushr crc 8)
                (nth (Z.to_nat (js_and (js_xor crc ch) 0xFF)) crcTable 0))
      str (js_xor 0 (-1)) in
  js_ushr (js_xor crc (-1)) 0.

Definition crc32 (str : list Z) : Z := crc32_with makeCRCTable str.

(** ** The broadcast framer, lines 223-239 *)

Definition sendMessage_buf (message : list Z) : list Z :=
  let buf := Buffer_alloc (27 + Z.of_nat (length message)) in
  let buf := Buffer_fill buf 0 in
  let buf := Buffer_set buf 0 5 in
  let buf := Buffer_set buf 2 0x40 in
  let buf := Buffer_write buf (js "Message from server") 6 in
  Buffer_write buf message 26.

Definition sendMessage_packet (message : list Z) : list Z :=
  let b64 := base64 (sendMessage_buf message) in
  js "!CPC" ++ slice (js "000" ++ toString16 (Z.of_nat (length b64))) (-4)
    ++ b64 ++ slice (js "0000000" ++ toString16 (crc32 b64)) (-8) ++ [10].

Definition sendMessage_bpacket (message : list Z) : list Z :=
  let buf := sendMessage_buf message in
  let b64 := base64 buf in
  js "!CPC" ++ slice (js "000" ++ toString16 (Z.of_nat (length b64))) (-4)
    ++ b64 ++ slice (js "0000000" ++ toString16 (crc32 (binary buf))) (-8) ++ [10].

Definition sendMessage (message : list Z) (st : state) : list action :=
  let packet := sendMessage_packet message in
  let bpacket := sendMessage_bpacket message in
  flat_map
    (fun x =>
       match obj_get (connectionPools st) x with
       | Some pool => flat_map (fun socket => [Send socket packet; Send socket bpacket]) pool
       | None => []
       end)
    (obj_keys (connectionPools st)).

(** ** [makeID], lines 87-91

    [Math.random()] returns a double [r] with [0 <= r < 1].  A finite
    non-negative double is [mant * 2 ^ expo] with [0 <= mant < 2 ^ 53].
    [r * 255] is the IEEE-754 product: the exact value rounded to 53
    significant bits, ties to even (no overflow or underflow can occur for
    these operands). *)

Record double : Type := mkDouble { mant : Z; expo : Z }.

Definition in_unit_interval (r : double) : Prop :=
  0 <= mant r < 2 ^ 53 /\ expo r < 0 /\ mant r < 2 ^ (- expo r).

(** [p * 2 ^ e], for an integer [p >= 0], rounded to nearest, ties to even. *)
Definition round_double (p e : Z) : double :=
  let sh := Z.max 0 (Z.log2 p + 1 - 53) in
  let q := Z.shiftr p sh in
  let rest := p mod 2 ^ sh in
  let half := 2 ^ (sh - 1) in
  let up := (0 <? sh) && ((half <? rest) || ((rest =? half) && Z.odd q)) in
  {| mant := if up then q + 1 else q; expo := e + sh |}.

Definition times_255 (r : double) : double := round_double (mant r * 255) (expo r).

Definition Math_floor (x : double) : Z :=
  if 0 <=? expo x then mant x * 2 ^ expo x else mant x / 2 ^ (- expo x).

(** The value the loop stores at index [i], [random i] being the result of
    the [i]-th call of [Math.random()]. *)
Definition makeID_byte (random : nat -> double) (i : nat) : Z :=
  Math_floor (times_255 (random i)).

Definition makeID_buf (random : nat -> double) : list Z :=
  fold_left (fun buf i => Buffer_set buf (Z.of_nat i) (makeID_byte random i))
            (seq 0 30) (Buffer_alloc 30).

Definition makeID (random : nat -> double) : list Z :=
  replace_all (replace_all (base64 (makeID_buf random)) 47 95) 43 45.

(** ** Reference notions used in the statements *)

(** The floor of the exact product [255 * r], over the reals, of the number
    [r = mant r * 2 ^ expo r] with [expo r < 0]. *)
Definition floor_of_product (r : double) : Z := (255 * mant r) / 2 ^ (- expo r).

(** A lower-case hexadecimal digit, and the number a digit string denotes. *)
Definition is_hex_digit (c : Z) : bool :=
  ((48 <=? c) && (c <=? 57)) || ((97 <=? c) && (c <=? 102)).

Definition hex_digit_value (c : Z) : Z := if c <=? 57 then c - 48 else c - 87.

Definition hex_value (s : list Z) : Z :=
  fold_left (fun acc c => 16 * acc + hex_digit_value c) s 0.

(** The reflected CRC-32 of polynomial [0xEDB88320], bit by bit on unsigned
    32-bit values: initial value and final xor [0xFFFFFFFF]. *)
Definition crc_shift (c : Z) : Z :=
  if Z.odd c then Z.lxor (Z.shiftr c 1) 0xEDB88320 else Z.shiftr c 1.

Definition crc_update (crc b : Z) : Z :=
  Nat.iter 8 crc_shift (Z.lxor crc (b mod 256)).

Definition crc32_reference (bytes : list Z) : Z :=
  Z.lxor (fold_left crc_update bytes 0xFFFFFFFF) 0xFFFFFFFF.

(** The array without the first occurrence of [x]. *)
Fixpoint remove_first (x : WebSocket) (a : list WebSocket) : list WebSocket :=
  match a with
  | [] => []
  | y :: a' => if Nat.eqb y x then a' else y :: remove_first x a'
  end.

(** The registry invariant: every registered pool has a member and a
    creation time, and no key is registered twice. *)
Definition well_formed (st : state) : Prop :=
  NoDup (obj_keys (connectionPools st))
  /\ (forall url pool, obj_get (connectionPools st) url = Some pool -> pool <> [])
  /\ (forall url, obj_get (connectionPools st) url = None <->
                  obj_get (connectionPoolOpen st) url = None).

(** ** Shutdown, lines 241-249 *)

(** The close requests of [stop], one per member of every pool.  (Clearing
    the timer and closing the HTTP servers touch nothing modelled here.) *)
Definition stop (st : state) : list action :=
  flat_map
    (fun x =>
       match obj_get (connectionPools st) x with
       | Some pool => map Close pool
       | None => []
       end)
    (obj_keys (connectionPools st)).

(** The transport answers a [close()] request on a socket of session [url]
    with that socket's ['close'] event; [flag s] is the [isServer] its
    handler captured. *)
Definition closed_by (url : string) (flag : WebSocket -> bool) (acts : list action)
  : list event :=
  flat_map
    (fun a =>
       match a with
       | Close s => [Closed url (flag s) s]
       | Send _ _ => []
       end)
    acts.

(** The registered (session, socket) pairs, session after session. *)
Definition memberships (st : state) : list (string * WebSocket) :=
  flat_map (fun entry => map (pair (fst entry)) (snd entry)) (connectionPools st).

(** The sockets the ['connection'] events of a sequence bring. *)
Fixpoint connected (evs : list event) : list WebSocket :=
  match evs with
  | [] => []
  | Connection _ _ s :: evs' => s :: connected evs'
  | _ :: evs' => connected evs'
  end.

(** ** Metrics, lines 77-85, 141, 145, 157 and 160

    The two gauges exist when [config.enableMetrics] is set and are
    [undefined] otherwise; a new gauge reads 0. *)

Record gauges : Type := mkGauges {
  connectionCounter : option Z;
  pipeCounter : option Z
}.

Definition new_gauges (enableMetrics : bool) : gauges :=
  if enableMetrics then {| connectionCounter := Some 0; pipeCounter := Some 0 |}
  else {| connectionCounter := None; pipeCounter := None |}.

(** [if (g) g.inc()] and [if (g) g.dec()]. *)
Definition gauge_inc (g : option Z) : option Z := option_map (fun v => v + 1) g.
Definition gauge_dec (g : option Z) : option Z := option_map (fun v => v - 1) g.

(** What an event's handler does to the gauges, in registry state [st]; a
    handler that throws has updated none. *)
Definition gauges_handle (e : event) (st : state) (g : gauges) : gauges :=
  match e with
  | Connection _ url _ =>
      {| connectionCounter := gauge_inc (connectionCounter g);
         pipeCounter :=
           match obj_get (connectionPools st) url with
           | None => gauge_inc (pipeCounter g)
           | Some _ => pipeCounter g
           end |}
  | Message _ _ _ => g
  | Closed url _ socket =>
      match obj_get (connectionPools st) url with
      | None => g
      | Some pool =>
          {| connectionCounter := gauge_dec (connectionCounter g);
             pipeCounter :=
               if Z.of_nat (length (splice pool (indexOf pool socket) 1)) =? 0
               then gauge_dec (pipeCounter g) else pipeCounter g |}
      end
  end.

(** The gauges after the events of a run, up to the first that throws. *)
Fixpoint gauges_run (evs : list event) (st : state) (g : gauges) : gauges :=
  match evs with
  | [] => g
  | e :: evs' =>
      match handle e st with
      | Ok (st1, _) => gauges_run evs' st1 (gauges_handle e st g)
      | TypeError => g
      end
  end.

(** ** The [schedule-restart] action of the standalone runner *)

Record restart : Type := mkRestart {
  reply : list Z;
  exits : bool;
  awaitingRestart : bool
}.

Definition schedule_restart (st : state) (awaiting : bool) : restart :=
  if getPipeCount st =? 0 then
    {| reply := js "Exiting NOW!"; exits := true; awaitingRestart := awaiting |}
  else
    {| reply := js "Restart scheduled - waiting for all pipes to close.";
       exits := false; awaitingRestart := true |}.

(** ** URLs and redirects, lines 52, 93-95 and 191-205 *)

(** [n.toString()] for an integer [n >= 0]. *)
Fixpoint toString10_loop (fuel : nat) (n : Z) (acc : list Z) : list Z :=
  match fuel with
  | O => acc
  | S fuel' =>
      let acc' := (48 + n mod 10) :: acc in
      if n / 10 =? 0 then acc' else toString10_loop fuel' (n / 10) acc'
  end.

Definition toString10 (n : Z) : list Z :=
  toString10_loop (S (Z.to_nat (Z.log2 n))) n [].

(** The fields of [ServerConfig] the URLs are built from. *)
Record ServerConfig : Type := mkConfig {
  ip : list Z;
  port : Z;
  isSecure : bool
}.

Definition scheme (config : ServerConfig) : list Z :=
  js "ws" ++ (if isSecure config then js "s" else []).

Definition serverURL (config : ServerConfig) : list Z :=
  scheme config ++ js "://" ++ ip config ++ js ":" ++ toString10 (port config) ++ js "/".

(** [getURL(req)]; [host] is [req.headers.host], and an empty string is as
    good as none. *)
Definition getURL (config : ServerConfig) (host : option (list Z)) : list Z :=
  match host with
  | Some (c :: h) => scheme config ++ js "://" ++ (c :: h) ++ js "/"
  | _ => serverURL config
  end.

(** [url.replace(/^ws/, "http")]. *)
Definition replace_ws_http (url : list Z) : list Z :=
  match url with
  | 119 :: 115 :: rest => js "http" ++ rest
  | _ => url
  end.

(** [url.replace(/\/$/, ...)] with the empty replacement: a final slash is
    dropped. *)
Definition replace_final_slash (url : list Z) : list Z :=
  match rev url with
  | 47 :: before => rev before
  | _ => url
  end.

(** The target of the redirect the plain-HTTP server sends, line 197. *)
Definition http_redirect (config : ServerConfig) (host : option (list Z)) (url : list Z)
  : list Z :=
  replace_final_slash (replace_ws_http (getURL config host)) ++ url.

(** What the plain-HTTP server writes to answer an upgrade, line 202. *)
Definition upgrade_redirect (config : ServerConfig) (host : option (list Z))
           (httpVersion url : list Z) : list Z :=
  httpVersion ++ js " 301 Moved Permanently" ++ [13; 10] ++ js "Location: "
    ++ replace_final_slash (getURL config host) ++ url
    ++ [13; 10] ++ js "Content-Length: 0" ++ [13; 10; 13; 10].

(** ** Reference decoder for base64

    The inverse of the alphabet, in both its standard and its URL-safe
    spelling, and the decoder of padded base64 text. *)
Definition b64index (c : Z) : Z :=
  if (65 <=? c) && (c <=? 90) then c - 65
  else if (97 <=? c) && (c <=? 122) then c - 71
  else if (48 <=? c) && (c <=? 57) then c + 4
  else if (c =? 43) || (c =? 45) then 62
  else if (c =? 47) || (c =? 95) then 63
  else 0.

Fixpoint base64_decode (s : list Z) : list Z :=
  match s with
  | a :: b :: c :: d :: rest =>
      let byte0 := Z.lor (Z.shiftl (b64index a) 2) (Z.shiftr (b64index b) 4) in
      let byte1 :=
        Z.lor (Z.shiftl (Z.land (b64index b) 15) 4) (Z.shiftr (b64index c) 2) in
      let byte2 := Z.lor (Z.shiftl (Z.land (b64index c) 3) 6) (b64index d) in
      if c =? 61 then [byte0]
      else if d =? 61 then [byte0; byte1]
      else byte0 :: byte1 :: byte2 :: base64_decode rest
  | _ => []
  end.

(** A character that needs no escaping in a URL path segment. *)
Definition is_url_safe (c : Z) : bool :=
  ((65 <=? c) && (c <=? 90)) || ((97 <=? c) && (c <=? 122))
  || ((48 <=? c) && (c <=? 57)) || (c =? 45) || (c =? 95).

(** The host and port a URL of this server names: the [Host] header of the
    request when it has one, the configured address otherwise. *)
Definition authority (config : ServerConfig) (host : option (list Z)) : list Z :=
  match host with
  | Some (c :: h) => c :: h
  | _ => ip config ++ js ":" ++ toString10 (port config)
  end.

(** ** The events a transport delivers

    A socket comes in one ['connection'] event; its ['message'] and
    ['close'] events come while it is open, with the [url] its handlers
    captured, and ['close'] comes once.  [open] lists the sockets that are
    open, each with its [url]. *)
Definition same_pair (p q : string * WebSocket) : bool :=
  String.eqb (fst p) (fst q) && Nat.eqb (snd p) (snd q).

Fixpoint take_out (p : string * WebSocket) (open : list (string * WebSocket))
  : list (string * WebSocket) :=
  match open with
  | [] => []
  | q :: open' => if same_pair p q then open' else q :: take_out p open'
  end.

Fixpoint orderly (open : list (string * WebSocket)) (evs : list event) : bool :=
  match evs with
  | [] => true
  | Connection _ url s :: evs' =>
      negb (existsb (Nat.eqb s) (map snd open)) && orderly ((url, s) :: open) evs'
  | Message url s _ :: evs' =>
      existsb (same_pair (url, s)) open && orderly open evs'
  | Closed url _ s :: evs' =>
      existsb (same_pair (url, s)) open && orderly (take_out (url, s) open) evs'
  end.

Fixpoint open_after (open : list (string * WebSocket)) (evs : list event)
  : list (string * WebSocket) :=
  match evs with
  | [] => open
  | Connection _ url s :: evs' => open_after ((url, s) :: open) evs'
  | Message _ _ _ :: evs' => open_after open evs'
  | Closed url _ s :: evs' => open_after (take_out (url, s) open) evs'
  end.

(** * Properties *)

(** ** Dictionaries *)

Section JSObjectFacts.
Context {V : Type}.
Implicit Types (o : object V) (k : string) (v : V).

Lemma obj_get_set_same o k v : obj_get (obj_set o k v) k = Some v.
Proof.
  induction o as [|[k' v'] o IH]; simpl.
  - now rewrite String.eqb_refl.
  - destruct (String.eqb k' k) eqn:E; simpl; rewrite E; auto.
Qed.

Lemma obj_get_set_other o k k' v :
  k <> k' -> obj_get (obj_set o k v) k' = obj_get o k'.
Proof.
  intros Hne. induction o as [|[k0 v0] o IH]; simpl.
  - apply String.eqb_neq in Hne. now rewrite Hne.
  - destruct (String.eqb k0 k) eqn:E; simpl.
    + apply String.eqb_eq in E; subst k0.
      apply String.eqb_neq in Hne. now rewrite Hne.
    + now rewrite IH.
Qed.

Lemma obj_get_delete_same o k : obj_get (obj_delete o k) k = None.
Proof.
  induction o as [|[k' v'] o IH]; simpl; auto.
  destruct (String.eqb k' k) eqn:E; simpl; auto. now rewrite E.
Qed.

Lemma obj_get_delete_other o k k' :
  k <> k' -> obj_get (obj_delete o k) k' = obj_get o k'.
Proof.
  intros Hne. induction o as [|[k0 v0] o IH]; simpl; auto.
  destruct (String.eqb k0 k) eqn:E; simpl.
  - apply String.eqb_eq in E; subst k0.
    apply String.eqb_neq in Hne. now rewrite Hne.
  - now rewrite IH.
Qed.

Lemma obj_keys_get o k : In k (obj_keys o) <-> obj_get o k <> None.
Proof.
  unfold obj_keys. induction o as [|[k' v'] o IH]; simpl.
  - split; [tauto | congruence].
  - destruct (String.eqb k' k) eqn:E.
    + apply String.eqb_eq in E. split; [congruence | auto].
    + apply String.eqb_neq in E. rewrite <- IH. tauto.
Qed.

Lemma obj_keys_get_some o k : In k (obj_keys o) -> exists v, obj_get o k = Some v.
Proof.
  intros H. apply obj_keys_get in H.
  destruct (obj_get o k) as [v|]; [eauto | congruence].
Qed.

Lemma obj_keys_set_present o k v :
  obj_get o k <> None -> obj_keys (obj_set o k v) = obj_keys o.
Proof.
  unfold obj_keys. induction o as [|[k' v'] o IH]; simpl; [congruence|].
  destruct (String.eqb k' k) eqn:E; simpl; intros H; [reflexivity|].
  now rewrite IH.
Qed.

Lemma obj_keys_set_absent o k v :
  obj_get o k = None -> obj_keys (obj_set o k v) = obj_keys o ++ [k].
Proof.
  unfold obj_keys. induction o as [|[k' v'] o IH]; simpl; [reflexivity|].
  destruct (String.eqb k' k) eqn:E; simpl; intros H; [discriminate|].
  now rewrite IH.
Qed.

Lemma obj_keys_delete_incl o k k' :
  In k' (obj_keys (obj_delete o k)) -> In k' (obj_keys o).
Proof.
  unfold obj_keys. induction o as [|[k0 v0] o IH]; simpl; auto.
  destruct (String.eqb k0 k); simpl; tauto.
Qed.

Lemma obj_keys_set_NoDup o k v :
  NoDup (obj_keys o) -> NoDup (obj_keys (obj_set o k v)).
Proof.
  intros Hnd. destruct (obj_get o k) eqn:E.
  - rewrite obj_keys_set_present; [assumption | congruence].
  - rewrite obj_keys_set_absent by assumption.
    apply NoDup_app; [assumption | repeat constructor; simpl; tauto |].
    intros x Hx [<-|[]]. apply obj_keys_get in Hx. congruence.
Qed.

Lemma obj_keys_delete_NoDup o k :
  NoDup (obj_keys o) -> NoDup (obj_keys (obj_delete o k)).
Proof.
  unfold obj_keys. induction o as [|[k0 v0] o IH]; simpl; auto.
  intros Hnd. inversion Hnd as [|? ? Hin Hnd']; subst.
  destruct (String.eqb k0 k); simpl; auto.
  constructor; auto. intros H. apply Hin.
  now apply (obj_keys_delete_incl o k).
Qed.

End JSObjectFacts.

(** ** Arrays: [indexOf] and [splice] *)

Lemma indexOf_from_absent a x i : ~ In x a -> indexOf_from a x i = -1.
Proof.
  revert i. induction a as [|y a IH]; simpl; intros i Hx; [reflexivity|].
  destruct (Nat.eqb_spec y x) as [->|Hne]; [tauto|]. apply IH. tauto.
Qed.

Lemma indexOf_from_present a x i :
  In x a ->
  exists n : nat,
    indexOf_from a x i = i + Z.of_nat n /\ (n < length a)%nat
    /\ firstn n a ++ skipn (S n) a = remove_first x a.
Proof.
  revert i. induction a as [|y a IH]; simpl; intros i Hx; [tauto|].
  destruct (Nat.eqb_spec y x) as [->|Hne].
  - exists 0%nat. simpl. repeat split; lia.
  - destruct Hx as [Hx|Hx]; [congruence|].
    destruct (IH (i + 1) Hx) as (n & Hi & Hn & Hr).
    exists (S n). rewrite Hi, firstn_cons, <- app_comm_cons, Hr.
    repeat split; lia.
Qed.

Lemma splice_at (A : Type) (a : list A) (n : nat) :
  (n < length a)%nat -> splice a (Z.of_nat n) 1 = firstn n a ++ skipn (S n) a.
Proof.
  intros Hn. unfold splice.
  replace (Z.of_nat n <? 0) with false by (symmetry; apply Z.ltb_ge; lia).
  rewrite Z.min_l by lia. rewrite Z.max_l by lia. rewrite Z.min_l by lia.
  rewrite Nat2Z.id. replace (Z.to_nat (Z.of_nat n + 1)) with (S n) by lia.
  reflexivity.
Qed.

Lemma splice_last (A : Type) (a : list A) : splice a (-1) 1 = removelast a.
Proof.
  unfold splice. cbn [Z.ltb Z.compare].
  destruct a as [|y a]; [reflexivity|].
  set (l := y :: a). assert (Hl : (0 < length l)%nat) by (simpl; lia).
  rewrite Z.max_l by lia. rewrite Z.max_l by lia. rewrite Z.min_l by lia.
  replace (Z.to_nat (Z.of_nat (length l) + -1 + 1)) with (length l) by lia.
  replace (Z.to_nat (Z.of_nat (length l) + -1)) with (pred (length l)) by lia.
  rewrite skipn_all, app_nil_r. symmetry. apply removelast_firstn_len.
Qed.

(** Removing a member of the array removes its first occurrence. *)
Lemma splice_member a x :
  In x a -> splice a (indexOf a x) 1 = remove_first x a.
Proof.
  intros Hx. destruct (indexOf_from_present a x 0 Hx) as (n & Hi & Hn & Hr).
  unfold indexOf. rewrite Hi, Z.add_0_l, splice_at by assumption. exact Hr.
Qed.

(** [indexOf] answers [-1] for a stranger, and [splice(-1, 1)] removes the
    last element. *)
Lemma splice_stranger a x :
  ~ In x a -> splice a (indexOf a x) 1 = removelast a.
Proof.
  intros Hx. unfold indexOf. rewrite indexOf_from_absent by assumption.
  apply splice_last.
Qed.

Lemma length_remove_first a x :
  In x a -> length a = S (length (remove_first x a)).
Proof.
  induction a as [|y a IH]; simpl; [tauto|].
  destruct (Nat.eqb_spec y x) as [->|Hne]; [reflexivity|].
  intros [H|H]; [congruence|]. simpl. now rewrite <- IH.
Qed.

Lemma length_removelast (A : Type) (a : list A) :
  a <> [] -> length a = S (length (removelast a)).
Proof.
  intros Ha. destruct (exists_last Ha) as (l & y & ->).
  rewrite removelast_last, length_app. simpl. lia.
Qed.

(** On a non-empty array the close handler's [splice] removes exactly one
    element, member or not. *)
Lemma length_splice_indexOf a x :
  a <> [] -> length a = S (length (splice a (indexOf a x) 1)).
Proof.
  intros Ha. destruct (in_dec Nat.eq_dec x a) as [Hx|Hx].
  - rewrite splice_member by assumption. now apply length_remove_first.
  - rewrite splice_stranger by assumption. now apply length_removelast.
Qed.

Lemma remove_first_In x y a : In y (remove_first x a) -> In y a.
Proof.
  induction a as [|z a IH]; simpl; auto.
  destruct (Nat.eqb z x); simpl; tauto.
Qed.

Lemma remove_first_other x y a : In y a -> y <> x -> In y (remove_first x a).
Proof.
  induction a as [|z a IH]; simpl; auto.
  destruct (Nat.eqb_spec z x) as [->|Hne]; simpl; intros [H|H] Hy; auto; congruence.
Qed.

Lemma remove_first_perm x a : In x a -> Permutation (x :: remove_first x a) a.
Proof.
  induction a as [|z a IH]; simpl; [tauto|].
  destruct (Nat.eqb_spec z x) as [->|Hne]; [reflexivity|].
  intros [H|H]; [congruence|]. rewrite perm_swap. constructor. now apply IH.
Qed.

Lemma remove_first_NoDup x a : NoDup a -> NoDup (remove_first x a).
Proof.
  induction 1 as [|z a Hz Hnd IH]; simpl; [constructor|].
  destruct (Nat.eqb z x); [assumption|].
  constructor; auto. intros H. apply Hz. now apply (remove_first_In x).
Qed.

Lemma remove_first_NoDup_not_In x a : NoDup a -> ~ In x (remove_first x a).
Proof.
  induction 1 as [|z a Hz Hnd IH]; simpl; [tauto|].
  destruct (Nat.eqb_spec z x) as [->|Hne]; [assumption|].
  simpl. tauto.
Qed.

(** ** The handlers' effect on the registry *)

Lemma on_connection_pool now url socket st :
  obj_get (connectionPools (on_connection now url socket st)) url
  = Some (membersOf st url ++ [socket]).
Proof.
  unfold on_connection, membersOf.
  destruct (obj_get (connectionPools st) url); simpl; apply obj_get_set_same.
Qed.

Lemma on_connection_other now url socket st u :
  url <> u ->
  obj_get (connectionPools (on_connection now url socket st)) u
  = obj_get (connectionPools st) u.
Proof.
  intros Hne. unfold on_connection.
  destruct (obj_get (connectionPools st) url); simpl;
    now apply obj_get_set_other.
Qed.

Lemma on_close_absent url isServer socket st :
  obj_get (connectionPools st) url = None ->
  on_close url isServer socket st = TypeError.
Proof. intros H. unfold on_close. now rewrite H. Qed.

Lemma on_close_present url isServer socket st pool :
  obj_get (connectionPools st) url = Some pool ->
  exists st',
    on_close url isServer socket st
    = Ok (st', if isServer then map Close (splice pool (indexOf pool socket) 1) else [])
    /\ obj_get (connectionPools st') url
       = match splice pool (indexOf pool socket) 1 with
         | [] => None
         | pool' => Some pool'
         end
    /\ (forall u, url <> u ->
          obj_get (connectionPools st') u = obj_get (connectionPools st) u).
Proof.
  intros H. unfold on_close. rewrite H.
  destruct (splice pool (indexOf pool socket) 1) as [|y pool'] eqn:E.
  - eexists. split; [reflexivity|]. simpl. split.
    + apply obj_get_delete_same.
    + intros u Hu. now apply obj_get_delete_other.
  - eexists. split; [reflexivity|]. simpl. split.
    + apply obj_get_set_same.
    + intros u Hu. now apply obj_get_set_other.
Qed.

Lemma on_close_Ok url isServer socket st st' acts :
  on_close url isServer socket st = Ok (st', acts) ->
  exists pool, obj_get (connectionPools st) url = Some pool.
Proof.
  unfold on_close. destruct (obj_get (connectionPools st) url); [eauto | discriminate].
Qed.

(** ** The registry invariant *)

Lemma well_formed_initial : well_formed initial.
Proof.
  repeat split; simpl; try constructor; try tauto. discriminate.
Qed.

Lemma well_formed_on_connection now url socket st :
  well_formed st -> well_formed (on_connection now url socket st).
Proof.
  intros (Hnd & Hne & Hopen). split; [|split].
  - unfold on_connection.
    destruct (obj_get (connectionPools st) url); simpl;
      now apply obj_keys_set_NoDup.
  - intros u pool Hu. destruct (string_dec url u) as [<-|Hd].
    + rewrite on_connection_pool in Hu. injection Hu as <-.
      intros E. now apply app_eq_nil in E as [_ E].
    + rewrite on_connection_other in Hu by assumption. eauto.
  - intros u. unfold on_connection.
    destruct (obj_get (connectionPools st) url) eqn:E; simpl.
    + destruct (string_dec url u) as [<-|Hd].
      * rewrite obj_get_set_same, <- Hopen, E. split; discriminate.
      * rewrite obj_get_set_other by assumption. apply Hopen.
    + destruct (string_dec url u) as [<-|Hd].
      * rewrite !obj_get_set_same. split; discriminate.
      * rewrite !obj_get_set_other by assumption. apply Hopen.
Qed.

Lemma well_formed_on_close url isServer socket st st' acts :
  well_formed st -> on_close url isServer socket st = Ok (st', acts) ->
  well_formed st'.
Proof.
  intros (Hnd & Hne & Hopen). unfold on_close.
  destruct (obj_get (connectionPools st) url) as [pool|] eqn:E; [|discriminate].
  destruct (splice pool (indexOf pool socket) 1) as [|y pool'] eqn:Es; simpl;
    intros [= <- <-]; (split; [|split]); simpl.
  - now apply obj_keys_delete_NoDup.
  - intros u p Hu. destruct (string_dec url u) as [<-|Hd].
    + now rewrite obj_get_delete_same in Hu.
    + rewrite obj_get_delete_other in Hu by assumption. eauto.
  - intros u. destruct (string_dec url u) as [<-|Hd].
    + rewrite !obj_get_delete_same. tauto.
    + rewrite !obj_get_delete_other by assumption. apply Hopen.
  - now apply obj_keys_set_NoDup.
  - intros u p Hu. destruct (string_dec url u) as [<-|Hd].
    + rewrite obj_get_set_same in Hu. injection Hu as <-. discriminate.
    + rewrite obj_get_set_other in Hu by assumption. eauto.
  - intros u. destruct (string_dec url u) as [<-|Hd].
    + rewrite obj_get_set_same, <- Hopen, E. split; discriminate.
    + rewrite obj_get_set_other by assumption. apply Hopen.
Qed.

Lemma well_formed_handle e st st' acts :
  well_formed st -> handle e st = Ok (st', acts) -> well_formed st'.
Proof.
  intros Hwf. destruct e as [now url s|url s m|url b s]; simpl.
  - intros [= <- <-]. now apply well_formed_on_connection.
  - destruct (on_message url s m st); [|discriminate]. now intros [= <- <-].
  - now apply well_formed_on_close.
Qed.

(** A run that completes is a first event that completes, then a run that
    completes. *)
Lemma run_cons_inv e evs st st' acts :
  run (e :: evs) st = Ok (st', acts) ->
  exists st1 acts1 acts2,
    handle e st = Ok (st1, acts1) /\ run evs st1 = Ok (st', acts2)
    /\ acts = acts1 ++ acts2.
Proof.
  simpl. destruct (handle e st) as [[st1 acts1]|]; [|discriminate].
  destruct (run evs st1) as [[st2 acts2]|] eqn:E2; [|discriminate].
  intros [= <- <-]. eauto 6.
Qed.

(** What every completed event keeps, every completed run keeps. *)
Lemma run_invariant (P : state -> Prop) :
  (forall e st st' acts, P st -> handle e st = Ok (st', acts) -> P st') ->
  forall evs st st' acts, P st -> run evs st = Ok (st', acts) -> P st'.
Proof.
  intros Hstep. induction evs as [|e evs IH]; intros st st' acts HP Hrun.
  - simpl in Hrun. now injection Hrun as <- _.
  - apply run_cons_inv in Hrun as (st1 & acts1 & acts2 & E & E2 & _).
    eapply IH; [|exact E2]. eapply Hstep; eauto.
Qed.

Lemma well_formed_run evs st st' acts :
  well_formed st -> run evs st = Ok (st', acts) -> well_formed st'.
Proof. apply (run_invariant well_formed), well_formed_handle. Qed.

Lemma reachable_well_formed st : reachable st -> well_formed st.
Proof.
  intros (evs & acts & H). eapply well_formed_run; [apply well_formed_initial | exact H].
Qed.

Lemma run_app evs1 evs2 st :
  run (evs1 ++ evs2) st
  = match run evs1 st with
    | Ok (st1, acts1) =>
        match run evs2 st1 with
        | Ok (st2, acts2) => Ok (st2, acts1 ++ acts2)
        | TypeError => TypeError
        end
    | TypeError => TypeError
    end.
Proof.
  revert st. induction evs1 as [|e evs1 IH]; simpl; intros st.
  - destruct (run evs2 st) as [[st2 acts2]|]; reflexivity.
  - destruct (handle e st) as [[st1 acts1]|]; [|reflexivity].
    rewrite IH. destruct (run evs1 st1) as [[st2 acts2]|]; [|reflexivity].
    destruct (run evs2 st2) as [[st3 acts3]|]; [|reflexivity].
    now rewrite app_assoc.
Qed.

(** The controller flag is set by the header under its exact name and
    value only. *)
Example isServer_exact_key :
  isServer [("X-Rawterm-Is-Server", "Yes")]%string = true
  /\ isServer [("X-Rawterm-Is-Server", "yes")]%string = false
  /\ isServer [("x-rawterm-is-server", "Yes")]%string = false
  /\ isServer [] = false.
Proof. repeat split. Qed.

(** ** Leaving a session *)

(** C1 (as the code has it).  The close handler is not defensive.  Run for a
    session that is absent from the registry it throws a [TypeError] (and so
    mutates nothing).  Run for a registered session of which the socket is
    not a member it completes without error but is no no-op: [indexOf]
    answers [-1] and [splice(-1, 1)] removes the last member of the session.
    When that was its only member the session is deleted, with its creation
    time, and [pipeCount] goes down by one; otherwise the session keeps its
    creation time and [pipeCount] stays.  Every other session is left as it
    was: same members, same creation time. *)
Theorem on_close_unknown url isServer socket st :
  (obj_get (connectionPools st) url = None ->
   on_close url isServer socket st = TypeError)
  /\ (forall pool,
        obj_get (connectionPools st) url = Some pool -> ~ In socket pool ->
        exists st',
          on_close url isServer socket st
          = Ok (st', if isServer then map Close (removelast pool) else [])
          /\ membersOf st' url = removelast pool
          /\ (In url (allSessionIds st') <-> removelast pool <> [])
          /\ (removelast pool = [] ->
              obj_get (connectionPools st') url = None
              /\ obj_get (connectionPoolOpen st') url = None
              /\ pipeCount st' = pipeCount st - 1)
          /\ (removelast pool <> [] ->
              obj_get (connectionPools st') url = Some (removelast pool)
              /\ connectionPoolOpen st' = connectionPoolOpen st
              /\ pipeCount st' = pipeCount st)
          /\ (forall u, url <> u ->
                obj_get (connectionPools st') u = obj_get (connectionPools st) u
                /\ obj_get (connectionPoolOpen st') u = obj_get (connectionPoolOpen st) u
                /\ membersOf st' u = membersOf st u)).
Proof.
  split; [apply on_close_absent|].
  intros pool Hpool Hstranger.
  destruct (on_close_present url isServer socket st pool Hpool)
    as (st' & Hrun & Hurl & Hother).
  assert (Hstate :
            st' = match removelast pool with
                  | [] => {| connectionPools := obj_delete (connectionPools st) url;
                             connectionPoolOpen := obj_delete (connectionPoolOpen st) url;
                             pipeCount := pipeCount st - 1 |}
                  | _ :: _ => {| connectionPools :=
                                   obj_set (connectionPools st) url (removelast pool);
                                 connectionPoolOpen := connectionPoolOpen st;
                                 pipeCount := pipeCount st |}
                  end).
  { revert Hrun. unfold on_close. rewrite Hpool. cbv zeta.
    rewrite splice_stranger by assumption.
    destruct (removelast pool); cbn [length Z.of_nat Z.eqb]; now intros [= <-]. }
  rewrite splice_stranger in Hrun, Hurl by assumption.
  exists st'. split; [exact Hrun|]. split; [|split; [|split; [|split]]].
  - unfold membersOf. rewrite Hurl. now destruct (removelast pool).
  - unfold allSessionIds. rewrite obj_keys_get, Hurl.
    destruct (removelast pool); split; congruence.
  - intros Hnil. rewrite Hnil in Hstate. subst st'.
    cbn [connectionPools connectionPoolOpen pipeCount].
    now rewrite !obj_get_delete_same.
  - intros Hsome. destruct (removelast pool) as [|y rest] eqn:E; [congruence|].
    subst st'. cbn [connectionPools connectionPoolOpen pipeCount].
    now rewrite obj_get_set_same.
  - intros u Hu. split; [now apply Hother|]. split.
    + destruct (removelast pool); subst st'; cbn [connectionPoolOpen];
        [now apply obj_get_delete_other | reflexivity].
    + unfold membersOf. now rewrite Hother.
Qed.

(** C1 fails as stated: with member 1 alone in session "/s", the close
    handler run for the stranger 2 empties and deletes the session; and run
    on the empty registry it throws. *)
Lemma on_close_stranger_removes_member :
  membersOf (on_connection 0 "/s" 1%nat initial) "/s" = [1%nat]
  /\ on_close "/s" false 2%nat (on_connection 0 "/s" 1%nat initial) = Ok (initial, [])
  /\ on_close "/s" false 1%nat initial = @TypeError (state * list action).
Proof. repeat split. Qed.

(** ** The registry holds no empty session *)

(** C3.  In every state reached from the empty registry, a session
    identifier is registered exactly when the session has a member; and the
    close that takes a session's single remaining member leaves the
    identifier unregistered. *)
Theorem session_registered_iff_members st :
  reachable st ->
  (forall url, In url (allSessionIds st) <-> 0 < memberCount st url)
  /\ (forall url isServer socket st' acts,
        on_close url isServer socket st = Ok (st', acts) ->
        memberCount st url = 1 ->
        ~ In url (allSessionIds st') /\ memberCount st' url = 0).
Proof.
  intros Hreach. destruct (reachable_well_formed st Hreach) as (_ & Hne & _).
  split.
  - intros url. unfold allSessionIds, memberCount, membersOf.
    rewrite obj_keys_get.
    destruct (obj_get (connectionPools st) url) as [pool|] eqn:E.
    + specialize (Hne url pool E). destruct pool; [congruence|].
      split; [simpl; lia | congruence].
    + simpl. split; [congruence | lia].
  - intros url isServer socket st' acts Hrun Hone.
    destruct (on_close_Ok _ _ _ _ _ _ Hrun) as (pool & Hpool).
    destruct (on_close_present url isServer socket st pool Hpool)
      as (st1 & Hrun1 & Hurl & _).
    rewrite Hrun in Hrun1. injection Hrun1 as <- _.
    unfold memberCount, membersOf in Hone. rewrite Hpool in Hone.
    assert (Hlen : length pool = S (length (splice pool (indexOf pool socket) 1))).
    { apply length_splice_indexOf. intros ->. simpl in Hone. lia. }
    destruct (splice pool (indexOf pool socket) 1); [|simpl in Hlen; lia].
    unfold allSessionIds, memberCount, membersOf.
    rewrite obj_keys_get, Hurl. split; [congruence | reflexivity].
Qed.

Lemma session_registered_iff_members_witness :
  (forall url,
      In url (allSessionIds (on_connection 0 "/s" 1%nat initial))
      <-> 0 < memberCount (on_connection 0 "/s" 1%nat initial) url)
  /\ (forall url isServer socket st' acts,
        on_close url isServer socket (on_connection 0 "/s" 1%nat initial)
        = Ok (st', acts) ->
        memberCount (on_connection 0 "/s" 1%nat initial) url = 1 ->
        ~ In url (allSessionIds st') /\ memberCount st' url = 0).
Proof.
  apply (session_registered_iff_members (on_connection 0 "/s" 1%nat initial)).
  exists [Connection 0 "/s" 1%nat], []. reflexivity.
Defined.

(** ** Disconnection of a controller *)

(** Once the sockets of a pool all close, in any order, the pool is gone. *)
Lemma run_closes_all url (isServer : WebSocket -> bool) order :
  forall st pool,
    obj_get (connectionPools st) url = Some pool ->
    pool <> [] -> NoDup pool -> Permutation order pool ->
    exists st' acts,
      run (map (fun s => Closed url (isServer s) s) order) st = Ok (st', acts)
      /\ obj_get (connectionPools st') url = None.
Proof.
  induction order as [|x order IH]; intros st pool Hpool Hne Hnd Hperm.
  - apply Permutation_nil in Hperm. congruence.
  - assert (Hx : In x pool) by (eapply Permutation_in; [exact Hperm | now left]).
    destruct (on_close_present url (isServer x) x st pool Hpool)
      as (st1 & Hrun & Hurl & _).
    rewrite splice_member in Hrun, Hurl by assumption.
    assert (Hperm' : Permutation order (remove_first x pool)).
    { apply Permutation_cons_inv with (a := x).
      rewrite Hperm. symmetry. now apply remove_first_perm. }
    cbn [map run handle]. rewrite Hrun.
    destruct (remove_first x pool) as [|y rest] eqn:E.
    + apply Permutation_sym, Permutation_nil in Hperm'. subst order.
      simpl. eauto.
    + destruct (IH st1 (y :: rest)) as (st2 & acts2 & Hrun2 & Hgone);
        try assumption; try discriminate.
      { rewrite <- E. now apply remove_first_NoDup. }
      rewrite Hrun2. eauto.
Qed.

(** The two branches of line 153.  Were the close handler of a member [m]
    of session [url] to run with the captured flag [true], a close would be
    requested for every other member the session had at that moment, and
    once those sockets had closed (in whatever order, each with its own
    flag) the session would no longer be registered.  With the flag
    [false] nothing is closed, and the other members are still the members
    of the session. *)
Lemma on_close_by_flag url m st pool :
  obj_get (connectionPools st) url = Some pool ->
  In m pool ->
  (exists st',
      on_close url true m st = Ok (st', map Close (remove_first m pool))
      /\ (forall s, In s pool -> s <> m -> In (Close s) (map Close (remove_first m pool)))
      /\ (NoDup pool ->
          forall (isServer : WebSocket -> bool) order,
            Permutation order (remove_first m pool) ->
            exists st'' acts,
              run (map (fun s => Closed url (isServer s) s) order) st' = Ok (st'', acts)
              /\ ~ In url (allSessionIds st'')))
  /\ (exists st',
         on_close url false m st = Ok (st', [])
         /\ membersOf st' url = remove_first m pool
         /\ (forall s, In s pool -> s <> m ->
               In s (membersOf st' url) /\ In url (allSessionIds st'))).
Proof.
  intros Hpool Hm. split.
  - destruct (on_close_present url true m st pool Hpool) as (st' & Hrun & Hurl & _).
    rewrite splice_member in Hrun, Hurl by assumption.
    exists st'. split; [exact Hrun|]. split.
    + intros s Hs Hsm. apply in_map. now apply remove_first_other.
    + intros Hnd isServer order Hperm. unfold allSessionIds.
      destruct (remove_first m pool) as [|y rest] eqn:E.
      * apply Permutation_sym, Permutation_nil in Hperm. subst order.
        exists st', []. split; [reflexivity|].
        rewrite obj_keys_get, Hurl. tauto.
      * destruct (run_closes_all url isServer order st' (y :: rest))
          as (st'' & acts & Hrun' & Hgone); try assumption; try discriminate.
        { rewrite <- E. now apply remove_first_NoDup. }
        exists st'', acts. split; [exact Hrun'|].
        rewrite obj_keys_get, Hgone. tauto.
  - destruct (on_close_present url false m st pool Hpool) as (st' & Hrun & Hurl & _).
    rewrite splice_member in Hurl by assumption.
    exists st'. split; [exact Hrun|].
    assert (Hmem : membersOf st' url = remove_first m pool).
    { unfold membersOf. rewrite Hurl. now destruct (remove_first m pool). }
    split; [exact Hmem|].
    intros s Hs Hsm. pose proof (remove_first_other m s pool Hs Hsm) as Hin.
    split; [now rewrite Hmem|].
    unfold allSessionIds. rewrite obj_keys_get, Hurl.
    destruct (remove_first m pool); [contradiction | discriminate].
Qed.

(** C4 (as the code has it).  The flag the close handler captures is
    [isServer], set exactly when [request.headers] has the value ["Yes"]
    under the key ["X-Rawterm-Is-Server"]; the keys of that object are
    lower-cased, so whatever headers the client sent, the look-up finds
    nothing and the flag is [false].  So when a member [m] of session [url] disconnects, also one
    that announced itself as the controller, the handler requests no close:
    the other members are still the members of the session, which stays
    registered. *)
Theorem controller_flag_never_set headers url m st pool :
  lower_case_names headers = true ->
  obj_get (connectionPools st) url = Some pool ->
  In m pool ->
  (forall hs, isServer hs = true <-> obj_get hs "X-Rawterm-Is-Server" = Some "Yes"%string)
  /\ obj_get headers "X-Rawterm-Is-Server" = None
  /\ isServer headers = false
  /\ exists st',
       handle (Closed url (isServer headers) m) st = Ok (st', [])
       /\ membersOf st' url = remove_first m pool
       /\ (forall s, In s pool -> s <> m ->
             In s (membersOf st' url) /\ In url (allSessionIds st')).
Proof.
  intros Hlower Hpool Hm.
  assert (Hkey : obj_get headers "X-Rawterm-Is-Server" = None).
  { destruct (obj_get headers "X-Rawterm-Is-Server") as [v|] eqn:E; [|reflexivity].
    assert (Hin : In "X-Rawterm-Is-Server"%string (obj_keys headers)).
    { apply obj_keys_get. congruence. }
    unfold lower_case_names in Hlower. rewrite forallb_forall in Hlower.
    apply Hlower in Hin. discriminate Hin. }
  assert (Hflag : isServer headers = false) by (unfold isServer; now rewrite Hkey).
  split.
  { intros hs. unfold isServer.
    destruct (obj_get hs "X-Rawterm-Is-Server") as [v|]; [|split; discriminate].
    rewrite String.eqb_eq. split; congruence. }
  split; [exact Hkey|]. split; [exact Hflag|]. rewrite Hflag.
  destruct (on_close_by_flag url m st pool Hpool Hm) as (_ & st' & Hrun & Hmem & Hrest).
  exists st'. cbn [handle]. split; [exact Hrun|]. split; [exact Hmem | exact Hrest].
Qed.

Lemma controller_flag_never_set_witness :
  (forall hs, isServer hs = true <-> obj_get hs "X-Rawterm-Is-Server" = Some "Yes"%string)
  /\ obj_get [("x-rawterm-is-server", "Yes")]%string "X-Rawterm-Is-Server" = None
  /\ isServer [("x-rawterm-is-server", "Yes")]%string = false
  /\ exists st',
       handle (Closed "/s" (isServer [("x-rawterm-is-server", "Yes")]%string) 1%nat)
              (on_connection 5 "/s" 2%nat (on_connection 0 "/s" 1%nat initial))
       = Ok (st', [])
       /\ membersOf st' "/s" = remove_first 1%nat [1; 2]%nat
       /\ (forall s, In s [1; 2]%nat -> s <> 1%nat ->
             In s (membersOf st' "/s") /\ In "/s"%string (allSessionIds st')).
Proof.
  apply (controller_flag_never_set
           [("x-rawterm-is-server", "Yes")]%string "/s" 1%nat
           (on_connection 5 "/s" 2%nat (on_connection 0 "/s" 1%nat initial))
           [1; 2]%nat).
  - reflexivity.
  - reflexivity.
  - simpl. auto.
Defined.

(** ** The clean-up of lone sessions *)

Lemma cleanup_one_actions now st x a :
  In a (cleanupInterval_one now st x) <->
  exists s t,
    a = Close s /\ obj_get (connectionPools st) x = Some [s]
    /\ obj_get (connectionPoolOpen st) x = Some t /\ now - t > 60000.
Proof.
  unfold cleanupInterval_one.
  destruct (obj_get (connectionPools st) x) as [pool|].
  2:{ split; [contradiction|]. intros (s & t & _ & H & _). discriminate. }
  destruct pool as [|s [|s' pool]].
  - simpl. split; [contradiction|]. intros (s & t & _ & H & _). discriminate.
  - cbn [length Z.of_nat Pos.of_succ_nat Z.eqb Pos.eqb andb].
    destruct (obj_get (connectionPoolOpen st) x) as [t|].
    + destruct (Z.gtb_spec (now - t) 60000) as [Hold|Hyoung].
      * simpl. split.
        -- intros [<-|[]]. exists s, t. repeat split; lia.
        -- intros (s1 & t1 & -> & [= <-] & _). now left.
      * split; [contradiction|].
        intros (s1 & t1 & _ & _ & [= <-] & Hold). lia.
    + split; [contradiction|]. intros (s1 & t1 & _ & _ & H & _). discriminate.
  - replace (Z.of_nat (length (s :: s' :: pool)) =? 1) with false
      by (symmetry; apply Z.eqb_neq; simpl length; lia).
    simpl. split; [contradiction|]. intros (s1 & t1 & _ & [= H] & _).
Qed.

(** C5.  One clean-up run requests the close of the lone member of every
    session that has exactly one member and is more than 60000 ms old; for a
    session of one member that is not older than that, and for a session of
    two or more members whatever its age, it requests nothing; and every
    request it issues is the close of the single member of an old session. *)
Theorem cleanup_closes_old_lone_sessions now st :
  (forall x s t,
      obj_get (connectionPools st) x = Some [s] ->
      obj_get (connectionPoolOpen st) x = Some t ->
      now - t > 60000 ->
      cleanupInterval_one now st x = [Close s] /\ In (Close s) (cleanupInterval now st))
  /\ (forall x s t,
        obj_get (connectionPools st) x = Some [s] ->
        obj_get (connectionPoolOpen st) x = Some t ->
        now - t <= 60000 ->
        cleanupInterval_one now st x = [])
  /\ (forall x pool,
        obj_get (connectionPools st) x = Some pool ->
        (2 <= length pool)%nat ->
        cleanupInterval_one now st x = [])
  /\ (forall a,
        In a (cleanupInterval now st) <->
        exists x s t,
          a = Close s /\ obj_get (connectionPools st) x = Some [s]
          /\ obj_get (connectionPoolOpen st) x = Some t /\ now - t > 60000).
Proof.
  assert (Hall : forall a,
             In a (cleanupInterval now st) <->
             exists x s t,
               a = Close s /\ obj_get (connectionPools st) x = Some [s]
               /\ obj_get (connectionPoolOpen st) x = Some t /\ now - t > 60000).
  { intros a. unfold cleanupInterval. rewrite in_flat_map. split.
    - intros (x & _ & Ha). apply cleanup_one_actions in Ha.
      destruct Ha as (s & t & Ha). eauto.
    - intros (x & s & t & Ha & Hp & Ho & Hold). exists x. split.
      + apply obj_keys_get. congruence.
      + apply cleanup_one_actions. eauto 6. }
  split; [|split; [|split]]; [| | |exact Hall].
  - intros x s t Hp Ho Hold. split.
    + unfold cleanupInterval_one. rewrite Hp, Ho. simpl.
      destruct (Z.gtb_spec (now - t) 60000); [reflexivity | lia].
    + apply Hall. eauto 7.
  - intros x s t Hp Ho Hyoung. unfold cleanupInterval_one. rewrite Hp, Ho. simpl.
    destruct (Z.gtb_spec (now - t) 60000); [lia | reflexivity].
  - intros x pool Hp Hlen. unfold cleanupInterval_one. rewrite Hp.
    replace (Z.of_nat (length pool) =? 1) with false
      by (symmetry; apply Z.eqb_neq; lia).
    reflexivity.
Qed.

(** ** Relaying a message *)

Lemma on_message_sends socket message pool :
  flat_map (fun s => if Nat.eqb s socket then [] else [Send s message]) pool
  = map (fun s => Send s message) (filter (fun s => negb (Nat.eqb s socket)) pool).
Proof.
  induction pool as [|s pool IH]; simpl; [reflexivity|].
  destruct (Nat.eqb s socket); simpl; now rewrite IH.
Qed.

(** C6.  A message from member [m] of session [url] is sent, unchanged and in
    pool order, to the members of the session other than [m], and never to
    [m]; with no other member nothing is sent and nothing fails.  The
    handler leaves the registry as it found it and stores the message
    nowhere, and the connection handler sends nothing: the rest of the run
    is what it would have been without the message, and a socket that was
    not in the session when the message arrived and joins next has received
    nothing. *)
Theorem message_relayed_to_others url m message st pool :
  obj_get (connectionPools st) url = Some pool ->
  exists sends,
    on_message url m message st = Ok sends
    /\ sends = map (fun s => Send s message)
                   (filter (fun s => negb (Nat.eqb s m)) pool)
    /\ (forall a, In a sends <-> exists s, a = Send s message /\ In s pool /\ s <> m)
    /\ ((forall s, In s pool -> s = m) -> sends = [])
    /\ (forall evs,
          run (Message url m message :: evs) st
          = match run evs st with
            | Ok (st', acts) => Ok (st', sends ++ acts)
            | TypeError => TypeError
            end)
    /\ (forall now b,
          ~ In b pool ->
          run [Message url m message; Connection now url b] st
          = Ok (on_connection now url b st, sends)
          /\ forall data, ~ In (Send b data) sends).
Proof.
  intros Hpool.
  set (sends := map (fun s => Send s message)
                    (filter (fun s => negb (Nat.eqb s m)) pool)).
  assert (Hrun : on_message url m message st = Ok sends).
  { unfold on_message. rewrite Hpool. now rewrite on_message_sends. }
  assert (Hin : forall a, In a sends <->
                          exists s, a = Send s message /\ In s pool /\ s <> m).
  { intros a. unfold sends. rewrite in_map_iff. split.
    - intros (s & <- & Hs). apply filter_In in Hs as [Hs Hne].
      exists s. repeat split; auto.
      apply negb_true_iff, Nat.eqb_neq in Hne. exact Hne.
    - intros (s & -> & Hs & Hne). exists s. split; [reflexivity|].
      apply filter_In. split; [assumption|].
      now apply negb_true_iff, Nat.eqb_neq. }
  exists sends. split; [exact Hrun|]. split; [reflexivity|]. split; [exact Hin|].
  split; [|split].
  - intros Halone. destruct sends as [|a sends'] eqn:E; [reflexivity|].
    destruct (proj1 (Hin a) (or_introl eq_refl)) as (s & _ & Hs & Hne).
    now apply Halone in Hs.
  - intros evs. cbn [run handle]. rewrite Hrun.
    now destruct (run evs st) as [[st' acts]|].
  - intros now b Hb. split.
    + cbn [run handle]. rewrite Hrun. now rewrite !app_nil_r.
    + intros data Hsent. apply Hin in Hsent as (s & [= <- _] & Hs & _).
      contradiction.
Qed.

Lemma message_relayed_to_others_witness :
  exists sends,
    on_message "/s" 1%nat [104; 105]
      (on_connection 5 "/s" 2%nat (on_connection 0 "/s" 1%nat initial)) = Ok sends
    /\ sends = map (fun s => Send s [104; 105])
                   (filter (fun s => negb (Nat.eqb s 1%nat)) [1; 2]%nat)
    /\ (forall a, In a sends <->
                  exists s, a = Send s [104; 105] /\ In s [1; 2]%nat /\ s <> 1%nat)
    /\ ((forall s, In s [1; 2]%nat -> s = 1%nat) -> sends = [])
    /\ (forall evs,
          run (Message "/s" 1%nat [104; 105] :: evs)
              (on_connection 5 "/s" 2%nat (on_connection 0 "/s" 1%nat initial))
          = match run evs (on_connection 5 "/s" 2%nat (on_connection 0 "/s" 1%nat initial)) with
            | Ok (st', acts) => Ok (st', sends ++ acts)
            | TypeError => TypeError
            end)
    /\ (forall now b,
          ~ In b [1; 2]%nat ->
          run [Message "/s" 1%nat [104; 105]; Connection now "/s" b]
              (on_connection 5 "/s" 2%nat (on_connection 0 "/s" 1%nat initial))
          = Ok (on_connection now "/s" b
                  (on_connection 5 "/s" 2%nat (on_connection 0 "/s" 1%nat initial)),
                sends)
          /\ forall data, ~ In (Send b data) sends).
Proof.
  apply (message_relayed_to_others "/s" 1%nat [104; 105]
           (on_connection 5 "/s" 2%nat (on_connection 0 "/s" 1%nat initial))
           [1; 2]%nat).
  reflexivity.
Defined.

(** ** Member counts *)

Lemma memberCount_on_connection now u socket st url :
  memberCount (on_connection now u socket st) url
  = memberCount st url + (if String.eqb u url then 1 else 0).
Proof.
  unfold memberCount. destruct (String.eqb_spec u url) as [->|Hne].
  - unfold membersOf at 1. rewrite on_connection_pool, length_app. simpl. lia.
  - unfold membersOf. rewrite on_connection_other by assumption. lia.
Qed.

Lemma memberCount_on_close u isServer socket st st' acts url :
  well_formed st ->
  on_close u isServer socket st = Ok (st', acts) ->
  memberCount st' url = memberCount st url - (if String.eqb u url then 1 else 0).
Proof.
  intros (_ & Hne & _) Hrun.
  destruct (on_close_Ok _ _ _ _ _ _ Hrun) as (pool & Hpool).
  destruct (on_close_present u isServer socket st pool Hpool)
    as (st1 & Hrun1 & Hurl & Hother).
  rewrite Hrun in Hrun1. injection Hrun1 as <- _.
  unfold memberCount, membersOf. destruct (String.eqb_spec u url) as [->|Hd].
  - rewrite Hurl, Hpool.
    rewrite (length_splice_indexOf pool socket) by eauto.
    destruct (splice pool (indexOf pool socket) 1); simpl length; lia.
  - rewrite Hother by assumption. lia.
Qed.

Lemma memberCount_run url evs :
  forall st st' acts,
    well_formed st -> run evs st = Ok (st', acts) ->
    memberCount st' url = memberCount st url + joins url evs - leaves url evs.
Proof.
  induction evs as [|e evs IH]; intros st st' acts Hwf Hrun.
  - simpl in Hrun. injection Hrun as <- _. simpl. lia.
  - apply run_cons_inv in Hrun as (st1 & acts1 & acts2 & E & E2 & _).
    rewrite (IH st1 st' acts2 (well_formed_handle _ _ _ _ Hwf E) E2).
    destruct e as [now u s|u s msg|u b s]; simpl in E |- *.
    + injection E as <- _. rewrite memberCount_on_connection. lia.
    + destruct (on_message u s msg st); [|discriminate].
      injection E as <- _. lia.
    + rewrite (memberCount_on_close _ _ _ _ _ _ url Hwf E). lia.
Qed.

(** ** Buffers and base64 *)

Lemma list_ind3 (A : Type) (P : list A -> Prop) :
  P [] -> (forall a, P [a]) -> (forall a b, P [a; b]) ->
  (forall a b c l, P l -> P (a :: b :: c :: l)) ->
  forall l, P l.
Proof.
  intros H0 H1 H2 H3. fix IH 1.
  intros [|a [|b [|c l]]]; [apply H0 | apply H1 | apply H2 | apply H3, IH].
Qed.

Lemma skipn_repeat (A : Type) (x : A) j m : skipn j (repeat x m) = repeat x (m - j).
Proof.
  revert j. induction m as [|m IH]; intros [|j]; simpl; auto.
Qed.

Lemma length_base64 buf : length (base64 buf) = (4 * ((length buf + 2) / 3))%nat.
Proof.
  induction buf as [| | |a b c l IH] using list_ind3; try reflexivity.
  cbn [base64 length]. rewrite IH.
  replace (S (S (S (length l))) + 2)%nat with (length l + 2 + 1 * 3)%nat by lia.
  rewrite Nat.div_add by lia. lia.
Qed.

Lemma b64char_not_pad i : b64char i <> 61.
Proof.
  unfold b64char.
  set (alphabet := js _).
  destruct (nth_in_or_default (Z.to_nat i) alphabet 0) as [Hin | ->]; [|discriminate].
  revert Hin. generalize (nth (Z.to_nat i) alphabet 0). intros c Hin.
  assert (Hall : Forall (fun c => c <> 61) alphabet).
  { unfold alphabet. cbv [js list_ascii_of_string map N_of_ascii Z.of_N N.add N.mul Pos.add Pos.mul Pos.succ].
    repeat constructor; discriminate. }
  rewrite Forall_forall in Hall. now apply Hall.
Qed.

(** Whole groups of three bytes encode without padding. *)
Lemma base64_no_pad buf :
  (length buf mod 3 = 0)%nat -> ~ In 61 (base64 buf).
Proof.
  induction buf as [| | |a b c l IH] using list_ind3; simpl length.
  - intros _ [].
  - discriminate.
  - discriminate.
  - intros Hlen. cbn [base64].
    replace (S (S (S (length l)))) with (length l + 1 * 3)%nat in Hlen by lia.
    rewrite Nat.Div0.mod_add in Hlen.
    intros [H|[H|[H|[H|H]]]]; try (now apply b64char_not_pad in H).
    now apply IH.
Qed.

Lemma replace_all_not_In s c d : c <> d -> ~ In c (replace_all s c d).
Proof.
  intros Hcd Hin. unfold replace_all in Hin. apply in_map_iff in Hin.
  destruct Hin as (x & Hx & _). destruct (Z.eqb_spec x c); congruence.
Qed.

Lemma replace_all_keeps_out s c d e :
  e <> d -> ~ In e s -> ~ In e (replace_all s c d).
Proof.
  intros Hed Hs Hin. unfold replace_all in Hin. apply in_map_iff in Hin.
  destruct Hin as (x & Hx & Hxs). destruct (Z.eqb_spec x c); congruence.
Qed.

Lemma length_replace_all s c d : length (replace_all s c d) = length s.
Proof. apply length_map. Qed.

Lemma length_Buffer_set buf i v : length (Buffer_set buf i v) = length buf.
Proof.
  unfold Buffer_set.
  destruct ((0 <=? i) && (i <? Z.of_nat (length buf))) eqn:E; [|reflexivity].
  apply andb_true_iff in E as [H0 H1]. apply Z.leb_le in H0. apply Z.ltb_lt in H1.
  rewrite !length_app, length_firstn, length_skipn. simpl. lia.
Qed.

(** The loop of [makeID] stores one value at each index of the buffer. *)
Lemma fold_Buffer_set (f : nat -> Z) n k :
  (k <= n)%nat ->
  fold_left (fun buf i => Buffer_set buf (Z.of_nat i) (f i)) (seq 0 k) (repeat 0 n)
  = map (fun i => f i mod 256) (seq 0 k) ++ repeat 0 (n - k).
Proof.
  induction k as [|k IH]; intros Hk.
  - simpl. now rewrite Nat.sub_0_r.
  - rewrite seq_S, fold_left_app, IH by lia. cbn [fold_left Nat.add].
    set (done := map (fun i => f i mod 256) (seq 0 k)).
    assert (Hdone : length done = k) by (unfold done; now rewrite length_map, length_seq).
    unfold Buffer_set. rewrite length_app, Hdone, repeat_length.
    replace ((0 <=? Z.of_nat k) && (Z.of_nat k <? Z.of_nat (k + (n - k)))) with true
      by (symmetry; apply andb_true_iff; split; [apply Z.leb_le | apply Z.ltb_lt]; lia).
    rewrite Nat2Z.id. replace (Z.to_nat (Z.of_nat k + 1)) with (S k) by lia.
    rewrite firstn_app, Hdone, Nat.sub_diag, firstn_O, app_nil_r.
    rewrite <- Hdone at 1. rewrite firstn_all.
    rewrite skipn_app, Hdone. rewrite (skipn_all2 done) by lia.
    replace (S k - k)%nat with 1%nat by lia.
    replace (n - k)%nat with (S (n - S k)) by lia. cbn [repeat skipn app].
    rewrite map_app. cbn [map]. now rewrite <- app_assoc.
Qed.

Lemma makeID_buf_bytes random :
  makeID_buf random = map (fun i => makeID_byte random i mod 256) (seq 0 30).
Proof.
  unfold makeID_buf, Buffer_alloc. change (Z.to_nat 30) with 30%nat.
  rewrite fold_Buffer_set by lia. now rewrite Nat.sub_diag, app_nil_r.
Qed.

(** ** The bytes of [makeID] *)

(** Rounding to nearest moves an integer by at most half a unit of the
    last place kept. *)
Lemma round_double_bound p e :
  0 <= p ->
  let x := round_double p e in
  let sh := Z.max 0 (Z.log2 p + 1 - 53) in
  expo x = e + sh /\ 0 <= mant x /\ 2 * mant x * 2 ^ sh <= 2 * p + 2 ^ sh.
Proof.
  intros Hp x sh. unfold x, round_double. fold sh. cbn [mant expo].
  assert (Hsh : 0 <= sh) by (unfold sh; lia).
  assert (Hpow : 0 < 2 ^ sh) by (apply Z.pow_pos_nonneg; lia).
  rewrite Z.shiftr_div_pow2 by assumption.
  pose proof (Z.div_mod p (2 ^ sh) ltac:(lia)) as Hdm.
  pose proof (Z.mod_pos_bound p (2 ^ sh) Hpow) as Hmod.
  assert (Hq : 0 <= p / 2 ^ sh) by (apply Z.div_pos; lia).
  split; [reflexivity|].
  destruct (0 <? sh) eqn:Epos; cbn [andb].
  - apply Z.ltb_lt in Epos.
    assert (Hhalf : 2 ^ sh = 2 * 2 ^ (sh - 1)).
    { rewrite <- Z.pow_succ_r by lia. f_equal. lia. }
    destruct ((2 ^ (sh - 1) <? p mod 2 ^ sh)
              || ((p mod 2 ^ sh =? 2 ^ (sh - 1)) && Z.odd (p / 2 ^ sh))) eqn:Eup.
    + assert (Hrest : 2 ^ (sh - 1) <= p mod 2 ^ sh).
      { apply orb_true_iff in Eup as [H|H].
        - apply Z.ltb_lt in H. lia.
        - apply andb_true_iff in H as [H _]. apply Z.eqb_eq in H. lia. }
      split; [lia | nia].
    + split; [lia | nia].
  - split; [lia | nia].
Qed.

(** [Math.floor(Math.random() * 255)] is an integer from 0 to 254. *)
Lemma floor_times_255_range r :
  in_unit_interval r -> 0 <= Math_floor (times_255 r) <= 254.
Proof.
  intros ((Hm0 & Hm53) & He & Hm).
  unfold times_255.
  pose proof (round_double_bound (mant r * 255) (expo r) ltac:(lia)) as H.
  cbv zeta in H. destruct H as (Hexpo & Hmant & Hround).
  set (x := round_double (mant r * 255) (expo r)) in *.
  set (p := mant r * 255) in *.
  set (sh := Z.max 0 (Z.log2 p + 1 - 53)) in *.
  assert (Hsh0 : 0 <= sh) by (unfold sh; lia).
  assert (HpowE : 0 < 2 ^ (- expo r)) by (apply Z.pow_pos_nonneg; lia).
  (* the product is below 2^61, so at most 8 bits are rounded away *)
  assert (Hsh8 : sh <= 8).
  { unfold sh. destruct (Z.eq_dec p 0) as [->|Hp0]; [simpl; lia|].
    assert (Z.log2 p < 61); [|lia].
    apply Z.log2_lt_pow2; [lia|]. change (2 ^ 61) with (256 * 2 ^ 53). lia. }
  (* and the exponent stays negative *)
  assert (Hneg : sh < - expo r).
  { destruct (Z.eq_dec sh 0) as [->|Hsh]; [lia|].
    assert (Hlog : Z.log2 p = sh + 52) by (unfold sh in *; lia).
    assert (Hp : 0 < p) by (destruct (Z.eq_dec p 0) as [E|E]; [rewrite E in Hlog; simpl in Hlog|]; lia).
    pose proof (Z.log2_spec p Hp) as [Hlo _]. rewrite Hlog in Hlo.
    destruct (Z_lt_le_dec sh (- expo r)) as [|Hge]; [assumption|exfalso].
    assert (2 ^ (- expo r) <= 2 ^ sh) by (apply Z.pow_le_mono_r; lia).
    assert (2 ^ (sh + 52) = 2 ^ sh * 2 ^ 52) by (apply Z.pow_add_r; lia).
    assert (0 < 2 ^ sh) by (apply Z.pow_pos_nonneg; lia).
    assert (256 < 2 ^ 52) by reflexivity.
    unfold p in *. nia. }
  unfold Math_floor. rewrite Hexpo.
  replace (0 <=? expo r + sh) with false by (symmetry; apply Z.leb_gt; lia).
  set (E := 2 ^ (- (expo r + sh))).
  assert (HE : 0 < E) by (apply Z.pow_pos_nonneg; lia).
  assert (Hsplit : 2 ^ (- expo r) = E * 2 ^ sh).
  { unfold E. rewrite <- Z.pow_add_r by lia. f_equal. lia. }
  assert (HS : 0 < 2 ^ sh <= 256).
  { split; [apply Z.pow_pos_nonneg; lia|].
    change 256 with (2 ^ 8). apply Z.pow_le_mono_r; lia. }
  split.
  - apply Z.div_pos; lia.
  - assert (mant x / E < 255); [|lia].
    apply Z.div_lt_upper_bound; [assumption|].
    unfold p in *. nia.
Qed.

(** C9.  The token is the base64 text of the 30 bytes the loop stored, with
    each ['/'] (47) read as ['_'] (95) and each ['+'] (43) as ['-'] (45),
    position by position; so neither ['/'] nor ['+'] occurs in a token,
    whatever the random draws are. *)
Theorem makeID_is_url_safe_base64 random :
  let bytes := map (fun i => makeID_byte random i mod 256) (seq 0 30) in
  length bytes = 30%nat
  /\ makeID_buf random = bytes
  /\ makeID random
     = map (fun c => if c =? 47 then 95 else if c =? 43 then 45 else c) (base64 bytes)
  /\ ~ In 47 (makeID random)
  /\ ~ In 43 (makeID random).
Proof.
  intros bytes. split; [unfold bytes; now rewrite length_map, length_seq|].
  split; [apply makeID_buf_bytes|]. split; [|split].
  - unfold makeID, replace_all. rewrite makeID_buf_bytes, map_map. fold bytes.
    apply map_ext. intros c.
    destruct (Z.eqb_spec c 47) as [->|H47]; [reflexivity|].
    reflexivity.
  - unfold makeID. apply replace_all_keeps_out; [discriminate|].
    apply replace_all_not_In. discriminate.
  - unfold makeID. apply replace_all_not_In. discriminate.
Qed.

(** The rounded product is a nearest number of 53 bits: it keeps the
    integer when that has at most 53 bits, and otherwise drops the fewest
    low bits that leave 53, moving by at most half a unit of the last place
    kept. *)
Lemma round_double_spec p e :
  0 <= p ->
  let x := round_double p e in
  let sh := expo x - e in
  0 <= sh
  /\ (mant x = p / 2 ^ sh \/ mant x = p / 2 ^ sh + 1)
  /\ (p < 2 ^ 53 -> sh = 0 /\ mant x = p)
  /\ 2 * Z.abs (mant x * 2 ^ sh - p) <= 2 ^ sh
  /\ mant x <= 2 ^ 53
  /\ (sh = 0 \/ 2 ^ 52 <= mant x).
Proof.
  intros Hp x sh. unfold sh, x, round_double. cbn [mant expo].
  set (k := Z.max 0 (Z.log2 p + 1 - 53)).
  replace (e + k - e) with k by lia.
  assert (Hk : 0 <= k) by (unfold k; lia).
  assert (Hpow : 0 < 2 ^ k) by (apply Z.pow_pos_nonneg; lia).
  rewrite Z.shiftr_div_pow2 by assumption.
  pose proof (Z.div_mod p (2 ^ k) ltac:(lia)) as Hdm.
  pose proof (Z.mod_pos_bound p (2 ^ k) Hpow) as Hmod.
  assert (Hq : 0 <= p / 2 ^ k) by (apply Z.div_pos; lia).
  assert (Hbits : p / 2 ^ k < 2 ^ 53 /\ (k = 0 \/ 2 ^ 52 <= p / 2 ^ k)).
  { destruct (Z.eq_dec p 0) as [->|Hp0].
    - rewrite Z.div_0_l by lia. split; [reflexivity | left; reflexivity].
    - pose proof (Z.log2_spec p ltac:(lia)) as [Hlo Hhi].
      pose proof (Z.log2_nonneg p) as Hlog.
      split.
      + apply Z.div_lt_upper_bound; [assumption|].
        eapply Z.lt_le_trans; [exact Hhi|].
        rewrite <- Z.pow_add_r by lia. apply Z.pow_le_mono_r; unfold k; lia.
      + destruct (Z.eq_dec k 0) as [|Hk0]; [now left | right].
        apply Z.div_le_lower_bound; [assumption|].
        rewrite <- Z.pow_add_r by lia.
        replace (k + 52) with (Z.log2 p) by (unfold k in *; lia). exact Hlo. }
  destruct Hbits as [Hq53 Hq52].
  assert (Hexact : p < 2 ^ 53 -> k = 0).
  { intros Hsmall. destruct (Z.eq_dec p 0) as [->|Hp0]; [reflexivity|].
    assert (Z.log2 p < 53) by (apply Z.log2_lt_pow2; lia). unfold k. lia. }
  destruct (0 <? k) eqn:Epos; cbn [andb].
  - apply Z.ltb_lt in Epos.
    assert (Hhalf : 2 ^ k = 2 * 2 ^ (k - 1)).
    { rewrite <- Z.pow_succ_r by lia. f_equal. lia. }
    destruct ((2 ^ (k - 1) <? p mod 2 ^ k)
              || ((p mod 2 ^ k =? 2 ^ (k - 1)) && Z.odd (p / 2 ^ k))) eqn:Eup.
    + assert (Hrest : 2 ^ (k - 1) <= p mod 2 ^ k).
      { apply orb_true_iff in Eup as [H|H].
        - apply Z.ltb_lt in H. lia.
        - apply andb_true_iff in H as [H _]. apply Z.eqb_eq in H. lia. }
      split; [lia|]. split; [now right|]. split; [lia|]. split; [|split; [lia|]].
      * replace ((p / 2 ^ k + 1) * 2 ^ k - p) with (2 ^ k - p mod 2 ^ k) by lia. lia.
      * right. lia.
    + assert (Hrest : p mod 2 ^ k <= 2 ^ (k - 1)).
      { apply orb_false_iff in Eup as [H _]. apply Z.ltb_ge in H. exact H. }
      split; [lia|]. split; [now left|]. split; [lia|]. split; [|split; [lia|]].
      * replace (p / 2 ^ k * 2 ^ k - p) with (- (p mod 2 ^ k)) by lia. lia.
      * destruct Hq52; [lia | now right].
  - apply Z.ltb_ge in Epos. assert (k = 0) as Hk0 by lia.
    rewrite Hk0 in *. change (2 ^ 0) with 1 in *. rewrite Z.div_1_r in *.
    split; [lia|]. split; [now left|]. split; [lia|]. split; [lia|]. split; [lia|].
    now left.
Qed.

(** [Math.floor(r * 255)] against the floor of the exact product: the
    rounding can lift the product to the next integer, and no further. *)
Lemma floor_times_255_near r :
  in_unit_interval r ->
  floor_of_product r <= Math_floor (times_255 r) <= floor_of_product r + 1
  /\ (mant r * 255 < 2 ^ 53 -> Math_floor (times_255 r) = floor_of_product r).
Proof.
  intros ((Hm0 & Hm53) & He & Hm).
  unfold times_255, floor_of_product. rewrite (Z.mul_comm 255).
  pose proof (round_double_spec (mant r * 255) (expo r) ltac:(lia)) as H.
  cbv zeta in H. destruct H as (Hsh0 & Hcases & Hexact & Hnear & H53 & H52).
  set (x := round_double (mant r * 255) (expo r)) in *.
  set (p := mant r * 255) in *.
  set (sh := expo x - expo r) in *.
  assert (HpowS : 0 < 2 ^ sh) by (apply Z.pow_pos_nonneg; lia).
  assert (HpowE : 0 < 2 ^ (- expo r)) by (apply Z.pow_pos_nonneg; lia).
  assert (Hneg : sh < - expo r).
  { destruct H52 as [->|H52]; [lia|].
    destruct (Z_lt_le_dec sh (- expo r)) as [|Hge]; [assumption|exfalso].
    assert (2 ^ (- expo r) <= 2 ^ sh) by (apply Z.pow_le_mono_r; lia).
    assert (256 < 2 ^ 52) by reflexivity.
    unfold p in *. nia. }
  unfold Math_floor. replace (expo x) with (expo r + sh) by (unfold sh; lia).
  replace (0 <=? expo r + sh) with false by (symmetry; apply Z.leb_gt; lia).
  set (E := 2 ^ (- (expo r + sh))).
  assert (HE : 0 < E) by (apply Z.pow_pos_nonneg; lia).
  assert (Hsplit : 2 ^ (- expo r) = 2 ^ sh * E).
  { unfold E. rewrite <- Z.pow_add_r by lia. f_equal. lia. }
  rewrite Hsplit, <- Z.div_div by lia.
  set (q := p / 2 ^ sh) in *.
  assert (Hup : (q + 1) / E <= q / E + 1).
  { rewrite <- (Z.div_add q 1 E) by lia. apply Z.div_le_mono; lia. }
  assert (Hlo : q / E <= (q + 1) / E) by (apply Z.div_le_mono; lia).
  split.
  - destruct Hcases as [-> | ->]; lia.
  - intros Hsmall. destruct (Hexact Hsmall) as [Hz Hmant].
    rewrite Hmant. unfold q. rewrite Hz. change (2 ^ 0) with 1. now rewrite Z.div_1_r.
Qed.

(** C10 (as the code has it).  When every draw [r] of [Math.random()]
    satisfies [0 <= r < 1], each of the 30 bytes is [Math.floor] of the
    double [r * 255], the product rounded to 53 bits: it is the floor of
    the exact product or, when the rounding lifts the product to the next
    integer, one more; it is the floor itself whenever the product needs no
    rounding; and it is an integer from 0 to 254, never 255.  The token has
    exactly 40 characters, none of them the padding character ['='] (61). *)
Theorem makeID_bytes_and_length random :
  (forall i, (i < 30)%nat -> in_unit_interval (random i)) ->
  makeID_buf random = map (fun i => Math_floor (times_255 (random i))) (seq 0 30)
  /\ (forall i, (i < 30)%nat ->
        nth i (makeID_buf random) 0 = Math_floor (times_255 (random i))
        /\ floor_of_product (random i) <= nth i (makeID_buf random) 0
           <= floor_of_product (random i) + 1
        /\ (mant (random i) * 255 < 2 ^ 53 ->
            nth i (makeID_buf random) 0 = floor_of_product (random i))
        /\ expo (random i) <= expo (times_255 (random i))
        /\ 2 * Z.abs (mant (times_255 (random i))
                        * 2 ^ (expo (times_255 (random i)) - expo (random i))
                      - 255 * mant (random i))
           <= 2 ^ (expo (times_255 (random i)) - expo (random i))
        /\ mant (times_255 (random i)) <= 2 ^ 53
        /\ (expo (times_255 (random i)) = expo (random i)
            \/ 2 ^ 52 <= mant (times_255 (random i))))
  /\ Forall (fun b => 0 <= b <= 254) (makeID_buf random)
  /\ ~ In 255 (makeID_buf random)
  /\ length (makeID random) = 40%nat
  /\ ~ In 61 (makeID random).
Proof.
  intros Hdraws.
  assert (Hbytes : makeID_buf random
                   = map (fun i => Math_floor (times_255 (random i))) (seq 0 30)).
  { rewrite makeID_buf_bytes. apply map_ext_in. intros i Hi.
    apply in_seq in Hi. unfold makeID_byte. apply Z.mod_small.
    pose proof (floor_times_255_range (random i) (Hdraws i ltac:(lia))). lia. }
  assert (Hrange : Forall (fun b => 0 <= b <= 254) (makeID_buf random)).
  { rewrite Hbytes. apply Forall_forall. intros b Hb.
    apply in_map_iff in Hb as (i & <- & Hi). apply in_seq in Hi.
    apply floor_times_255_range, Hdraws. lia. }
  assert (Hlen : length (makeID_buf random) = 30%nat).
  { rewrite Hbytes. now rewrite length_map, length_seq. }
  split; [exact Hbytes|]. split; [|split; [exact Hrange|]; split; [|split]].
  - intros i Hi.
    assert (Hnth : nth i (makeID_buf random) 0 = Math_floor (times_255 (random i))).
    { rewrite Hbytes.
      rewrite (nth_indep _ 0 (Math_floor (times_255 (random 0%nat))))
        by (now rewrite length_map, length_seq).
      rewrite (map_nth (fun i => Math_floor (times_255 (random i))) (seq 0 30) 0%nat i).
      now rewrite seq_nth. }
    destruct (floor_times_255_near (random i) (Hdraws i Hi)) as [Hnear Hexact].
    destruct (Hdraws i Hi) as ((Hm0 & _) & _).
    pose proof (round_double_spec (mant (random i) * 255) (expo (random i)) ltac:(lia)) as H.
    cbv zeta in H. fold (times_255 (random i)) in H.
    destruct H as (Hsh & _ & _ & Hulp & H53 & H52).
    rewrite Hnth. split; [reflexivity|]. split; [exact Hnear|]. split; [exact Hexact|].
    split; [lia|]. split; [|split; [exact H53|]].
    + now rewrite (Z.mul_comm 255).
    + destruct H52 as [H52|H52]; [left; lia | now right].
  - intros H255. rewrite Forall_forall in Hrange. apply Hrange in H255. lia.
  - unfold makeID. now rewrite !length_replace_all, length_base64, Hlen.
  - unfold makeID. apply replace_all_keeps_out; [discriminate|].
    apply replace_all_keeps_out; [discriminate|].
    apply base64_no_pad. now rewrite Hlen.
Qed.

Lemma makeID_bytes_and_length_witness :
  makeID_buf (fun _ => mkDouble 1 (-1))
  = map (fun i => Math_floor (times_255 ((fun _ => mkDouble 1 (-1)) i))) (seq 0 30)
  /\ (forall i, (i < 30)%nat ->
        nth i (makeID_buf (fun _ => mkDouble 1 (-1))) 0
        = Math_floor (times_255 (mkDouble 1 (-1)))
        /\ floor_of_product (mkDouble 1 (-1))
           <= nth i (makeID_buf (fun _ => mkDouble 1 (-1))) 0
           <= floor_of_product (mkDouble 1 (-1)) + 1
        /\ (mant (mkDouble 1 (-1)) * 255 < 2 ^ 53 ->
            nth i (makeID_buf (fun _ => mkDouble 1 (-1))) 0
            = floor_of_product (mkDouble 1 (-1)))
        /\ expo (mkDouble 1 (-1)) <= expo (times_255 (mkDouble 1 (-1)))
        /\ 2 * Z.abs (mant (times_255 (mkDouble 1 (-1)))
                        * 2 ^ (expo (times_255 (mkDouble 1 (-1))) - expo (mkDouble 1 (-1)))
                      - 255 * mant (mkDouble 1 (-1)))
           <= 2 ^ (expo (times_255 (mkDouble 1 (-1))) - expo (mkDouble 1 (-1)))
        /\ mant (times_255 (mkDouble 1 (-1))) <= 2 ^ 53
        /\ (expo (times_255 (mkDouble 1 (-1))) = expo (mkDouble 1 (-1))
            \/ 2 ^ 52 <= mant (times_255 (mkDouble 1 (-1)))))
  /\ Forall (fun b => 0 <= b <= 254) (makeID_buf (fun _ => mkDouble 1 (-1)))
  /\ ~ In 255 (makeID_buf (fun _ => mkDouble 1 (-1)))
  /\ length (makeID (fun _ => mkDouble 1 (-1))) = 40%nat
  /\ ~ In 61 (makeID (fun _ => mkDouble 1 (-1))).
Proof.
  apply (makeID_bytes_and_length (fun _ => mkDouble 1 (-1))).
  intros i _. unfold in_unit_interval. simpl. lia.
Defined.

(** C10 fails as stated, read over the real numbers: for the draw
    [r = 4521260802379792 * 2 ^ -60], just below [1 / 255], the exact
    product [255 * r = 1 - 2 ^ -56] has floor 0, but the double [r * 255]
    is [1] and the byte stored is 1. *)
Lemma makeID_byte_above_floor_of_product :
  in_unit_interval (mkDouble 4521260802379792 (-60))
  /\ 255 * 4521260802379792 = 2 ^ 60 - 16
  /\ floor_of_product (mkDouble 4521260802379792 (-60)) = 0
  /\ times_255 (mkDouble 4521260802379792 (-60)) = mkDouble (2 ^ 53) (-53)
  /\ Math_floor (times_255 (mkDouble 4521260802379792 (-60))) = 1
  /\ nth 0 (makeID_buf (fun _ => mkDouble 4521260802379792 (-60))) 0 = 1.
Proof.
  split; [unfold in_unit_interval; cbn [mant expo]; repeat split; try lia; reflexivity|].
  repeat split; vm_compute; reflexivity.
Qed.

(** ** The broadcast record *)

Lemma length_fit chars room : (length (fit chars room) <= room)%nat.
Proof.
  revert room. induction chars as [|ch chars IH]; intros room; simpl; [lia|].
  destruct (Nat.leb_spec (length ch) room) as [Hle|Hgt]; simpl; [|lia].
  rewrite length_app. specialize (IH (room - length ch)%nat). lia.
Qed.

Lemma length_Buffer_write buf s offset :
  (Z.to_nat offset <= length buf)%nat ->
  length (Buffer_write buf s offset) = length buf.
Proof.
  intros Ho. unfold Buffer_write.
  pose proof (length_fit (utf8_chars s) (length buf - Z.to_nat offset)) as Hfit.
  rewrite !length_app, length_firstn, length_skipn. lia.
Qed.

Lemma length_Buffer_fill buf v : length (Buffer_fill buf v) = length buf.
Proof. apply length_map. Qed.

(** The record always has [27 + message.length] bytes. *)
Lemma length_sendMessage_buf message :
  length (sendMessage_buf message) = (27 + length message)%nat.
Proof.
  unfold sendMessage_buf.
  set (b3 := Buffer_set _ 2 64).
  assert (H3 : length b3 = (27 + length message)%nat).
  { unfold b3, Buffer_alloc.
    rewrite !length_Buffer_set, length_Buffer_fill, repeat_length. lia. }
  assert (H4 : length (Buffer_write b3 (js "Message from server") 6)
               = (27 + length message)%nat).
  { rewrite length_Buffer_write; [exact H3|]. rewrite H3. lia. }
  rewrite length_Buffer_write; [exact H4|]. rewrite H4. lia.
Qed.

Lemma utf8_chars_ascii s :
  Forall (fun c => 0 <= c < 128) s -> utf8_chars s = map (fun c => [c]) s.
Proof.
  induction 1 as [|c s Hc Hs IH]; simpl; [reflexivity|].
  replace (c <? 128) with true by (symmetry; apply Z.ltb_lt; lia).
  now rewrite IH.
Qed.

Lemma fit_singletons (s : list Z) room :
  (length s <= room)%nat -> fit (map (fun c => [c]) s) room = s.
Proof.
  revert room. induction s as [|c s IH]; intros room Hlen; simpl; [reflexivity|].
  simpl in Hlen. destruct room as [|room]; [lia|]. simpl.
  rewrite Nat.sub_0_r, IH by lia. reflexivity.
Qed.

(** Writing ASCII text that fits copies it, one byte per character. *)
Lemma Buffer_write_ascii buf s (o : nat) :
  Forall (fun c => 0 <= c < 128) s ->
  (o + length s <= length buf)%nat ->
  Buffer_write buf s (Z.of_nat o) = firstn o buf ++ s ++ skipn (o + length s) buf.
Proof.
  intros Hs Hfit. unfold Buffer_write. rewrite Nat2Z.id.
  rewrite utf8_chars_ascii, fit_singletons by (assumption || lia). reflexivity.
Qed.

Lemma Buffer_set_app l1 l2 i v :
  0 <= i < Z.of_nat (length l1) ->
  Buffer_set (l1 ++ l2) i v = Buffer_set l1 i v ++ l2.
Proof.
  intros Hi. unfold Buffer_set. rewrite length_app.
  replace ((0 <=? i) && (i <? Z.of_nat (length l1 + length l2))) with true
    by (symmetry; apply andb_true_iff; split; [apply Z.leb_le | apply Z.ltb_lt]; lia).
  replace ((0 <=? i) && (i <? Z.of_nat (length l1))) with true
    by (symmetry; apply andb_true_iff; split; [apply Z.leb_le | apply Z.ltb_lt]; lia).
  rewrite firstn_app, skipn_app.
  replace (Z.to_nat i - length l1)%nat with 0%nat by lia.
  replace (Z.to_nat (i + 1) - length l1)%nat with 0%nat by lia.
  cbn [firstn skipn]. now rewrite app_nil_r, <- !app_assoc.
Qed.

(** Writing at the end of a prefix [head] of the buffer: the characters
    that fit in the rest are written right after [head]. *)
Lemma Buffer_write_after head rest s :
  Buffer_write (head ++ rest) s (Z.of_nat (length head))
  = head ++ fit (utf8_chars s) (length rest)
      ++ skipn (length (fit (utf8_chars s) (length rest))) rest.
Proof.
  unfold Buffer_write. rewrite Nat2Z.id, length_app.
  replace (length head + length rest - length head)%nat with (length rest) by lia.
  set (bytes := fit (utf8_chars s) (length rest)).
  rewrite firstn_app, firstn_all, Nat.sub_diag, firstn_O, app_nil_r.
  rewrite skipn_app, skipn_all2 by lia.
  replace (length head + length bytes - length head)%nat with (length bytes) by lia.
  reflexivity.
Qed.

(** The record before the text is written: header, label, and zeros. *)
Lemma sendMessage_buf_header (n : nat) :
  Buffer_write
    (Buffer_set (Buffer_set (Buffer_fill (Buffer_alloc (27 + Z.of_nat n)) 0) 0 5) 2 0x40)
    (js "Message from server") 6
  = ([5; 0; 0x40; 0; 0; 0] ++ js "Message from server" ++ [0]) ++ repeat 0 (n + 1).
Proof.
  unfold Buffer_alloc.
  replace (Z.to_nat (27 + Z.of_nat n)) with (27 + n)%nat by lia.
  rewrite repeat_app. unfold Buffer_fill. rewrite map_app, !map_repeat.
  change (0 mod 256) with 0.
  rewrite Buffer_set_app by (simpl; lia).
  rewrite Buffer_set_app by (rewrite length_Buffer_set; simpl; lia).
  change (Buffer_set (Buffer_set (repeat 0 27) 0 5) 2 64)
    with ([5; 0; 64] ++ repeat 0 24).
  change 6 with (Z.of_nat 6).
  rewrite Buffer_write_ascii.
  2:{ vm_compute. repeat constructor; discriminate. }
  2:{ rewrite length_app. simpl. lia. }
  replace (n + 1)%nat with (S n) by lia. reflexivity.
Qed.

(** The layout of the record for every text: the tag 5, a zero, the subtype
    0x40, three zeros, the label at bytes 6 to 24, a zero, then from byte 26
    the UTF-8 bytes of the characters that fit in [message.length + 1]
    bytes, and zeros to the end. *)
Lemma sendMessage_buf_layout message :
  sendMessage_buf message
  = [5; 0; 0x40; 0; 0; 0] ++ js "Message from server" ++ [0]
      ++ fit (utf8_chars message) (length message + 1)
      ++ repeat 0 (length message + 1
                   - length (fit (utf8_chars message) (length message + 1))).
Proof.
  unfold sendMessage_buf. cbv zeta. rewrite sendMessage_buf_header.
  set (head := [5; 0; 0x40; 0; 0; 0] ++ js "Message from server" ++ [0]).
  change 26 with (Z.of_nat (length head)).
  rewrite Buffer_write_after, repeat_length, skipn_repeat.
  unfold head. now rewrite <- !app_assoc.
Qed.

(** On ASCII text the record holds the whole text, one byte per character,
    and a final zero, and its length is [27 + byteLength(message)]. *)
Lemma sendMessage_buf_ascii message :
  Forall (fun c => 0 <= c < 128) message ->
  sendMessage_buf message
  = [5; 0; 0x40; 0; 0; 0] ++ js "Message from server" ++ [0] ++ message ++ [0]
  /\ Z.of_nat (length (sendMessage_buf message)) = 27 + byteLength message.
Proof.
  intros Hascii. split.
  - rewrite sendMessage_buf_layout, utf8_chars_ascii, fit_singletons by (assumption || lia).
    replace (length message + 1 - length message)%nat with 1%nat by lia.
    reflexivity.
  - rewrite length_sendMessage_buf. unfold byteLength.
    rewrite utf8_chars_ascii by assumption.
    replace (length (concat (map (fun c => [c]) message))) with (length message); [lia|].
    clear. induction message as [|c s IH]; simpl; congruence.
Qed.

(** C7 fails beyond ASCII.  For the two-character text "éé"
    ([message.length] is 2, [byteLength] is 4) the record has 29 bytes and
    not [27 + 4 = 31]: only the first character (bytes 195, 169) is written
    at byte 26, the second does not fit and is dropped. *)
Theorem sendMessage_buf_non_ascii :
  Z.of_nat (length [233; 233]) = 2
  /\ byteLength [233; 233] = 4
  /\ sendMessage_buf [233; 233]
     = [5; 0; 0x40; 0; 0; 0] ++ js "Message from server" ++ [0; 195; 169; 0]
  /\ Z.of_nat (length (sendMessage_buf [233; 233])) = 29.
Proof. repeat split. Qed.

(** ** Hexadecimal fields *)

Lemma hexdigit_spec d :
  0 <= d < 16 -> is_hex_digit (hexdigit d) = true /\ hex_digit_value (hexdigit d) = d.
Proof.
  intros Hd. replace d with (Z.of_nat (Z.to_nat d)) by lia.
  assert (Hn : (Z.to_nat d < 16)%nat) by lia.
  generalize dependent (Z.to_nat d). clear d Hd. intros n Hn.
  do 16 (destruct n as [|n]; [split; reflexivity|]). lia.
Qed.

Lemma hex_value_snoc s c : hex_value (s ++ [c]) = 16 * hex_value s + hex_digit_value c.
Proof. unfold hex_value. now rewrite fold_left_app. Qed.

Lemma hex_value_zeros k s : hex_value (repeat 48 k ++ s) = hex_value s.
Proof.
  unfold hex_value. rewrite fold_left_app. f_equal.
  induction k as [|k IH]; simpl; [reflexivity|]. exact IH.
Qed.

Lemma toString16_loop_S fuel n acc :
  toString16_loop (S fuel) n acc
  = if n / 16 =? 0 then hexdigit (n mod 16) :: acc
    else toString16_loop fuel (n / 16) (hexdigit (n mod 16) :: acc).
Proof. reflexivity. Qed.

(** The digit loop writes the digits of [n] in front of [acc], most
    significant first: at most [k] of them when [n < 16 ^ k]. *)
Lemma toString16_loop_spec fuel :
  forall n acc (k : nat),
    0 <= n < 16 ^ Z.of_nat (S fuel) -> (1 <= k)%nat -> n < 16 ^ Z.of_nat k ->
    exists ds,
      toString16_loop (S fuel) n acc = ds ++ acc
      /\ Forall (fun c => is_hex_digit c = true) ds
      /\ hex_value ds = n
      /\ (1 <= length ds <= k)%nat.
Proof.
  assert (Hlast : forall n, 0 <= n -> n / 16 = 0 ->
            Forall (fun c => is_hex_digit c = true) [hexdigit (n mod 16)]
            /\ hex_value [hexdigit (n mod 16)] = n).
  { intros n Hn Hq.
    assert (Hsmall : 0 <= n < 16).
    { pose proof (Z.div_mod n 16 ltac:(lia)). pose proof (Z.mod_pos_bound n 16 ltac:(lia)). lia. }
    rewrite Z.mod_small by assumption.
    destruct (hexdigit_spec n Hsmall) as [Hd Hv].
    split; [now repeat constructor|]. unfold hex_value. simpl. lia. }
  induction fuel as [|fuel IH]; intros n acc k Hn Hk Hnk.
  - assert (Hq : n / 16 = 0) by (apply Z.div_small; change (16 ^ Z.of_nat 1) with 16 in Hn; lia).
    destruct (Hlast n ltac:(lia) Hq) as [Hd Hv].
    exists [hexdigit (n mod 16)]. simpl. rewrite Hq. simpl.
    repeat split; auto; simpl; lia.
  - rewrite toString16_loop_S. destruct (Z.eqb_spec (n / 16) 0) as [Hq|Hq].
    + destruct (Hlast n ltac:(lia) Hq) as [Hd Hv].
      exists [hexdigit (n mod 16)]. repeat split; auto; simpl; lia.
    + assert (Hn16 : 16 <= n).
      { destruct (Z_lt_le_dec n 16); [|assumption].
        exfalso. apply Hq, Z.div_small. lia. }
      assert (Hk2 : (2 <= k)%nat).
      { destruct k as [|[|k]];
          [lia | change (16 ^ Z.of_nat 1) with 16 in Hnk; lia | lia]. }
      assert (Hdiv : forall j : nat, n < 16 ^ Z.of_nat (S j) -> n / 16 < 16 ^ Z.of_nat j).
      { intros j Hj. apply Z.div_lt_upper_bound; [lia|].
        rewrite Nat2Z.inj_succ, Z.pow_succ_r in Hj by lia. exact Hj. }
      destruct (IH (n / 16) (hexdigit (n mod 16) :: acc) (k - 1)%nat)
        as (ds & Hrun & Hds & Hval & Hlen).
      * split; [apply Z.div_pos; lia | apply Hdiv; lia].
      * lia.
      * apply Hdiv. replace (S (k - 1)) with k by lia. exact Hnk.
      * exists (ds ++ [hexdigit (n mod 16)]).
        pose proof (Z.mod_pos_bound n 16 ltac:(lia)) as Hmod.
        destruct (hexdigit_spec (n mod 16) Hmod) as [Hd Hv].
        split; [now rewrite Hrun, <- app_assoc|]. split; [|split].
        -- apply Forall_app. split; [assumption | now repeat constructor].
        -- rewrite hex_value_snoc, Hval, Hv.
           pose proof (Z.div_mod n 16 ltac:(lia)). lia.
        -- rewrite length_app. simpl. lia.
Qed.

Lemma toString16_spec n (k : nat) :
  0 <= n < 16 ^ Z.of_nat k -> (1 <= k)%nat ->
  Forall (fun c => is_hex_digit c = true) (toString16 n)
  /\ hex_value (toString16 n) = n
  /\ (1 <= length (toString16 n) <= k)%nat.
Proof.
  intros Hn Hk. unfold toString16.
  destruct (toString16_loop_spec (Z.to_nat (Z.log2 n)) n [] k) as (ds & Hrun & H);
    try lia.
  - split; [lia|]. rewrite Nat2Z.inj_succ, Z2Nat.id by apply Z.log2_nonneg.
    destruct (Z.eq_dec n 0) as [->|Hn0]; [reflexivity|].
    pose proof (Z.log2_spec n ltac:(lia)) as [_ Hlt].
    eapply Z.lt_le_trans; [exact Hlt|].
    apply Z.pow_le_mono_l. lia.
  - now rewrite Hrun, app_nil_r.
Qed.

(** [("0...0" + h).slice(-k)] with [k - 1] zeros pads a digit string of at
    most [k] characters to exactly [k]. *)
Lemma slice_padded (k : nat) h :
  (1 <= length h <= k)%nat ->
  slice (repeat 48 (k - 1) ++ h) (- Z.of_nat k) = repeat 48 (k - length h) ++ h.
Proof.
  intros Hlen. unfold slice.
  replace (- Z.of_nat k <? 0) with true by (symmetry; apply Z.ltb_lt; lia).
  rewrite length_app, repeat_length.
  replace (Z.to_nat (Z.max (Z.of_nat (k - 1 + length h) + - Z.of_nat k) 0))
    with (length h - 1)%nat by lia.
  rewrite skipn_app, repeat_length, skipn_repeat.
  replace (length h - 1 - (k - 1))%nat with 0%nat by lia.
  cbn [skipn]. f_equal. f_equal. lia.
Qed.

(** A padded field: [k] lower-case hexadecimal digits that denote [n]. *)
Lemma padded_field (k : nat) n :
  (1 <= k)%nat -> 0 <= n < 16 ^ Z.of_nat k ->
  let field := slice (repeat 48 (k - 1) ++ toString16 n) (- Z.of_nat k) in
  length field = k
  /\ Forall (fun c => is_hex_digit c = true) field
  /\ hex_value field = n.
Proof.
  intros Hk Hn field.
  destruct (toString16_spec n k Hn Hk) as (Hhex & Hval & Hlen).
  unfold field. rewrite slice_padded by assumption.
  split; [|split].
  - rewrite length_app, repeat_length. lia.
  - apply Forall_app. split; [|assumption].
    apply Forall_forall. intros c Hc. apply repeat_spec in Hc. now subst c.
  - now rewrite hex_value_zeros.
Qed.

(** The value of a digit string, part by part. *)
Lemma hex_value_app a b :
  hex_value (a ++ b) = hex_value a * 16 ^ Z.of_nat (length b) + hex_value b.
Proof.
  induction b as [|c b IH] using rev_ind.
  - rewrite app_nil_r. unfold hex_value at 3. simpl. lia.
  - rewrite app_assoc, !hex_value_snoc, IH, length_app.
    cbn [length]. rewrite Nat.add_1_r, Nat2Z.inj_succ, Z.pow_succ_r by lia. lia.
Qed.

Lemma hex_digit_value_range c : is_hex_digit c = true -> 0 <= hex_digit_value c < 16.
Proof.
  unfold is_hex_digit, hex_digit_value. intros H.
  apply orb_true_iff in H as [H|H]; apply andb_true_iff in H as [H1 H2];
    apply Z.leb_le in H1, H2; destruct (Z.leb_spec c 57); lia.
Qed.

Lemma hex_value_range s :
  Forall (fun c => is_hex_digit c = true) s ->
  0 <= hex_value s < 16 ^ Z.of_nat (length s).
Proof.
  induction s as [|c s IH] using rev_ind; intros Hs.
  - unfold hex_value. simpl. lia.
  - apply Forall_app in Hs as [Hs Hc]. inversion Hc as [|? ? Hc' _]; subst.
    specialize (IH Hs). apply hex_digit_value_range in Hc'.
    rewrite hex_value_snoc, length_app. cbn [length].
    rewrite Nat.add_1_r, Nat2Z.inj_succ, Z.pow_succ_r by lia. lia.
Qed.

(** The last [k] digits of a digit string denote its value modulo [16 ^ k]. *)
Lemma hex_value_last_digits (k : nat) s :
  Forall (fun c => is_hex_digit c = true) s -> (k <= length s)%nat ->
  hex_value (skipn (length s - k) s) = hex_value s mod 16 ^ Z.of_nat k.
Proof.
  intros Hs Hk.
  assert (Hlen : length (skipn (length s - k) s) = k) by (rewrite length_skipn; lia).
  assert (Hlow : Forall (fun c => is_hex_digit c = true) (skipn (length s - k) s)).
  { apply Forall_forall. intros c Hc. rewrite Forall_forall in Hs.
    apply Hs. rewrite <- (firstn_skipn (length s - k) s). apply in_or_app. now right. }
  apply hex_value_range in Hlow. rewrite Hlen in Hlow.
  replace (hex_value s)
    with (hex_value (firstn (length s - k) s ++ skipn (length s - k) s))
    by now rewrite firstn_skipn.
  rewrite hex_value_app, Hlen, Z.add_comm, Z.mod_add by lia.
  symmetry. now apply Z.mod_small.
Qed.

(** [s.slice(-k)] of a string of at least [k] characters is its last [k]. *)
Lemma slice_last (A : Type) (k : nat) (s : list A) :
  (1 <= k <= length s)%nat -> slice s (- Z.of_nat k) = skipn (length s - k) s.
Proof.
  intros Hk. unfold slice.
  replace (- Z.of_nat k <? 0) with true by (symmetry; apply Z.ltb_lt; lia).
  f_equal. lia.
Qed.

(** A padded field of any number: [k] lower-case hexadecimal digits that
    denote [n] modulo [16 ^ k]; a longer digit string loses its front. *)
Lemma padded_field_wraps (k : nat) n :
  (1 <= k)%nat -> 0 <= n ->
  let field := slice (repeat 48 (k - 1) ++ toString16 n) (- Z.of_nat k) in
  length field = k
  /\ Forall (fun c => is_hex_digit c = true) field
  /\ hex_value field = n mod 16 ^ Z.of_nat k.
Proof.
  intros Hk Hn field.
  destruct (toString16_spec n (S (Z.to_nat (Z.log2 n)))) as (Hhex & Hval & Hlen); [|lia|].
  { split; [assumption|].
    rewrite Nat2Z.inj_succ, Z2Nat.id by apply Z.log2_nonneg.
    destruct (Z.eq_dec n 0) as [->|Hn0]; [reflexivity|].
    pose proof (Z.log2_spec n ltac:(lia)) as [_ Hlt].
    eapply Z.lt_le_trans; [exact Hlt|]. apply Z.pow_le_mono_l. lia. }
  set (padded := repeat 48 (k - 1) ++ toString16 n) in *.
  assert (Hpad : Forall (fun c => is_hex_digit c = true) padded).
  { apply Forall_app. split; [|assumption].
    apply Forall_forall. intros c Hc. apply repeat_spec in Hc. now subst c. }
  assert (Hplen : (k <= length padded)%nat).
  { unfold padded. rewrite length_app, repeat_length. lia. }
  unfold field. rewrite slice_last by lia. split; [|split].
  - rewrite length_skipn. lia.
  - apply Forall_forall. intros c Hc. rewrite Forall_forall in Hpad.
    apply Hpad. rewrite <- (firstn_skipn (length padded - k) padded).
    apply in_or_app. now right.
  - rewrite hex_value_last_digits by assumption.
    unfold padded. now rewrite hex_value_zeros, Hval.
Qed.

(** ** CRC-32: the table-driven code against the bitwise definition *)

Lemma mod_pow2_lxor a b n :
  0 <= n -> Z.lxor a b mod 2 ^ n = Z.lxor (a mod 2 ^ n) (b mod 2 ^ n).
Proof.
  intros Hn. apply Z.bits_inj'. intros i Hi.
  rewrite Z.lxor_spec. destruct (Z_lt_le_dec i n) as [Hlt|Hge].
  - now rewrite !Z.mod_pow2_bits_low, Z.lxor_spec by lia.
  - now rewrite !Z.mod_pow2_bits_high by lia.
Qed.

Lemma ToUint32_range x : 0 <= ToUint32 x < 2 ^ 32.
Proof. unfold ToUint32. apply Z.mod_pos_bound. reflexivity. Qed.

Lemma ToUint32_ToInt32 x : ToUint32 (ToInt32 x) = ToUint32 x.
Proof.
  unfold ToUint32, ToInt32. rewrite Zminus_mod_idemp_l. f_equal. lia.
Qed.

Lemma ToUint32_js_xor a b :
  ToUint32 (js_xor a b) = Z.lxor (ToUint32 a) (ToUint32 b).
Proof.
  unfold js_xor. rewrite ToUint32_ToInt32. unfold ToUint32.
  rewrite mod_pow2_lxor by lia. fold (ToUint32 (ToInt32 a)) (ToUint32 (ToInt32 b)).
  now rewrite !ToUint32_ToInt32.
Qed.

Lemma ToUint32_js_ushr a k : ToUint32 (js_ushr a k) = js_ushr a k.
Proof.
  unfold js_ushr. pose proof (ToUint32_range a) as Ha.
  pose proof (Z.mod_pos_bound k 32 ltac:(lia)) as Hk.
  unfold ToUint32 at 1. apply Z.mod_small.
  rewrite Z.shiftr_div_pow2 by lia. split.
  - apply Z.div_pos; [lia | apply Z.pow_pos_nonneg; lia].
  - apply Z.div_lt_upper_bound; [apply Z.pow_pos_nonneg; lia|].
    assert (0 < 2 ^ (k mod 32)) by (apply Z.pow_pos_nonneg; lia). nia.
Qed.

Lemma mod_256_ToInt32 x : ToInt32 x mod 256 = x mod 256.
Proof.
  assert (Hdiv : (256 | 2 ^ 32)) by (exists (2 ^ 24); reflexivity).
  rewrite <- (Z.mod_mod_divide (ToInt32 x) (2 ^ 32) 256 Hdiv).
  fold (ToUint32 (ToInt32 x)). rewrite ToUint32_ToInt32. unfold ToUint32.
  now apply Z.mod_mod_divide.
Qed.

Lemma ToInt32_small x : 0 <= x < 2 ^ 31 -> ToInt32 x = x.
Proof. intros Hx. unfold ToInt32. rewrite Z.mod_small; lia. Qed.

(** [(a ^ b) & 0xFF] is the low byte of the exclusive or. *)
Lemma js_and_js_xor_255 a b :
  js_and (js_xor a b) 0xFF = Z.lxor (a mod 256) (b mod 256)
  /\ 0 <= Z.lxor (a mod 256) (b mod 256) < 256.
Proof.
  assert (Hrange : 0 <= Z.lxor (a mod 256) (b mod 256) < 256).
  { change 256 with (2 ^ 8). rewrite <- mod_pow2_lxor by lia.
    apply Z.mod_pos_bound. reflexivity. }
  split; [|exact Hrange].
  unfold js_and. rewrite (ToInt32_small 255) by (split; [lia | reflexivity]).
  change 255 with (Z.ones 8). rewrite Z.land_ones by lia. change (2 ^ 8) with 256.
  rewrite mod_256_ToInt32. unfold js_xor. rewrite mod_256_ToInt32.
  change 256 with (2 ^ 8). rewrite mod_pow2_lxor by lia. change (2 ^ 8) with 256.
  rewrite !mod_256_ToInt32.
  apply ToInt32_small. split; [lia|].
  eapply Z.lt_trans; [apply Hrange | reflexivity].
Qed.

(** One shift step is linear over exclusive or. *)
Lemma crc_shift_lxor a b :
  crc_shift (Z.lxor a b) = Z.lxor (crc_shift a) (crc_shift b).
Proof.
  unfold crc_shift. rewrite <- !Z.bit0_odd, Z.lxor_spec, Z.shiftr_lxor.
  set (P := 3988292384).
  destruct (Z.testbit a 0), (Z.testbit b 0); cbn [xorb];
    apply Z.bits_inj'; intros i Hi; rewrite ?Z.lxor_spec;
    destruct (Z.testbit (Z.shiftr a 1) i), (Z.testbit (Z.shiftr b 1) i),
             (Z.testbit P i); reflexivity.
Qed.

Lemma iter_crc_shift_lxor n a b :
  Nat.iter n crc_shift (Z.lxor a b)
  = Z.lxor (Nat.iter n crc_shift a) (Nat.iter n crc_shift b).
Proof.
  induction n as [|n IH]; simpl; [reflexivity|].
  now rewrite IH, crc_shift_lxor.
Qed.

(** Shifting a value that has [k] low zero bits [k] times meets no set bit. *)
Lemma iter_crc_shift_shiftl h (k : nat) :
  forall j, 0 <= j ->
    Nat.iter k crc_shift (Z.shiftl h (j + Z.of_nat k)) = Z.shiftl h j.
Proof.
  induction k as [|k IH]; intros j Hj.
  - simpl. now rewrite Z.add_0_r.
  - rewrite Nat.iter_succ.
    replace (j + Z.of_nat (S k)) with ((j + 1) + Z.of_nat k) by lia.
    rewrite IH by lia. unfold crc_shift.
    replace (Z.odd (Z.shiftl h (j + 1))) with false.
    + rewrite Z.shiftr_shiftl_l by lia. f_equal. lia.
    + symmetry. rewrite <- Z.bit0_odd. apply Z.shiftl_spec_low. lia.
Qed.

Lemma split_low_byte x :
  x = Z.lxor (Z.shiftl (Z.shiftr x 8) 8) (x mod 256).
Proof.
  apply Z.bits_inj'. intros i Hi. rewrite Z.lxor_spec. change 256 with (2 ^ 8).
  destruct (Z_lt_le_dec i 8) as [Hlt|Hge].
  - rewrite Z.shiftl_spec_low, Z.mod_pow2_bits_low by lia. reflexivity.
  - rewrite Z.shiftl_spec, Z.shiftr_spec, Z.mod_pow2_bits_high by lia.
    rewrite xorb_false_r. f_equal. lia.
Qed.

(** Eight shift steps: the high part moves down, the low byte decides what
    is folded in.  This is what the 256-entry table precomputes. *)
Lemma iter_8_crc_shift x :
  Nat.iter 8 crc_shift x
  = Z.lxor (Z.shiftr x 8) (Nat.iter 8 crc_shift (x mod 256)).
Proof.
  rewrite (split_low_byte x) at 1. rewrite iter_crc_shift_lxor. f_equal.
  change (Z.shiftl (Z.shiftr x 8) 8)
    with (Z.shiftl (Z.shiftr x 8) (0 + Z.of_nat 8)).
  rewrite iter_crc_shift_shiftl by lia. apply Z.shiftl_0_r.
Qed.

(** The table [makeCRCTable] builds holds, as unsigned values, the eight
    shift steps of each byte. *)
Lemma makeCRCTable_entries i :
  0 <= i < 256 ->
  ToUint32 (nth (Z.to_nat i) makeCRCTable 0) = Nat.iter 8 crc_shift i.
Proof.
  intros Hi.
  assert (Hall : forallb (fun n => ToUint32 (nth n makeCRCTable 0)
                                   =? Nat.iter 8 crc_shift (Z.of_nat n))
                         (seq 0 256) = true) by (vm_compute; reflexivity).
  rewrite forallb_forall in Hall.
  specialize (Hall (Z.to_nat i)). rewrite Z2Nat.id in Hall by lia.
  apply Z.eqb_eq, Hall, in_seq. lia.
Qed.

(** One byte: the table step of the code and the bitwise update agree. *)
Lemma crc_table_step crc ch :
  ToUint32 (js_xor (js_ushr crc 8)
                   (nth (Z.to_nat (js_and (js_xor crc ch) 0xFF)) makeCRCTable 0))
  = crc_update (ToUint32 crc) ch.
Proof.
  destruct (js_and_js_xor_255 crc ch) as [Hidx Hrange].
  rewrite ToUint32_js_xor, ToUint32_js_ushr, Hidx, makeCRCTable_entries by assumption.
  unfold crc_update.
  rewrite (iter_8_crc_shift (Z.lxor (ToUint32 crc) (ch mod 256))).
  pose proof (Z.mod_pos_bound ch 256 ltac:(lia)) as Hch.
  f_equal.
  - unfold js_ushr. change (8 mod 32) with 8. rewrite Z.shiftr_lxor.
    replace (Z.shiftr (ch mod 256) 8) with 0; [now rewrite Z.lxor_0_r|].
    rewrite Z.shiftr_div_pow2 by lia. symmetry. apply Z.div_small.
    change (2 ^ 8) with 256. lia.
  - f_equal. change 256 with (2 ^ 8). rewrite (mod_pow2_lxor _ _ 8) by lia.
    change (2 ^ 8) with 256. rewrite Z.mod_mod by lia. f_equal.
    unfold ToUint32. symmetry. apply Z.mod_mod_divide. exists (2 ^ 24). reflexivity.
Qed.

(** The code's [crc32] computes the reflected CRC-32 of polynomial
    0xEDB88320 over the low bytes of the characters. *)
Lemma crc32_correct str : crc32 str = crc32_reference str.
Proof.
  unfold crc32, crc32_with, crc32_reference.
  assert (Hfold : forall crc,
             ToUint32 (fold_left
                         (fun crc ch =>
                            js_xor (js_ushr crc 8)
                                   (nth (Z.to_nat (js_and (js_xor crc ch) 0xFF))
                                        makeCRCTable 0))
                         str crc)
             = fold_left crc_update str (ToUint32 crc)).
  { induction str as [|ch str IH]; intros crc; cbn [fold_left]; [reflexivity|].
    rewrite IH, crc_table_step. reflexivity. }
  unfold js_ushr at 1. change (0 mod 32) with 0. rewrite Z.shiftr_0_r.
  rewrite ToUint32_js_xor, Hfold. reflexivity.
Qed.

Lemma crc32_range str : 0 <= crc32 str < 16 ^ Z.of_nat 8.
Proof.
  unfold crc32, crc32_with, js_ushr. change (0 mod 32) with 0.
  rewrite Z.shiftr_0_r. apply ToUint32_range.
Qed.

(** The check value of the CRC-32 catalogue, for the text "123456789". *)
Example crc32_check_value : crc32 (js "123456789") = 0xCBF43926.
Proof. vm_compute. reflexivity. Qed.

(** ** The broadcast envelopes *)

Lemma sendMessage_per_session message st :
  sendMessage message st
  = flat_map
      (fun x =>
         flat_map (fun s => [Send s (sendMessage_packet message);
                             Send s (sendMessage_bpacket message)])
                  (membersOf st x))
      (allSessionIds st).
Proof.
  unfold sendMessage, allSessionIds, membersOf. apply flat_map_ext. intros x.
  now destruct (obj_get (connectionPools st) x).
Qed.

Lemma flat_map_split (A B : Type) (f : A -> list B) l x :
  In x l -> exists before after, flat_map f l = before ++ f x ++ after.
Proof.
  intros Hx. apply in_split in Hx as (l1 & l2 & ->).
  exists (flat_map f l1), (flat_map f l2). now rewrite flat_map_app.
Qed.

(** C2 (as the code has it).  For every text the two envelopes are
    ["!CPC"], a field of four lower-case hexadecimal digits, the base64 text
    of the record, a field of eight lower-case hexadecimal digits and a line
    feed.  The four digits denote the length of the base64 text modulo
    65536 = 0x10000: the exact length when the base64 text has fewer than
    65536 characters, which is when the text has at most 49122 code units,
    and only its last four hexadecimal digits, never the length itself,
    when it has more.  The eight digits denote the CRC-32 of
    the base64 text in the first envelope and the CRC-32 of the record's
    bytes in the second.  The first and then the second envelope are sent to
    each member of each registered session, session after session and member
    after member, and nothing is sent when no session is registered. *)
Theorem sendMessage_envelopes message st :
  exists lenField crcText crcRaw,
    sendMessage_packet message
    = js "!CPC" ++ lenField ++ base64 (sendMessage_buf message) ++ crcText ++ [10]
    /\ sendMessage_bpacket message
       = js "!CPC" ++ lenField ++ base64 (sendMessage_buf message) ++ crcRaw ++ [10]
    /\ (length lenField = 4%nat
        /\ Forall (fun c => is_hex_digit c = true) lenField
        /\ hex_value lenField
           = Z.of_nat (length (base64 (sendMessage_buf message))) mod 65536
        /\ (Z.of_nat (length (base64 (sendMessage_buf message))) < 65536 ->
            hex_value lenField = Z.of_nat (length (base64 (sendMessage_buf message))))
        /\ (65536 <= Z.of_nat (length (base64 (sendMessage_buf message))) ->
            hex_value lenField < Z.of_nat (length (base64 (sendMessage_buf message))))
        /\ (Z.of_nat (length (base64 (sendMessage_buf message))) < 65536
            <-> Z.of_nat (length message) <= 49122))
    /\ (length crcText = 8%nat
        /\ Forall (fun c => is_hex_digit c = true) crcText
        /\ hex_value crcText = crc32_reference (base64 (sendMessage_buf message)))
    /\ (length crcRaw = 8%nat
        /\ Forall (fun c => is_hex_digit c = true) crcRaw
        /\ hex_value crcRaw = crc32_reference (sendMessage_buf message))
    /\ sendMessage message st
       = flat_map
           (fun x =>
              flat_map (fun s => [Send s (sendMessage_packet message);
                                  Send s (sendMessage_bpacket message)])
                       (membersOf st x))
           (allSessionIds st)
    /\ (forall x s,
          In x (allSessionIds st) -> In s (membersOf st x) ->
          exists before after,
            sendMessage message st
            = before ++ Send s (sendMessage_packet message)
                :: Send s (sendMessage_bpacket message) :: after)
    /\ (allSessionIds st = [] -> sendMessage message st = []).
Proof.
  set (buf := sendMessage_buf message) in *. set (b64 := base64 buf) in *.
  exists (slice (js "000" ++ toString16 (Z.of_nat (length b64))) (-4)),
         (slice (js "0000000" ++ toString16 (crc32 b64)) (-8)),
         (slice (js "0000000" ++ toString16 (crc32 (binary buf))) (-8)).
  split; [reflexivity|]. split; [reflexivity|].
  split; [|split; [|split]].
  - destruct (padded_field_wraps 4 (Z.of_nat (length b64))) as (Hlen & Hhex & Hval);
      [lia | lia |].
    change (16 ^ Z.of_nat 4) with 65536 in Hval.
    change (repeat 48 (4 - 1)) with (js "000") in Hlen, Hhex, Hval.
    change (- Z.of_nat 4) with (-4) in Hlen, Hhex, Hval.
    split; [exact Hlen|]. split; [exact Hhex|]. split; [exact Hval|].
    rewrite Hval. split; [|split]; try intros Hsize.
    + apply Z.mod_small. lia.
    + pose proof (Z.mod_pos_bound (Z.of_nat (length b64)) 65536 ltac:(lia)). lia.
    + unfold b64, buf. rewrite length_base64, length_sendMessage_buf.
      pose proof (Nat.div_mod_eq (27 + length message + 2) 3) as Hdiv.
      pose proof (Nat.mod_upper_bound (27 + length message + 2) 3 ltac:(lia)) as Hmod.
      set (q := ((27 + length message + 2) / 3)%nat) in *.
      set (m := ((27 + length message + 2) mod 3)%nat) in *.
      lia.
  - rewrite <- crc32_correct.
    apply (padded_field 8 (crc32 b64)); [lia | apply crc32_range].
  - rewrite <- crc32_correct. fold buf. change buf with (binary buf) at 3 4.
    apply (padded_field 8 (crc32 (binary buf))); [lia | apply crc32_range].
  - split; [apply sendMessage_per_session|]. split.
    + intros x s Hx Hs. rewrite sendMessage_per_session.
      destruct (flat_map_split _ _
                  (fun x => flat_map (fun s => [Send s (sendMessage_packet message);
                                                Send s (sendMessage_bpacket message)])
                                     (membersOf st x))
                  _ x Hx) as (b1 & a1 & ->).
      destruct (flat_map_split _ _
                  (fun s => [Send s (sendMessage_packet message);
                             Send s (sendMessage_bpacket message)])
                  _ s Hs) as (b2 & a2 & ->).
      exists (b1 ++ b2), (a2 ++ a1). rewrite <- !app_assoc. reflexivity.
    + intros Hnone. rewrite sendMessage_per_session, Hnone. reflexivity.
Qed.

(** The envelopes of "hi", as sent. *)
Example sendMessage_hi :
  sendMessage_packet (js "hi")
  = js "!CPC0028BQBAAAAATWVzc2FnZSBmcm9tIHNlcnZlcgBoaQA=9c2e4585" ++ [10]
  /\ sendMessage_bpacket (js "hi")
     = js "!CPC0028BQBAAAAATWVzc2FnZSBmcm9tIHNlcnZlcgBoaQA=226d9137" ++ [10].
Proof. vm_compute. split; reflexivity. Qed.

(** C2 fails as stated for long texts: for a text of 49123 characters the
    base64 record has 65536 = 0x10000 characters, and the length field of
    the envelope, the last four digits of "00010000", is "0000". *)
Lemma sendMessage_length_field_wraps :
  Z.of_nat (length (base64 (sendMessage_buf (repeat 97 (Z.to_nat 49123))))) = 65536
  /\ firstn 8 (sendMessage_packet (repeat 97 (Z.to_nat 49123))) = js "!CPC0000"
  /\ hex_value (js "0000") = 0.
Proof.
  assert (Hlen : Z.of_nat (length (base64 (sendMessage_buf (repeat 97 (Z.to_nat 49123)))))
                 = 65536).
  { rewrite length_base64, length_sendMessage_buf, repeat_length.
    vm_compute. reflexivity. }
  split; [exact Hlen|]. split; [|reflexivity].
  unfold sendMessage_packet. cbv zeta. rewrite Hlen.
  replace (slice (js "000" ++ toString16 65536) (-4)) with (js "0000")
    by (vm_compute; reflexivity).
  reflexivity.
Qed.

(** ** The counters *)

Section Counting.
Context {V : Type}.
Implicit Types (o : object V) (k : string).

Lemma obj_delete_absent o k : obj_get o k = None -> obj_delete o k = o.
Proof.
  induction o as [|[k' v'] o IH]; simpl; [reflexivity|].
  destruct (String.eqb k' k); [discriminate|]. intros H. now rewrite IH.
Qed.

Lemma obj_delete_present o k :
  NoDup (obj_keys o) -> obj_get o k <> None ->
  exists o1 v o2, o = o1 ++ (k, v) :: o2 /\ obj_delete o k = o1 ++ o2
                  /\ obj_get o k = Some v.
Proof.
  unfold obj_keys. induction o as [|[k' v'] o IH]; simpl; [congruence|].
  intros Hnd Hk. inversion Hnd as [|? ? Hin Hnd']; subst.
  destruct (String.eqb_spec k' k) as [->|Hne].
  - exists [], v', o. repeat split.
    simpl. apply obj_delete_absent.
    destruct (obj_get o k) eqn:E; [|reflexivity].
    exfalso. apply Hin. apply (proj2 (obj_keys_get o k)). congruence.
  - destruct (IH Hnd' Hk) as (o1 & v & o2 & -> & Hdel & Hget).
    exists ((k', v') :: o1), v, o2. simpl. now rewrite Hdel.
Qed.

Lemma obj_set_present o k v' :
  obj_get o k <> None ->
  exists o1 v o2, o = o1 ++ (k, v) :: o2 /\ obj_set o k v' = o1 ++ (k, v') :: o2
                  /\ obj_get o k = Some v.
Proof.
  induction o as [|[k0 v0] o IH]; simpl; [congruence|].
  destruct (String.eqb_spec k0 k) as [->|Hne]; intros Hk.
  - exists [], v0, o. repeat split.
  - destruct (IH Hk) as (o1 & v & o2 & -> & Hset & Hget).
    exists ((k0, v0) :: o1), v, o2. simpl. now rewrite Hset.
Qed.

Lemma obj_set_absent o k v : obj_get o k = None -> obj_set o k v = o ++ [(k, v)].
Proof.
  induction o as [|[k0 v0] o IH]; simpl; [reflexivity|].
  destruct (String.eqb k0 k); [discriminate|]. intros H. now rewrite IH.
Qed.

End Counting.

Lemma fold_left_count (pools : list (list WebSocket)) a :
  fold_left (fun sum pool => sum + Z.of_nat (length pool)) pools a
  = a + fold_left (fun sum pool => sum + Z.of_nat (length pool)) pools 0.
Proof.
  revert a. induction pools as [|p pools IH]; intros a; simpl; [lia|].
  rewrite IH, (IH (Z.of_nat (length p))). lia.
Qed.

Lemma getConnectionCount_split pools1 pool pools2 open n url :
  getConnectionCount (mkState (pools1 ++ (url, pool) :: pools2) open n)
  = getConnectionCount (mkState (pools1 ++ pools2) open n) + Z.of_nat (length pool).
Proof.
  unfold getConnectionCount, obj_values. cbn [connectionPools].
  rewrite !map_app, !fold_left_app. cbn [map fold_left snd].
  rewrite fold_left_count.
  rewrite (fold_left_count (map snd pools2)
             (fold_left (fun sum pool => sum + Z.of_nat (length pool)) (map snd pools1) 0)).
  lia.
Qed.

Lemma getConnectionCount_on_connection now url socket st :
  getConnectionCount (on_connection now url socket st) = getConnectionCount st + 1.
Proof.
  unfold on_connection. destruct st as [pools open n]. cbn [connectionPools connectionPoolOpen pipeCount].
  destruct (obj_get pools url) as [pool|] eqn:E.
  - destruct (obj_set_present pools url (pool ++ [socket])) as (o1 & v & o2 & -> & -> & Hget);
      [congruence|].
    rewrite E in Hget. injection Hget as <-.
    rewrite !getConnectionCount_split, length_app. simpl. lia.
  - rewrite obj_set_absent by assumption.
    rewrite (getConnectionCount_split pools [socket] []). rewrite app_nil_r. simpl.
    unfold getConnectionCount. simpl. lia.
Qed.

Lemma getConnectionCount_on_close url isServer socket st st' acts :
  well_formed st -> on_close url isServer socket st = Ok (st', acts) ->
  getConnectionCount st' = getConnectionCount st - 1.
Proof.
  intros (Hnd & Hne & _). unfold on_close.
  destruct st as [pools open n]. cbn [connectionPools connectionPoolOpen pipeCount] in *.
  destruct (obj_get pools url) as [pool|] eqn:E; [|discriminate].
  pose proof (length_splice_indexOf pool socket (Hne url pool E)) as Hlen.
  destruct (splice pool (indexOf pool socket) 1) as [|y pool'] eqn:Es;
    cbn [length Z.of_nat Z.eqb]; intros [= <- <-].
  - destruct (obj_delete_present pools url Hnd) as (o1 & v & o2 & -> & -> & Hget);
      [congruence|].
    rewrite E in Hget. injection Hget as <-.
    rewrite getConnectionCount_split. unfold getConnectionCount. simpl in *. lia.
  - destruct (obj_set_present pools url (y :: pool')) as (o1 & v & o2 & -> & -> & Hget);
      [congruence|].
    rewrite E in Hget. injection Hget as <-.
    rewrite !getConnectionCount_split. simpl length in *. lia.
Qed.

Lemma counters_run evs :
  forall st st' acts,
    well_formed st -> run evs st = Ok (st', acts) ->
    getConnectionCount st'
    = getConnectionCount st
      + Z.of_nat (length (filter (fun e => match e with Connection _ _ _ => true | _ => false end) evs))
      - Z.of_nat (length (filter (fun e => match e with Closed _ _ _ => true | _ => false end) evs)).
Proof.
  induction evs as [|e evs IH]; intros st st' acts Hwf Hrun.
  - simpl in Hrun. injection Hrun as <- _. simpl. lia.
  - apply run_cons_inv in Hrun as (st1 & acts1 & acts2 & E & E2 & _).
    rewrite (IH st1 st' acts2 (well_formed_handle _ _ _ _ Hwf E) E2).
    destruct e as [now u s|u s msg|u b s]; simpl in E |- *.
    + injection E as <- _. rewrite getConnectionCount_on_connection. lia.
    + destruct (on_message u s msg st); [|discriminate].
      injection E as <- _. lia.
    + rewrite (getConnectionCount_on_close _ _ _ _ _ _ Hwf E). lia.
Qed.

(** After every run from the empty registry that completes,
    [getConnectionCount()] is the number of connections accepted minus the
    number of connections closed. *)
Theorem getConnectionCount_is_net_connections evs st acts :
  run evs initial = Ok (st, acts) ->
  getConnectionCount st
  = Z.of_nat (length (filter (fun e => match e with Connection _ _ _ => true | _ => false end) evs))
    - Z.of_nat (length (filter (fun e => match e with Closed _ _ _ => true | _ => false end) evs)).
Proof.
  intros Hrun. rewrite (counters_run evs initial st acts well_formed_initial Hrun).
  reflexivity.
Qed.

Lemma getConnectionCount_is_net_connections_witness :
  getConnectionCount (mkState [("/s"%string, [2%nat])] [("/s"%string, 0)] 1)
  = Z.of_nat (length (filter (fun e => match e with Connection _ _ _ => true | _ => false end)
                             [Connection 0 "/s" 1%nat; Connection 5 "/s" 2%nat;
                              Closed "/s" false 1%nat]))
    - Z.of_nat (length (filter (fun e => match e with Closed _ _ _ => true | _ => false end)
                               [Connection 0 "/s" 1%nat; Connection 5 "/s" 2%nat;
                                Closed "/s" false 1%nat])).
Proof.
  apply (getConnectionCount_is_net_connections
           [Connection 0 "/s" 1%nat; Connection 5 "/s" 2%nat; Closed "/s" false 1%nat]
           (mkState [("/s"%string, [2%nat])] [("/s"%string, 0)] 1) []).
  reflexivity.
Defined.

Lemma getPipeCount_handle e st st' acts :
  well_formed st -> handle e st = Ok (st', acts) ->
  getPipeCount st = Z.of_nat (length (allSessionIds st)) ->
  getPipeCount st' = Z.of_nat (length (allSessionIds st')).
Proof.
  intros (Hnd & _ & _). unfold getPipeCount, allSessionIds.
  destruct e as [now url s|url s msg|url b s]; simpl.
  - intros [= <- <-] Hcount. unfold on_connection.
    destruct (obj_get (connectionPools st) url) eqn:E; cbn [connectionPools pipeCount].
    + rewrite obj_keys_set_present by congruence. exact Hcount.
    + rewrite obj_keys_set_absent, length_app by assumption. simpl. lia.
  - destruct (on_message url s msg st); [|discriminate]. now intros [= <- <-].
  - unfold on_close.
    destruct (obj_get (connectionPools st) url) as [pool|] eqn:E; [|discriminate].
    destruct (Z.of_nat (length (splice pool (indexOf pool s) 1)) =? 0);
      intros [= <- <-] Hcount; cbn [connectionPools pipeCount].
    + destruct (obj_delete_present (connectionPools st) url Hnd)
        as (o1 & v & o2 & Ho & -> & _); [congruence|].
      rewrite Ho in Hcount. unfold obj_keys in *.
      rewrite map_app, length_app in *. simpl in Hcount. lia.
    + rewrite obj_keys_set_present by congruence. exact Hcount.
Qed.

(** In every state reached from the empty registry, [getPipeCount()] is the
    number of registered sessions. *)
Theorem getPipeCount_is_session_count st :
  reachable st -> getPipeCount st = Z.of_nat (length (allSessionIds st)).
Proof.
  intros (evs & acts & Hrun).
  apply (run_invariant
           (fun st => well_formed st
                      /\ getPipeCount st = Z.of_nat (length (allSessionIds st))))
    with (evs := evs) (st := initial) (acts := acts) in Hrun.
  - apply Hrun.
  - intros e st0 st1 acts1 [Hwf Hcount] Hstep. split.
    + eapply well_formed_handle; eauto.
    + eapply getPipeCount_handle; eauto.
  - split; [apply well_formed_initial | reflexivity].
Qed.

Lemma getPipeCount_is_session_count_witness :
  getPipeCount (on_connection 0 "/s" 1%nat initial)
  = Z.of_nat (length (allSessionIds (on_connection 0 "/s" 1%nat initial))).
Proof.
  apply (getPipeCount_is_session_count (on_connection 0 "/s" 1%nat initial)).
  exists [Connection 0 "/s" 1%nat], []. reflexivity.
Defined.

(** Every state reached from the empty registry satisfies the registry
    invariant: no session is registered twice, every registered session has
    a member, and a session has a creation time exactly when it is
    registered. *)
Theorem registry_invariant st : reachable st -> well_formed st.
Proof. apply reachable_well_formed. Qed.

Lemma registry_invariant_witness :
  well_formed (on_connection 0 "/s" 1%nat initial).
Proof.
  apply (registry_invariant (on_connection 0 "/s" 1%nat initial)).
  exists [Connection 0 "/s" 1%nat], []. reflexivity.
Defined.

(** ** Summary statements *)

(** [crc32] is the standard CRC-32: on every string it returns the
    reflected CRC-32 of polynomial 0xEDB88320, with initial value and final
    exclusive or 0xFFFFFFFF, of the low bytes of the string's characters, as
    an unsigned 32-bit number. *)
Theorem crc32_is_standard str :
  crc32 str = crc32_reference str /\ 0 <= crc32 str < 2 ^ 32.
Proof.
  split; [apply crc32_correct|].
  change (2 ^ 32) with (16 ^ Z.of_nat 8). apply crc32_range.
Qed.

(** The broadcast record of every text has [27 + message.length] bytes: the
    tag 5 at byte 0, the subtype 0x40 at byte 2, the label "Message from
    server" at bytes 6 to 24, zeros elsewhere before byte 26, and from byte
    26 the UTF-8 bytes of the leading characters of the text that fit whole
    in [message.length + 1] bytes, followed by zeros. *)
Theorem sendMessage_record_layout message :
  length (sendMessage_buf message) = (27 + length message)%nat
  /\ sendMessage_buf message
     = [5; 0; 0x40; 0; 0; 0] ++ js "Message from server" ++ [0]
         ++ fit (utf8_chars message) (length message + 1)
         ++ repeat 0 (length message + 1
                      - length (fit (utf8_chars message) (length message + 1))).
Proof.
  split; [apply length_sendMessage_buf | apply sendMessage_buf_layout].
Qed.

Lemma sendMessage_buf_ascii_witness :
  sendMessage_buf (js "hi")
  = [5; 0; 0x40; 0; 0; 0] ++ js "Message from server" ++ [0] ++ js "hi" ++ [0]
  /\ Z.of_nat (length (sendMessage_buf (js "hi"))) = 27 + byteLength (js "hi").
Proof.
  apply (sendMessage_buf_ascii (js "hi")).
  repeat constructor; vm_compute; congruence.
Defined.

(** ** Memberships *)

Lemma memberships_app pools1 pools2 open n open' n' :
  memberships (mkState (pools1 ++ pools2) open n)
  = memberships (mkState pools1 open' n') ++ memberships (mkState pools2 open' n').
Proof. unfold memberships. cbn [connectionPools]. apply flat_map_app. Qed.

Lemma memberships_pools st :
  memberships st = memberships (mkState (connectionPools st) [] 0).
Proof. reflexivity. Qed.

(** The pairs of a registry that holds [pool] under [url] between two
    other parts. *)
Lemma memberships_split pools1 url pool pools2 open n :
  memberships (mkState (pools1 ++ (url, pool) :: pools2) open n)
  = memberships (mkState pools1 [] 0) ++ map (pair url) pool
      ++ memberships (mkState pools2 [] 0).
Proof.
  unfold memberships. cbn [connectionPools].
  rewrite flat_map_app. reflexivity.
Qed.

Lemma memberships_In st url s :
  In (url, s) (memberships st) ->
  exists pool, In (url, pool) (connectionPools st) /\ In s pool.
Proof.
  unfold memberships. rewrite in_flat_map. intros ([u pool] & Hin & Hs).
  cbn [fst snd] in Hs. apply in_map_iff in Hs as (s' & [= -> ->] & Hs).
  eauto.
Qed.

Lemma obj_get_In (V : Type) (o : object V) k v :
  NoDup (obj_keys o) -> In (k, v) o -> obj_get o k = Some v.
Proof.
  unfold obj_keys. induction o as [|[k' v'] o IH]; simpl; [tauto|].
  intros Hnd Hin. inversion Hnd as [|? ? Hk Hnd']; subst.
  destruct Hin as [[= -> ->]|Hin].
  - now rewrite String.eqb_refl.
  - destruct (String.eqb_spec k' k) as [->|Hne]; [|auto].
    exfalso. apply Hk. apply in_map_iff. exists (k, v). auto.
Qed.

Lemma obj_get_Some_In (V : Type) (o : object V) k v :
  obj_get o k = Some v -> In (k, v) o.
Proof.
  induction o as [|[k' v'] o IH]; simpl; [discriminate|].
  destruct (String.eqb_spec k' k) as [->|Hne].
  - intros [= ->]. now left.
  - auto.
Qed.

Lemma memberships_membersOf st url s :
  NoDup (obj_keys (connectionPools st)) ->
  (In (url, s) (memberships st) <-> In s (membersOf st url)).
Proof.
  intros Hnd. unfold membersOf. split.
  - intros H. apply memberships_In in H as (pool & Hpool & Hs).
    now rewrite (obj_get_In _ _ _ _ Hnd Hpool).
  - destruct (obj_get (connectionPools st) url) as [pool|] eqn:E; [|contradiction].
    intros Hs. apply obj_get_Some_In in E.
    unfold memberships. apply in_flat_map. exists (url, pool).
    split; [assumption|]. cbn [fst snd]. now apply in_map.
Qed.

(** A connection adds its pair, and nothing else changes. *)
Lemma memberships_on_connection now url socket st :
  Permutation (memberships (on_connection now url socket st))
              ((url, socket) :: memberships st).
Proof.
  unfold on_connection. destruct st as [pools open n].
  cbn [connectionPools connectionPoolOpen pipeCount].
  destruct (obj_get pools url) as [pool|] eqn:E.
  - destruct (obj_set_present pools url (pool ++ [socket]))
      as (o1 & v & o2 & -> & -> & Hget); [congruence|].
    rewrite E in Hget. injection Hget as <-.
    rewrite !memberships_split, map_app. cbn [map].
    rewrite <- !app_assoc. cbn [app].
    rewrite Permutation_middle.
    apply Permutation_app_head.
    symmetry. apply Permutation_middle.
  - rewrite obj_set_absent by assumption.
    unfold memberships. cbn [connectionPools]. rewrite flat_map_app.
    cbn [flat_map fst snd map app]. symmetry. apply Permutation_cons_append.
Qed.

(** A close that completes removes exactly one pair of its session: the
    socket's own when the socket is a member. *)
Lemma memberships_on_close url isServer socket st st' acts :
  well_formed st -> on_close url isServer socket st = Ok (st', acts) ->
  exists gone,
    Permutation ((url, gone) :: memberships st') (memberships st)
    /\ (In socket (membersOf st url) -> gone = socket).
Proof.
  intros (Hnd & Hne & _). unfold on_close, membersOf.
  destruct st as [pools open n].
  cbn [connectionPools connectionPoolOpen pipeCount] in *.
  destruct (obj_get pools url) as [pool|] eqn:E; [|discriminate].
  intros Hrun.
  assert (Hgone : exists gone,
             Permutation (gone :: splice pool (indexOf pool socket) 1) pool
             /\ (In socket pool -> gone = socket)).
  { destruct (in_dec Nat.eq_dec socket pool) as [Hin|Hout].
    - exists socket. rewrite splice_member by assumption.
      split; [now apply remove_first_perm | reflexivity].
    - rewrite splice_stranger by assumption.
      destruct (exists_last (Hne url pool E)) as (l & y & ->).
      exists y. rewrite removelast_last.
      split; [apply Permutation_cons_append | tauto]. }
  destruct Hgone as (gone & Hperm & Hsame). exists gone. split; [|exact Hsame].
  destruct (splice pool (indexOf pool socket) 1) as [|y pool'] eqn:Es;
    cbn [length Z.of_nat Z.eqb] in *; injection Hrun as <- _.
  - destruct (obj_delete_present pools url Hnd) as (o1 & v & o2 & -> & -> & Hget);
      [congruence|].
    rewrite E in Hget. injection Hget as <-.
    rewrite memberships_split, (memberships_app o1 o2 _ _ [] 0).
    apply Permutation_length_1_inv in Hperm. subst pool. cbn [map app].
    apply Permutation_middle.
  - destruct (obj_set_present pools url (y :: pool')) as (o1 & v & o2 & -> & -> & Hget);
      [congruence|].
    rewrite E in Hget. injection Hget as <-.
    rewrite !memberships_split.
    rewrite Permutation_middle.
    apply Permutation_app_head.
    change ((url, gone) :: map (pair url) (y :: pool') ++ memberships (mkState o2 [] 0))
      with (map (pair url) (gone :: y :: pool') ++ memberships (mkState o2 [] 0)).
    apply Permutation_app_tail, Permutation_map. exact Hperm.
Qed.

Lemma memberships_nil st :
  well_formed st -> memberships st = [] -> connectionPools st = [].
Proof.
  intros (_ & Hne & _) Hnil. destruct st as [[|[k pool] pools] open n]; [reflexivity|].
  exfalso. cbn [connectionPools] in *.
  specialize (Hne k pool). simpl in Hne. rewrite String.eqb_refl in Hne.
  destruct pool as [|s pool]; [now apply Hne|]. discriminate Hnil.
Qed.

Lemma obj_all_absent (V : Type) (o : object V) :
  (forall k, obj_get o k = None) -> o = [].
Proof.
  destruct o as [|[k v] o]; [reflexivity|]. intros H. specialize (H k).
  simpl in H. rewrite String.eqb_refl in H. discriminate.
Qed.

Lemma reachable_run evs st st' acts :
  reachable st -> run evs st = Ok (st', acts) -> reachable st'.
Proof.
  intros (evs0 & acts0 & H0) Hrun. exists (evs0 ++ evs), (acts0 ++ acts).
  now rewrite run_app, H0, Hrun.
Qed.

Lemma pipeCount_run evs st st' acts :
  well_formed st -> getPipeCount st = Z.of_nat (length (allSessionIds st)) ->
  run evs st = Ok (st', acts) ->
  getPipeCount st' = Z.of_nat (length (allSessionIds st')).
Proof.
  intros Hwf Hcount Hrun.
  apply (run_invariant
           (fun st => well_formed st
                      /\ getPipeCount st = Z.of_nat (length (allSessionIds st))))
    with (evs := evs) (st := st) (acts := acts) in Hrun; [apply Hrun | | auto].
  intros e st0 st1 acts1 [Hwf0 Hcount0] Hstep. split.
  - eapply well_formed_handle; eauto.
  - eapply getPipeCount_handle; eauto.
Qed.

Lemma reachable_pipeCount st :
  reachable st -> getPipeCount st = Z.of_nat (length (allSessionIds st)).
Proof.
  intros (evs & acts & Hrun).
  now apply (pipeCount_run evs initial st acts well_formed_initial).
Qed.

Lemma getConnectionCount_memberships st :
  getConnectionCount st = Z.of_nat (length (memberships st)).
Proof.
  unfold getConnectionCount, memberships, obj_values.
  induction (connectionPools st) as [|[k pool] pools IH]; [reflexivity|].
  cbn [map snd fst fold_left flat_map]. rewrite fold_left_count, IH.
  rewrite length_app, length_map. lia.
Qed.

(** ** Shutdown *)

Lemma flat_map_of_map (A B C : Type) (f : B -> list C) (g : A -> B) l :
  flat_map f (map g l) = flat_map (fun x => f (g x)) l.
Proof. induction l as [|x l IH]; simpl; [reflexivity | now rewrite IH]. Qed.

Lemma map_of_flat_map (A B C : Type) (h : B -> C) (f : A -> list B) l :
  map h (flat_map f l) = flat_map (fun x => map h (f x)) l.
Proof.
  induction l as [|x l IH]; simpl; [reflexivity|]. now rewrite map_app, IH.
Qed.

Lemma flat_map_ext_members (A B : Type) (f g : A -> list B) l :
  (forall x, In x l -> f x = g x) -> flat_map f l = flat_map g l.
Proof.
  induction l as [|x l IH]; simpl; intros H; [reflexivity|].
  rewrite (H x), IH by auto. reflexivity.
Qed.

Lemma stop_memberships st :
  NoDup (obj_keys (connectionPools st)) ->
  stop st = map (fun p => Close (snd p)) (memberships st).
Proof.
  intros Hnd. unfold stop, memberships, obj_keys.
  rewrite flat_map_of_map, map_of_flat_map.
  apply flat_map_ext_members. intros [k pool] Hin. cbn [fst snd].
  rewrite (obj_get_In _ _ _ _ Hnd Hin), map_map. reflexivity.
Qed.

(** [stop] requests the close of every member of every registered session,
    once per membership and in registry order, and requests nothing else. *)
Theorem stop_closes_every_member st :
  reachable st ->
  stop st = map (fun p => Close (snd p)) (memberships st)
  /\ (forall s, In (Close s) (stop st) <-> exists x, In s (membersOf st x))
  /\ (forall s data, ~ In (Send s data) (stop st))
  /\ Z.of_nat (length (stop st)) = getConnectionCount st.
Proof.
  intros Hreach. destruct (reachable_well_formed st Hreach) as (Hnd & _ & _).
  pose proof (stop_memberships st Hnd) as Hstop.
  split; [exact Hstop|]. rewrite Hstop. split; [|split].
  - intros s. rewrite in_map_iff. split.
    + intros ([x s'] & Heq & Hin). cbn [snd] in Heq. injection Heq as ->.
      exists x. now apply (memberships_membersOf st x s Hnd).
    + intros (x & Hs). exists (x, s). split; [reflexivity|].
      now apply (memberships_membersOf st x s Hnd).
  - intros s data Hin. apply in_map_iff in Hin as (p & Hp & _). discriminate.
  - now rewrite length_map, getConnectionCount_memberships.
Qed.

Lemma stop_closes_every_member_witness :
  stop (on_connection 5 "/s" 2%nat (on_connection 0 "/s" 1%nat initial))
  = map (fun p => Close (snd p))
        (memberships (on_connection 5 "/s" 2%nat (on_connection 0 "/s" 1%nat initial)))
  /\ (forall s,
        In (Close s) (stop (on_connection 5 "/s" 2%nat (on_connection 0 "/s" 1%nat initial)))
        <-> exists x,
            In s (membersOf (on_connection 5 "/s" 2%nat
                               (on_connection 0 "/s" 1%nat initial)) x))
  /\ (forall s data,
        ~ In (Send s data)
             (stop (on_connection 5 "/s" 2%nat (on_connection 0 "/s" 1%nat initial))))
  /\ Z.of_nat (length (stop (on_connection 5 "/s" 2%nat
                               (on_connection 0 "/s" 1%nat initial))))
     = getConnectionCount (on_connection 5 "/s" 2%nat (on_connection 0 "/s" 1%nat initial)).
Proof.
  apply (stop_closes_every_member
           (on_connection 5 "/s" 2%nat (on_connection 0 "/s" 1%nat initial))).
  exists [Connection 0 "/s" 1%nat; Connection 5 "/s" 2%nat], []. reflexivity.
Defined.

Lemma on_close_only_closes url isServer socket st st' acts :
  on_close url isServer socket st = Ok (st', acts) ->
  forall s data, ~ In (Send s data) acts.
Proof.
  unfold on_close.
  destruct (obj_get (connectionPools st) url) as [pool|]; [|discriminate].
  set (pool' := splice pool (indexOf pool socket) 1).
  assert (Hcloses : forall s data,
             ~ In (Send s data) (if isServer then map Close pool' else [])).
  { intros s data Hin. destruct isServer; [|contradiction].
    apply in_map_iff in Hin as (y & Hy & _). discriminate. }
  destruct (Z.of_nat (length pool') =? 0); intros [= <- <-]; exact Hcloses.
Qed.

(** Closing all registered sockets, in any order, empties the registry. *)
Lemma run_closes_everyone (flag : WebSocket -> bool) order :
  forall st,
    well_formed st -> NoDup (memberships st) ->
    Permutation order (memberships st) ->
    exists st' acts,
      run (map (fun p => Closed (fst p) (flag (snd p)) (snd p)) order) st = Ok (st', acts)
      /\ well_formed st' /\ connectionPools st' = []
      /\ (forall s data, ~ In (Send s data) acts).
Proof.
  induction order as [|[x s] order IH]; intros st Hwf Hnd Hperm.
  - apply Permutation_nil in Hperm.
    exists st, []. repeat split; try apply Hwf; auto.
    now apply memberships_nil.
  - assert (Hin : In (x, s) (memberships st))
      by (eapply Permutation_in; [exact Hperm | now left]).
    assert (Hs : In s (membersOf st x)).
    { apply memberships_membersOf; [apply Hwf | exact Hin]. }
    assert (Hpool : exists pool, obj_get (connectionPools st) x = Some pool).
    { unfold membersOf in Hs.
      destruct (obj_get (connectionPools st) x); [eauto | contradiction]. }
    destruct Hpool as (pool & Hpool).
    destruct (on_close_present x (flag s) s st pool Hpool) as (st1 & Hrun & _).
    destruct (memberships_on_close _ _ _ _ _ _ Hwf Hrun) as (gone & Hgone & Hsame).
    rewrite (Hsame Hs) in Hgone.
    pose proof (well_formed_on_close _ _ _ _ _ _ Hwf Hrun) as Hwf1.
    assert (Hnd1 : NoDup (memberships st1)).
    { apply (Permutation_NoDup (Permutation_sym Hgone)) in Hnd.
      now inversion Hnd. }
    assert (Hperm1 : Permutation order (memberships st1)).
    { apply Permutation_cons_inv with (a := (x, s)).
      now rewrite Hperm, Hgone. }
    destruct (IH st1 Hwf1 Hnd1 Hperm1) as (st' & acts & Hrun' & Hwf' & Hnil & Hsend).
    cbn [map run handle fst snd]. rewrite Hrun, Hrun'.
    eexists _, _. split; [reflexivity|]. repeat split; try apply Hwf'; auto.
    intros s0 data Hin0. apply in_app_or in Hin0 as [Hin0|Hin0].
    + exact (on_close_only_closes _ _ _ _ _ _ Hrun s0 data Hin0).
    + exact (Hsend s0 data Hin0).
Qed.

(** After [stop], once the transport has closed every registered socket (in
    whatever order, each socket registered once), the registry is empty: no
    session, no creation time, [getPipeCount()] and [getConnectionCount()]
    are 0, and no message was sent on the way. *)
Theorem stop_then_closes_empty_registry st (flag : WebSocket -> bool) order :
  reachable st -> NoDup (memberships st) ->
  Permutation order (memberships st) ->
  exists st' acts,
    run (map (fun p => Closed (fst p) (flag (snd p)) (snd p)) order) st = Ok (st', acts)
    /\ connectionPools st' = [] /\ connectionPoolOpen st' = []
    /\ getPipeCount st' = 0 /\ getConnectionCount st' = 0
    /\ (forall s data, ~ In (Send s data) acts).
Proof.
  intros Hreach Hnd Hperm.
  destruct (run_closes_everyone flag order st (reachable_well_formed st Hreach) Hnd Hperm)
    as (st' & acts & Hrun & Hwf' & Hnil & Hsend).
  exists st', acts. split; [exact Hrun|]. split; [exact Hnil|].
  split; [|split; [|split]].
  - apply obj_all_absent. intros k. destruct Hwf' as (_ & _ & Hopen).
    apply Hopen. now rewrite Hnil.
  - rewrite (reachable_pipeCount st' (reachable_run _ _ _ _ Hreach Hrun)).
    unfold allSessionIds. now rewrite Hnil.
  - unfold getConnectionCount. now rewrite Hnil.
  - exact Hsend.
Qed.

Lemma stop_then_closes_empty_registry_witness :
  exists st' acts,
    run (map (fun p => Closed (fst p) ((fun _ => false) (snd p)) (snd p))
             [("/s"%string, 2%nat); ("/s"%string, 1%nat)])
        (on_connection 5 "/s" 2%nat (on_connection 0 "/s" 1%nat initial))
    = Ok (st', acts)
    /\ connectionPools st' = [] /\ connectionPoolOpen st' = []
    /\ getPipeCount st' = 0 /\ getConnectionCount st' = 0
    /\ (forall s data, ~ In (Send s data) acts).
Proof.
  apply (stop_then_closes_empty_registry
           (on_connection 5 "/s" 2%nat (on_connection 0 "/s" 1%nat initial))
           (fun _ => false)
           [("/s"%string, 2%nat); ("/s"%string, 1%nat)]).
  - exists [Connection 0 "/s" 1%nat; Connection 5 "/s" 2%nat], []. reflexivity.
  - repeat constructor; simpl; intuition congruence.
  - apply perm_swap.
Defined.

(** ** Every socket is registered once *)

Lemma sockets_run evs :
  forall st st' acts,
    well_formed st -> run evs st = Ok (st', acts) ->
    NoDup (map snd (memberships st) ++ connected evs) ->
    NoDup (map snd (memberships st'))
    /\ incl (map snd (memberships st')) (map snd (memberships st) ++ connected evs).
Proof.
  induction evs as [|e evs IH]; intros st st' acts Hwf Hrun Hnd.
  - simpl in Hrun. injection Hrun as <- _. simpl in *.
    rewrite app_nil_r in *. split; [assumption | apply incl_refl].
  - apply run_cons_inv in Hrun as (st1 & acts1 & acts2 & E & E2 & _).
    pose proof (well_formed_handle _ _ _ _ Hwf E) as Hwf1.
    destruct e as [now u s|u s msg|u b s]; simpl in E; cbn [connected] in *.
    + injection E as <- _.
      pose proof (Permutation_map snd (memberships_on_connection now u s st)) as Hp.
      cbn [map snd] in Hp.
      destruct (IH _ st' acts2 Hwf1 E2) as [Hnd' Hincl].
      * apply (Permutation_NoDup (l := s :: map snd (memberships st) ++ connected evs)).
        -- rewrite Hp. reflexivity.
        -- apply (Permutation_NoDup (Permutation_sym (Permutation_middle _ _ _)) Hnd).
      * split; [exact Hnd'|]. intros y Hy. apply Hincl in Hy.
        apply in_app_or in Hy as [Hy|Hy].
        -- apply (Permutation_in _ Hp) in Hy. destruct Hy as [<-|Hy];
             apply in_or_app; [right; now left | now left].
        -- apply in_or_app. right. now right.
    + destruct (on_message u s msg st); [|discriminate]. injection E as <- _.
      now apply (IH st st' acts2).
    + destruct (memberships_on_close _ _ _ _ _ _ Hwf E) as (gone & Hgone & _).
      pose proof (Permutation_map snd Hgone) as Hp. cbn [map snd] in Hp.
      destruct (IH _ st' acts2 Hwf1 E2) as [Hnd' Hincl].
      * assert (Hnd2 : NoDup ((gone :: map snd (memberships st1)) ++ connected evs)).
        { apply (Permutation_NoDup (l := map snd (memberships st) ++ connected evs));
            [|exact Hnd].
          apply Permutation_app_tail. now symmetry. }
        now inversion Hnd2.
      * split; [exact Hnd'|]. intros y Hy. apply Hincl in Hy.
        apply in_app_or in Hy as [Hy|Hy]; apply in_or_app; [left | now right].
        apply (Permutation_in _ Hp). now right.
Qed.

(** When the transport brings every socket in one ['connection'] event only,
    no socket is registered twice, in one session or in two, and only
    sockets that connected are registered. *)
Theorem sockets_registered_once evs st acts :
  run evs initial = Ok (st, acts) -> NoDup (connected evs) ->
  NoDup (map snd (memberships st))
  /\ NoDup (memberships st)
  /\ (forall x s, In s (membersOf st x) -> In s (connected evs))
  /\ (forall x y s, In s (membersOf st x) -> In s (membersOf st y) -> x = y).
Proof.
  intros Hrun Hnd.
  pose proof (well_formed_run _ _ _ _ well_formed_initial Hrun) as Hwf.
  destruct (sockets_run evs initial st acts well_formed_initial Hrun Hnd)
    as [Hnd' Hincl].
  split; [exact Hnd'|]. split; [now apply (NoDup_map_inv snd)|]. split.
  - intros x s Hs. apply (Hincl s).
    apply in_map_iff. exists (x, s). split; [reflexivity|].
    apply memberships_membersOf; [apply Hwf | exact Hs].
  - intros x y s Hx Hy.
    apply (memberships_membersOf st x s (proj1 Hwf)) in Hx.
    apply (memberships_membersOf st y s (proj1 Hwf)) in Hy.
    destruct (string_dec x y) as [|Hne]; [assumption|exfalso].
    apply in_split in Hx as (l1 & l2 & Hsplit).
    rewrite Hsplit in Hy, Hnd'. rewrite map_app in Hnd'. cbn [map snd] in Hnd'.
    apply NoDup_remove_2 in Hnd'. apply Hnd'.
    apply in_app_or in Hy as [Hy|[Hy|Hy]]; [| congruence |];
      apply in_or_app; [left | right]; apply in_map_iff; exists (y, s); auto.
Qed.

Lemma sockets_registered_once_witness :
  NoDup (map snd (memberships (on_connection 5 "/t" 2%nat
                                 (on_connection 0 "/s" 1%nat initial))))
  /\ NoDup (memberships (on_connection 5 "/t" 2%nat (on_connection 0 "/s" 1%nat initial)))
  /\ (forall x s,
        In s (membersOf (on_connection 5 "/t" 2%nat
                           (on_connection 0 "/s" 1%nat initial)) x) ->
        In s (connected [Connection 0 "/s" 1%nat; Connection 5 "/t" 2%nat]))
  /\ (forall x y s,
        In s (membersOf (on_connection 5 "/t" 2%nat
                           (on_connection 0 "/s" 1%nat initial)) x) ->
        In s (membersOf (on_connection 5 "/t" 2%nat
                           (on_connection 0 "/s" 1%nat initial)) y) ->
        x = y).
Proof.
  apply (sockets_registered_once
           [Connection 0 "/s" 1%nat; Connection 5 "/t" 2%nat]
           (on_connection 5 "/t" 2%nat (on_connection 0 "/s" 1%nat initial)) []).
  - reflexivity.
  - repeat constructor; simpl; intuition congruence.
Defined.

(** ** The clean-up followed by the close events *)

Lemma cleanupInterval_one_cases now st x :
  cleanupInterval_one now st x = []
  \/ exists s t,
      cleanupInterval_one now st x = [Close s]
      /\ obj_get (connectionPools st) x = Some [s]
      /\ obj_get (connectionPoolOpen st) x = Some t /\ now - t > 60000.
Proof.
  destruct (cleanupInterval_one now st x) as [|a rest] eqn:E; [now left|right].
  assert (Ha : In a (cleanupInterval_one now st x)) by (rewrite E; now left).
  apply cleanup_one_actions in Ha as (s & t & -> & Hp & Ho & Hold).
  exists s, t. repeat split; try assumption.
  unfold cleanupInterval_one in E. rewrite Hp, Ho in E. simpl in E.
  destruct (now - t >? 60000); congruence.
Qed.

(** The decision for a session reads that session's pool and time only. *)
Lemma cleanupInterval_one_local now st st' x :
  obj_get (connectionPools st') x = obj_get (connectionPools st) x ->
  obj_get (connectionPoolOpen st') x = obj_get (connectionPoolOpen st) x ->
  cleanupInterval_one now st' x = cleanupInterval_one now st x.
Proof. intros Hp Ho. unfold cleanupInterval_one. now rewrite Hp, Ho. Qed.

Lemma on_close_lone x isServer s st :
  obj_get (connectionPools st) x = Some [s] ->
  on_close x isServer s st
  = Ok ({| connectionPools := obj_delete (connectionPools st) x;
           connectionPoolOpen := obj_delete (connectionPoolOpen st) x;
           pipeCount := pipeCount st - 1 |}, []).
Proof.
  intros Hp. unfold on_close. rewrite Hp.
  unfold indexOf. cbn [indexOf_from]. rewrite Nat.eqb_refl.
  change (splice [s] 0 1) with (@nil WebSocket). cbn [length Z.of_nat Z.eqb map].
  now destruct isServer.
Qed.

Lemma cleanup_then_closes_keys now st (flag : WebSocket -> bool) keys :
  NoDup keys ->
  forall cur,
    (forall k, In k keys ->
       obj_get (connectionPools cur) k = obj_get (connectionPools st) k
       /\ obj_get (connectionPoolOpen cur) k = obj_get (connectionPoolOpen st) k) ->
    exists cur',
      run (flat_map (fun x => closed_by x flag (cleanupInterval_one now st x)) keys) cur
      = Ok (cur', [])
      /\ (forall k, In k keys -> cleanupInterval_one now st k <> [] ->
            obj_get (connectionPools cur') k = None
            /\ obj_get (connectionPoolOpen cur') k = None)
      /\ (forall k, ~ (In k keys /\ cleanupInterval_one now st k <> []) ->
            obj_get (connectionPools cur') k = obj_get (connectionPools cur) k
            /\ obj_get (connectionPoolOpen cur') k = obj_get (connectionPoolOpen cur) k).
Proof.
  induction 1 as [|x keys Hx Hnd IH]; intros cur Hsame.
  - exists cur. simpl. repeat split; tauto.
  - cbn [flat_map]. rewrite run_app.
    destruct (cleanupInterval_one_cases now st x) as [Hnone|(s & t & Hone & Hp & Ho & Hold)].
    + rewrite Hnone. cbn [closed_by flat_map run].
      destruct (IH cur) as (cur' & Hrun & Hgone & Hkept).
      { intros k Hk. apply Hsame. now right. }
      rewrite Hrun. exists cur'. split; [reflexivity|]. split.
      * intros k [<-|Hk] Hflag; [congruence | now apply Hgone].
      * intros k Hk. apply Hkept. intros [Hin Hflag]. apply Hk. split; [now right | assumption].
    + rewrite Hone. cbn [closed_by flat_map app run handle].
      assert (Hcur : obj_get (connectionPools cur) x = Some [s]).
      { rewrite <- Hp. apply Hsame. now left. }
      rewrite (on_close_lone x (flag s) s cur Hcur).
      set (cur1 := {| connectionPools := obj_delete (connectionPools cur) x;
                      connectionPoolOpen := obj_delete (connectionPoolOpen cur) x;
                      pipeCount := pipeCount cur - 1 |}).
      destruct (IH cur1) as (cur' & Hrun & Hgone & Hkept).
      { intros k Hk. assert (x <> k) by (intros ->; contradiction).
        unfold cur1. cbn [connectionPools connectionPoolOpen].
        rewrite !obj_get_delete_other by assumption. apply Hsame. now right. }
      rewrite Hrun. exists cur'. split; [reflexivity|]. split.
      * intros k [<-|Hk] Hflag; [|now apply Hgone].
        destruct (Hkept x) as [Hkp Hko]; [tauto|].
        rewrite Hkp, Hko. unfold cur1. cbn [connectionPools connectionPoolOpen].
        now rewrite !obj_get_delete_same.
      * intros k Hk.
        assert (Hxk : x <> k).
        { intros ->. apply Hk. split; [now left | congruence]. }
        destruct (Hkept k) as [Hkp Hko].
        { intros [Hin Hflag]. apply Hk. split; [now right | assumption]. }
        rewrite Hkp, Hko. unfold cur1. cbn [connectionPools connectionPoolOpen].
        now rewrite !obj_get_delete_other by assumption.
Qed.

(** Once the transport has closed the sockets a clean-up run asked to
    close, exactly the sessions the run picked (one member, older than
    60000 ms) are gone from the registry, every other session has the
    members and the creation time it had, and no further request was
    issued. *)
Theorem cleanup_then_closes_deletes_lone_sessions now st (flag : WebSocket -> bool) :
  reachable st ->
  exists st',
    run (flat_map (fun x => closed_by x flag (cleanupInterval_one now st x))
                  (allSessionIds st)) st
    = Ok (st', [])
    /\ (forall x, cleanupInterval_one now st x <> [] ->
          ~ In x (allSessionIds st')
          /\ obj_get (connectionPoolOpen st') x = None)
    /\ (forall x, cleanupInterval_one now st x = [] ->
          membersOf st' x = membersOf st x
          /\ obj_get (connectionPoolOpen st') x = obj_get (connectionPoolOpen st) x)
    /\ cleanupInterval now st' = [].
Proof.
  intros Hreach. destruct (reachable_well_formed st Hreach) as (Hnd & _ & _).
  destruct (cleanup_then_closes_keys now st flag (allSessionIds st) Hnd st)
    as (st' & Hrun & Hgone & Hkept); [tauto|].
  assert (Hflagged : forall x, cleanupInterval_one now st x <> [] ->
                               In x (allSessionIds st)).
  { intros x Hx. destruct (cleanupInterval_one_cases now st x)
      as [|(s & t & _ & Hp & _)]; [contradiction|].
    apply obj_keys_get. congruence. }
  exists st'. split; [exact Hrun|]. split; [|split].
  - intros x Hx. destruct (Hgone x (Hflagged x Hx) Hx) as [Hp Ho].
    split; [|exact Ho]. unfold allSessionIds. rewrite obj_keys_get, Hp. tauto.
  - intros x Hx. destruct (Hkept x) as [Hp Ho]; [tauto|].
    split; [|exact Ho]. unfold membersOf. now rewrite Hp.
  - unfold cleanupInterval.
    assert (Hall : forall x, cleanupInterval_one now st' x = []).
    { intros x. destruct (cleanupInterval_one_cases now st x)
        as [Hnone|(s & t & Hone & _)].
      - destruct (Hkept x) as [Hp Ho]; [tauto|].
        now rewrite (cleanupInterval_one_local now st st' x Hp Ho).
      - destruct (Hgone x) as [Hp _]; [apply Hflagged | |]; try congruence.
        unfold cleanupInterval_one. now rewrite Hp. }
    induction (obj_keys (connectionPools st')) as [|k ks IHk]; [reflexivity|].
    cbn [flat_map]. now rewrite Hall, IHk.
Qed.

Lemma cleanup_then_closes_deletes_lone_sessions_witness :
  exists st',
    run (flat_map (fun x => closed_by x (fun _ => false)
                              (cleanupInterval_one 70000 (on_connection 0 "/s" 1%nat initial) x))
                  (allSessionIds (on_connection 0 "/s" 1%nat initial)))
        (on_connection 0 "/s" 1%nat initial)
    = Ok (st', [])
    /\ (forall x, cleanupInterval_one 70000 (on_connection 0 "/s" 1%nat initial) x <> [] ->
          ~ In x (allSessionIds st')
          /\ obj_get (connectionPoolOpen st') x = None)
    /\ (forall x, cleanupInterval_one 70000 (on_connection 0 "/s" 1%nat initial) x = [] ->
          membersOf st' x = membersOf (on_connection 0 "/s" 1%nat initial) x
          /\ obj_get (connectionPoolOpen st') x
             = obj_get (connectionPoolOpen (on_connection 0 "/s" 1%nat initial)) x)
    /\ cleanupInterval 70000 st' = [].
Proof.
  apply (cleanup_then_closes_deletes_lone_sessions 70000
           (on_connection 0 "/s" 1%nat initial) (fun _ => false)).
  exists [Connection 0 "/s" 1%nat], []. reflexivity.
Defined.

(** ** The gauges *)

Lemma gauges_run_counts evs :
  forall st st' acts a b,
    well_formed st -> run evs st = Ok (st', acts) ->
    gauges_run evs st {| connectionCounter := Some a; pipeCounter := Some b |}
    = {| connectionCounter := Some (a + getConnectionCount st' - getConnectionCount st);
         pipeCounter := Some (b + getPipeCount st' - getPipeCount st) |}.
Proof.
  induction evs as [|e evs IH]; intros st st' acts a b Hwf Hrun.
  - simpl in Hrun. injection Hrun as <- _. simpl. f_equal; f_equal; lia.
  - apply run_cons_inv in Hrun as (st1 & acts1 & acts2 & E & E2 & _).
    pose proof (well_formed_handle _ _ _ _ Hwf E) as Hwf1.
    cbn [gauges_run]. rewrite E.
    destruct e as [now u s|u s msg|u b0 s]; simpl in E; cbn [gauges_handle].
    + injection E as <- _.
      assert (Hp : getPipeCount (on_connection now u s st)
                   = getPipeCount st
                     + match obj_get (connectionPools st) u with
                       | Some _ => 0
                       | None => 1
                       end).
      { unfold on_connection, getPipeCount.
        destruct (obj_get (connectionPools st) u); cbn [pipeCount]; lia. }
      destruct (obj_get (connectionPools st) u);
        cbn [connectionCounter pipeCounter gauge_inc option_map];
        rewrite (IH _ st' acts2 _ _ Hwf1 E2), getConnectionCount_on_connection, Hp;
        f_equal; f_equal; lia.
    + destruct (on_message u s msg st); [|discriminate]. injection E as <- _.
      now apply (IH st st' acts2).
    + destruct (on_close_Ok _ _ _ _ _ _ E) as (pool & Hpool). rewrite Hpool.
      assert (Hp : getPipeCount st1
                   = getPipeCount st
                     - (if Z.of_nat (length (splice pool (indexOf pool s) 1)) =? 0
                        then 1 else 0)).
      { unfold on_close in E. rewrite Hpool in E. unfold getPipeCount.
        destruct (Z.of_nat (length (splice pool (indexOf pool s) 1)) =? 0);
          injection E as <- _; cbn [pipeCount]; lia. }
      destruct (Z.of_nat (length (splice pool (indexOf pool s) 1)) =? 0);
        cbn [connectionCounter pipeCounter gauge_dec option_map];
        rewrite (IH _ st' acts2 _ _ Hwf1 E2),
                (getConnectionCount_on_close _ _ _ _ _ _ Hwf E), Hp;
        f_equal; f_equal; lia.
Qed.

(** With metrics enabled, after every run from the empty registry that
    completes the gauge of active connections reads [getConnectionCount()]
    and the gauge of active pipes reads [getPipeCount()], the number of
    registered sessions; with metrics disabled both stay [undefined]. *)
Theorem gauges_track_registry evs st acts :
  run evs initial = Ok (st, acts) ->
  gauges_run evs initial (new_gauges true)
  = {| connectionCounter := Some (getConnectionCount st);
       pipeCounter := Some (getPipeCount st) |}
  /\ getPipeCount st = Z.of_nat (length (allSessionIds st))
  /\ gauges_run evs initial (new_gauges false) = new_gauges false.
Proof.
  intros Hrun. split; [|split].
  - cbn [new_gauges].
    rewrite (gauges_run_counts evs initial st acts 0 0 well_formed_initial Hrun).
    change (getConnectionCount initial) with 0. change (getPipeCount initial) with 0.
    f_equal; f_equal; lia.
  - apply reachable_pipeCount. now exists evs, acts.
  - clear Hrun. generalize initial. induction evs as [|e evs IH]; intros st0; [reflexivity|].
    cbn [gauges_run]. destruct (handle e st0) as [[st1 acts1]|]; [|reflexivity].
    replace (gauges_handle e st0 (new_gauges false)) with (new_gauges false); [apply IH|].
    destruct e as [now u s|u s msg|u b s]; cbn [gauges_handle new_gauges
      connectionCounter pipeCounter gauge_inc gauge_dec option_map]; try reflexivity.
    + now destruct (obj_get (connectionPools st0) u).
    + destruct (obj_get (connectionPools st0) u) as [pool|]; [|reflexivity].
      now destruct (Z.of_nat (length (splice pool (indexOf pool s) 1)) =? 0).
Qed.

Lemma gauges_track_registry_witness :
  gauges_run [Connection 0 "/s" 1%nat; Connection 5 "/s" 2%nat; Closed "/s" false 1%nat]
             initial (new_gauges true)
  = {| connectionCounter :=
         Some (getConnectionCount (mkState [("/s"%string, [2%nat])] [("/s"%string, 0)] 1));
       pipeCounter :=
         Some (getPipeCount (mkState [("/s"%string, [2%nat])] [("/s"%string, 0)] 1)) |}
  /\ getPipeCount (mkState [("/s"%string, [2%nat])] [("/s"%string, 0)] 1)
     = Z.of_nat (length (allSessionIds
                           (mkState [("/s"%string, [2%nat])] [("/s"%string, 0)] 1)))
  /\ gauges_run [Connection 0 "/s" 1%nat; Connection 5 "/s" 2%nat; Closed "/s" false 1%nat]
                initial (new_gauges false)
     = new_gauges false.
Proof.
  apply (gauges_track_registry
           [Connection 0 "/s" 1%nat; Connection 5 "/s" 2%nat; Closed "/s" false 1%nat]
           (mkState [("/s"%string, [2%nat])] [("/s"%string, 0)] 1) []).
  reflexivity.
Defined.

(** ** Counts and the restart action *)

Lemma pools_at_least_one_member (pools : object (list WebSocket)) :
  (forall k pool, In (k, pool) pools -> pool <> []) ->
  (length pools <= length (flat_map (fun entry => map (pair (fst entry)) (snd entry)) pools))%nat.
Proof.
  induction pools as [|[k pool] pools IH]; intros Hne; [simpl; lia|].
  cbn [flat_map fst snd length]. rewrite length_app, length_map.
  assert (pool <> []) by (apply (Hne k); now left).
  destruct pool; [congruence|].
  specialize (IH (fun k' p' H' => Hne k' p' (or_intror H'))). simpl. lia.
Qed.

(** In every state reached from the empty registry there are at least as
    many connections as sessions, and there is no connection exactly when
    there is no session. *)
Theorem connections_and_pipes st :
  reachable st ->
  0 <= getPipeCount st <= getConnectionCount st
  /\ (getConnectionCount st = 0 <-> getPipeCount st = 0)
  /\ (getPipeCount st = 0 <-> allSessionIds st = []).
Proof.
  intros Hreach. pose proof (reachable_well_formed st Hreach) as Hwf.
  destruct Hwf as (Hnd & Hne & Hopen).
  rewrite (reachable_pipeCount st Hreach), getConnectionCount_memberships.
  assert (Hle : (length (allSessionIds st) <= length (memberships st))%nat).
  { unfold allSessionIds, obj_keys, memberships. rewrite length_map.
    apply pools_at_least_one_member. intros k pool Hin.
    apply (Hne k). now apply obj_get_In. }
  assert (Hzero : length (memberships st) = 0%nat -> length (allSessionIds st) = 0%nat).
  { intros H0. apply length_zero_iff_nil in H0.
    unfold allSessionIds.
    now rewrite (memberships_nil st (conj Hnd (conj Hne Hopen)) H0). }
  assert (Hzero' : length (allSessionIds st) = 0%nat -> length (memberships st) = 0%nat).
  { intros H0. apply length_zero_iff_nil in H0.
    unfold allSessionIds, obj_keys in H0. apply map_eq_nil in H0.
    unfold memberships. now rewrite H0. }
  split; [lia|]. split; [split; lia|].
  split; intros H.
  - apply length_zero_iff_nil. lia.
  - now rewrite H.
Qed.

Lemma connections_and_pipes_witness :
  0 <= getPipeCount (on_connection 0 "/s" 1%nat initial)
    <= getConnectionCount (on_connection 0 "/s" 1%nat initial)
  /\ (getConnectionCount (on_connection 0 "/s" 1%nat initial) = 0
      <-> getPipeCount (on_connection 0 "/s" 1%nat initial) = 0)
  /\ (getPipeCount (on_connection 0 "/s" 1%nat initial) = 0
      <-> allSessionIds (on_connection 0 "/s" 1%nat initial) = []).
Proof.
  apply (connections_and_pipes (on_connection 0 "/s" 1%nat initial)).
  exists [Connection 0 "/s" 1%nat], []. reflexivity.
Defined.

(** The [schedule-restart] action exits at once exactly when no session is
    registered, which is when no connection is open; otherwise it only sets
    [awaitingRestart] and answers that the restart is scheduled. *)
Theorem schedule_restart_exits_when_idle st awaiting :
  reachable st ->
  (exits (schedule_restart st awaiting) = true <-> allSessionIds st = [])
  /\ (exits (schedule_restart st awaiting) = true <-> getConnectionCount st = 0)
  /\ (allSessionIds st = [] ->
      reply (schedule_restart st awaiting) = js "Exiting NOW!"
      /\ awaitingRestart (schedule_restart st awaiting) = awaiting)
  /\ (allSessionIds st <> [] ->
      reply (schedule_restart st awaiting)
      = js "Restart scheduled - waiting for all pipes to close."
      /\ awaitingRestart (schedule_restart st awaiting) = true).
Proof.
  intros Hreach. pose proof (reachable_well_formed st Hreach) as Hwf.
  assert (Hpipe : getPipeCount st = 0 <-> allSessionIds st = []).
  { rewrite (reachable_pipeCount st Hreach). split; intros H.
    - apply length_zero_iff_nil. lia.
    - now rewrite H. }
  assert (Hconn : getConnectionCount st = 0 <-> allSessionIds st = []).
  { rewrite getConnectionCount_memberships. split; intros H.
    - unfold allSessionIds. rewrite (memberships_nil st Hwf); [reflexivity|].
      apply length_zero_iff_nil. lia.
    - unfold memberships. unfold allSessionIds, obj_keys in H.
      apply map_eq_nil in H. now rewrite H. }
  unfold schedule_restart. destruct (Z.eqb_spec (getPipeCount st) 0) as [H0|H0];
    cbn [exits reply awaitingRestart].
  - assert (Hnil : allSessionIds st = []) by now apply Hpipe.
    split; [tauto|]. split; [split; intros _; [now apply Hconn | reflexivity]|].
    split; [auto | tauto].
  - assert (Hsome : allSessionIds st <> []) by (intros H; apply H0, Hpipe, H).
    split; [split; [discriminate | tauto]|].
    split; [split; [discriminate | intros H; exfalso; apply Hsome, Hconn, H]|].
    split; [tauto | auto].
Qed.

Lemma schedule_restart_exits_when_idle_witness :
  (exits (schedule_restart (on_connection 0 "/s" 1%nat initial) false) = true
   <-> allSessionIds (on_connection 0 "/s" 1%nat initial) = [])
  /\ (exits (schedule_restart (on_connection 0 "/s" 1%nat initial) false) = true
      <-> getConnectionCount (on_connection 0 "/s" 1%nat initial) = 0)
  /\ (allSessionIds (on_connection 0 "/s" 1%nat initial) = [] ->
      reply (schedule_restart (on_connection 0 "/s" 1%nat initial) false)
      = js "Exiting NOW!"
      /\ awaitingRestart (schedule_restart (on_connection 0 "/s" 1%nat initial) false)
         = false)
  /\ (allSessionIds (on_connection 0 "/s" 1%nat initial) <> [] ->
      reply (schedule_restart (on_connection 0 "/s" 1%nat initial) false)
      = js "Restart scheduled - waiting for all pipes to close."
      /\ awaitingRestart (schedule_restart (on_connection 0 "/s" 1%nat initial) false)
         = true).
Proof.
  apply (schedule_restart_exits_when_idle (on_connection 0 "/s" 1%nat initial) false).
  exists [Connection 0 "/s" 1%nat], []. reflexivity.
Defined.

(** ** Base64 decodes back *)

Lemma land_shiftl_small x k y : 0 <= k -> 0 <= y < 2 ^ k -> Z.land (Z.shiftl x k) y = 0.
Proof.
  intros Hk Hy. apply Z.bits_inj'. intros i Hi. rewrite Z.land_spec, Z.bits_0.
  destruct (Z_lt_le_dec i k) as [Hlt|Hge].
  - now rewrite Z.shiftl_spec_low.
  - rewrite <- (Z.mod_small y (2 ^ k)) by assumption.
    rewrite Z.mod_pow2_bits_high by lia. apply andb_false_r.
Qed.

(** Or-ing a small number under a shifted one is adding it. *)
Lemma lor_shiftl_add x k y :
  0 <= k -> 0 <= y < 2 ^ k -> Z.lor (Z.shiftl x k) y = x * 2 ^ k + y.
Proof.
  intros Hk Hy. pose proof (land_shiftl_small x k y Hk Hy) as Hland.
  rewrite <- Z.lxor_lor, <- Z.add_nocarry_lxor by assumption.
  now rewrite Z.shiftl_mul_pow2.
Qed.

Lemma land_low a (k : Z) : 0 <= k -> Z.land a (2 ^ k - 1) = a mod 2 ^ k.
Proof.
  intros Hk. replace (2 ^ k - 1) with (Z.ones k); [now apply Z.land_ones|].
  rewrite Z.ones_equiv. lia.
Qed.

(** The four alphabet indices of a group of three bytes, as arithmetic. *)
Lemma base64_indices a b c :
  0 <= a < 256 -> 0 <= b < 256 -> 0 <= c < 256 ->
  Z.shiftr a 2 = a / 4
  /\ Z.lor (Z.shiftl (Z.land a 3) 4) (Z.shiftr b 4) = a mod 4 * 16 + b / 16
  /\ Z.lor (Z.shiftl (Z.land b 15) 2) (Z.shiftr c 6) = b mod 16 * 4 + c / 64
  /\ Z.land c 63 = c mod 64
  /\ Z.shiftl (Z.land a 3) 4 = a mod 4 * 16
  /\ Z.shiftl (Z.land b 15) 2 = b mod 16 * 4.
Proof.
  intros Ha Hb Hc.
  rewrite !Z.shiftr_div_pow2 by lia.
  change (Z.land a 3) with (Z.land a (2 ^ 2 - 1)).
  change (Z.land b 15) with (Z.land b (2 ^ 4 - 1)).
  change (Z.land c 63) with (Z.land c (2 ^ 6 - 1)).
  rewrite (land_low a 2), (land_low b 4), (land_low c 6) by lia.
  change (2 ^ 2) with 4. change (2 ^ 4) with 16. change (2 ^ 6) with 64.
  assert (0 <= b / 16 < 16) by (split; [apply Z.div_pos | apply Z.div_lt_upper_bound]; lia).
  assert (0 <= c / 64 < 4) by (split; [apply Z.div_pos | apply Z.div_lt_upper_bound]; lia).
  rewrite !lor_shiftl_add by (change (2 ^ 4) with 16; change (2 ^ 2) with 4; lia).
  rewrite !Z.shiftl_mul_pow2 by lia.
  change (2 ^ 2) with 4. change (2 ^ 4) with 16.
  repeat split; reflexivity.
Qed.

Lemma b64index_b64char i : 0 <= i < 64 -> b64index (b64char i) = i.
Proof.
  intros Hi.
  assert (Hall : forallb (fun n => b64index (b64char (Z.of_nat n)) =? Z.of_nat n)
                         (seq 0 64) = true) by (vm_compute; reflexivity).
  rewrite forallb_forall in Hall. specialize (Hall (Z.to_nat i)).
  rewrite Z2Nat.id in Hall by lia. apply Z.eqb_eq, Hall, in_seq. lia.
Qed.

(** What the decoder computes from four indices. *)
Lemma base64_decode_bytes i0 i1 i2 i3 :
  0 <= i0 < 64 -> 0 <= i1 < 64 -> 0 <= i2 < 64 -> 0 <= i3 < 64 ->
  Z.lor (Z.shiftl i0 2) (Z.shiftr i1 4) = i0 * 4 + i1 / 16
  /\ Z.lor (Z.shiftl (Z.land i1 15) 4) (Z.shiftr i2 2) = i1 mod 16 * 16 + i2 / 4
  /\ Z.lor (Z.shiftl (Z.land i2 3) 6) i3 = i2 mod 4 * 64 + i3.
Proof.
  intros H0 H1 H2 H3.
  rewrite !Z.shiftr_div_pow2 by lia.
  change (Z.land i1 15) with (Z.land i1 (2 ^ 4 - 1)).
  change (Z.land i2 3) with (Z.land i2 (2 ^ 2 - 1)).
  rewrite (land_low i1 4), (land_low i2 2) by lia.
  change (2 ^ 2) with 4. change (2 ^ 4) with 16.
  assert (0 <= i1 / 16 < 4) by (split; [apply Z.div_pos | apply Z.div_lt_upper_bound]; lia).
  assert (0 <= i2 / 4 < 16) by (split; [apply Z.div_pos | apply Z.div_lt_upper_bound]; lia).
  rewrite !lor_shiftl_add
    by (change (2 ^ 2) with 4; change (2 ^ 4) with 16; change (2 ^ 6) with 64; lia).
  change (2 ^ 2) with 4. change (2 ^ 4) with 16. change (2 ^ 6) with 64.
  repeat split; reflexivity.
Qed.

(** Decoding the base64 text of a buffer of bytes gives the buffer back. *)
Lemma base64_decode_base64 buf :
  Forall (fun b => 0 <= b < 256) buf -> base64_decode (base64 buf) = buf.
Proof.
  induction buf as [|a|a b|a b c rest IH] using list_ind3; intros Hbytes.
  - reflexivity.
  - inversion Hbytes as [|? ? Ha _]; subst.
    destruct (base64_indices a 0 0 Ha) as (E0 & _ & _ & _ & E1 & _); try lia.
    cbn [base64 base64_decode]. rewrite Z.eqb_refl, E0, E1.
    assert (H0 : 0 <= a / 4 < 64) by (split; [apply Z.div_pos | apply Z.div_lt_upper_bound]; lia).
    assert (H1 : 0 <= a mod 4 * 16 < 64) by (pose proof (Z.mod_pos_bound a 4); lia).
    rewrite !b64index_b64char by assumption.
    destruct (base64_decode_bytes (a / 4) (a mod 4 * 16) 0 0) as (D0 & _); try lia.
    rewrite D0. f_equal. rewrite Z.div_mul by lia.
    pose proof (Z.div_mod a 4). lia.
  - inversion Hbytes as [|? ? Ha Hb']; subst. inversion Hb' as [|? ? Hb _]; subst.
    destruct (base64_indices a b 0 Ha Hb) as (E0 & E1 & _ & _ & _ & E2); try lia.
    cbn [base64 base64_decode]. rewrite E0, E1, E2.
    assert (H0 : 0 <= a / 4 < 64) by (split; [apply Z.div_pos | apply Z.div_lt_upper_bound]; lia).
    assert (H1 : 0 <= a mod 4 * 16 + b / 16 < 64).
    { pose proof (Z.mod_pos_bound a 4).
      assert (0 <= b / 16 < 16) by (split; [apply Z.div_pos | apply Z.div_lt_upper_bound]; lia).
      lia. }
    assert (H2 : 0 <= b mod 16 * 4 < 64) by (pose proof (Z.mod_pos_bound b 16); lia).
    destruct (Z.eqb_spec (b64char (b mod 16 * 4)) 61) as [Hpad|_];
      [now apply b64char_not_pad in Hpad|].
    rewrite Z.eqb_refl, !b64index_b64char by assumption.
    destruct (base64_decode_bytes (a / 4) (a mod 4 * 16 + b / 16) (b mod 16 * 4) 0)
      as (D0 & D1 & _); try lia.
    rewrite D0, D1. f_equal; [|f_equal]; Z.div_mod_to_equations; lia.
  - inversion Hbytes as [|? ? Ha Hb']; subst. inversion Hb' as [|? ? Hb Hc']; subst.
    inversion Hc' as [|? ? Hc Hrest]; subst.
    destruct (base64_indices a b c Ha Hb Hc) as (E0 & E1 & E2 & E3 & _ & _).
    cbn [base64 base64_decode]. rewrite E0, E1, E2, E3.
    assert (H0 : 0 <= a / 4 < 64) by (split; [apply Z.div_pos | apply Z.div_lt_upper_bound]; lia).
    assert (H1 : 0 <= a mod 4 * 16 + b / 16 < 64).
    { pose proof (Z.mod_pos_bound a 4).
      assert (0 <= b / 16 < 16) by (split; [apply Z.div_pos | apply Z.div_lt_upper_bound]; lia).
      lia. }
    assert (H2 : 0 <= b mod 16 * 4 + c / 64 < 64).
    { pose proof (Z.mod_pos_bound b 16).
      assert (0 <= c / 64 < 4) by (split; [apply Z.div_pos | apply Z.div_lt_upper_bound]; lia).
      lia. }
    assert (H3 : 0 <= c mod 64 < 64) by (apply Z.mod_pos_bound; lia).
    destruct (Z.eqb_spec (b64char (b mod 16 * 4 + c / 64)) 61) as [Hpad|_];
      [now apply b64char_not_pad in Hpad|].
    destruct (Z.eqb_spec (b64char (c mod 64)) 61) as [Hpad|_];
      [now apply b64char_not_pad in Hpad|].
    rewrite !b64index_b64char by assumption.
    destruct (base64_decode_bytes (a / 4) (a mod 4 * 16 + b / 16)
                                  (b mod 16 * 4 + c / 64) (c mod 64))
      as (D0 & D1 & D2); try assumption.
    rewrite D0, D1, D2, IH by assumption.
    f_equal; [|f_equal; [|f_equal]]; Z.div_mod_to_equations; lia.
Qed.

(** ** Tokens *)

Lemma list_ind4 (A : Type) (P : list A -> Prop) :
  P [] -> (forall a, P [a]) -> (forall a b, P [a; b]) -> (forall a b c, P [a; b; c]) ->
  (forall a b c d l, P l -> P (a :: b :: c :: d :: l)) ->
  forall l, P l.
Proof.
  intros H0 H1 H2 H3 H4.
  fix IH 1. intros [|a [|b [|c [|d l]]]].
  - exact H0.
  - apply H1.
  - apply H2.
  - apply H3.
  - apply H4, IH.
Qed.

Lemma b64index_url_safe_spelling x :
  b64index (if (if x =? 47 then 95 else x) =? 43 then 45 else if x =? 47 then 95 else x)
  = b64index x.
Proof.
  destruct (Z.eqb_spec x 47) as [->|H47]; [reflexivity|].
  destruct (Z.eqb_spec x 43) as [->|H43]; reflexivity.
Qed.

Lemma pad_url_safe_spelling x :
  ((if (if x =? 47 then 95 else x) =? 43 then 45 else if x =? 47 then 95 else x) =? 61)
  = (x =? 61).
Proof.
  destruct (Z.eqb_spec x 47) as [->|H47]; [reflexivity|].
  destruct (Z.eqb_spec x 43) as [->|H43]; reflexivity.
Qed.

(** The decoder reads the URL-safe spelling as the standard one. *)
Lemma base64_decode_url_safe s :
  base64_decode (replace_all (replace_all s 47 95) 43 45) = base64_decode s.
Proof.
  unfold replace_all. rewrite map_map.
  induction s as [|a|a b|a b c|a b c d l IH] using list_ind4; try reflexivity.
  cbn [map base64_decode].
  rewrite !b64index_url_safe_spelling, !pad_url_safe_spelling, IH. reflexivity.
Qed.

Lemma b64char_url_safe i :
  0 <= i < 64 ->
  is_url_safe (if (if b64char i =? 47 then 95 else b64char i) =? 43 then 45
               else if b64char i =? 47 then 95 else b64char i) = true.
Proof.
  intros Hi.
  assert (Hall : forallb
                   (fun n =>
                      let c := b64char (Z.of_nat n) in
                      is_url_safe (if (if c =? 47 then 95 else c) =? 43 then 45
                                   else if c =? 47 then 95 else c))
                   (seq 0 64) = true) by (vm_compute; reflexivity).
  rewrite forallb_forall in Hall. specialize (Hall (Z.to_nat i)).
  cbv zeta in Hall. rewrite Z2Nat.id in Hall by lia. apply Hall, in_seq. lia.
Qed.

(** Every character of the base64 text of bytes is the padding character or
    a character of the alphabet. *)
Lemma base64_chars buf :
  Forall (fun b => 0 <= b < 256) buf ->
  Forall (fun ch => ch = 61 \/ exists i, 0 <= i < 64 /\ ch = b64char i) (base64 buf).
Proof.
  induction buf as [|a|a b|a b c rest IH] using list_ind3; intros Hbytes.
  - constructor.
  - inversion Hbytes as [|? ? Ha _]; subst.
    destruct (base64_indices a 0 0 Ha) as (E0 & _ & _ & _ & E1 & _); try lia.
    cbn [base64]. rewrite E0, E1.
    assert (H0 : 0 <= a / 4 < 64) by (split; [apply Z.div_pos | apply Z.div_lt_upper_bound]; lia).
    assert (H1 : 0 <= a mod 4 * 16 < 64) by (pose proof (Z.mod_pos_bound a 4); lia).
    repeat first [apply Forall_nil | apply Forall_cons];
      try (left; reflexivity); right; eauto.
  - inversion Hbytes as [|? ? Ha Hb']; subst. inversion Hb' as [|? ? Hb _]; subst.
    destruct (base64_indices a b 0 Ha Hb) as (E0 & E1 & _ & _ & _ & E2); try lia.
    cbn [base64]. rewrite E0, E1, E2.
    assert (H0 : 0 <= a / 4 < 64) by (split; [apply Z.div_pos | apply Z.div_lt_upper_bound]; lia).
    assert (H1 : 0 <= a mod 4 * 16 + b / 16 < 64).
    { pose proof (Z.mod_pos_bound a 4).
      assert (0 <= b / 16 < 16) by (split; [apply Z.div_pos | apply Z.div_lt_upper_bound]; lia).
      lia. }
    assert (H2 : 0 <= b mod 16 * 4 < 64) by (pose proof (Z.mod_pos_bound b 16); lia).
    repeat first [apply Forall_nil | apply Forall_cons];
      try (left; reflexivity); right; eauto.
  - inversion Hbytes as [|? ? Ha Hb']; subst. inversion Hb' as [|? ? Hb Hc']; subst.
    inversion Hc' as [|? ? Hc Hrest]; subst.
    destruct (base64_indices a b c Ha Hb Hc) as (E0 & E1 & E2 & E3 & _ & _).
    cbn [base64]. rewrite E0, E1, E2, E3.
    assert (H0 : 0 <= a / 4 < 64) by (split; [apply Z.div_pos | apply Z.div_lt_upper_bound]; lia).
    assert (H1 : 0 <= a mod 4 * 16 + b / 16 < 64).
    { pose proof (Z.mod_pos_bound a 4).
      assert (0 <= b / 16 < 16) by (split; [apply Z.div_pos | apply Z.div_lt_upper_bound]; lia).
      lia. }
    assert (H2 : 0 <= b mod 16 * 4 + c / 64 < 64).
    { pose proof (Z.mod_pos_bound b 16).
      assert (0 <= c / 64 < 4) by (split; [apply Z.div_pos | apply Z.div_lt_upper_bound]; lia).
      lia. }
    assert (H3 : 0 <= c mod 64 < 64) by (apply Z.mod_pos_bound; lia).
    repeat (apply Forall_cons; [right; eauto|]). now apply IH.
Qed.

Lemma makeID_buf_range random : Forall (fun b => 0 <= b < 256) (makeID_buf random).
Proof.
  rewrite makeID_buf_bytes. apply Forall_forall. intros b Hb.
  apply in_map_iff in Hb as (i & <- & _). apply Z.mod_pos_bound. lia.
Qed.

(** A token is made of letters, digits, ['-'] and ['_'] only, whatever the
    random draws are: it can stand in a URL path as it is. *)
Theorem makeID_alphabet random :
  Forall (fun ch => is_url_safe ch = true) (makeID random).
Proof.
  unfold makeID, replace_all. rewrite map_map. apply Forall_forall.
  intros ch Hch. rewrite in_map_iff in Hch. destruct Hch as (c0 & Hc & Hc0). subst ch.
  pose proof (base64_chars (makeID_buf random) (makeID_buf_range random)) as Hchars.
  rewrite Forall_forall in Hchars. cbv beta.
  destruct (Hchars c0 Hc0) as [Hpad|(i & Hi & Hchar)].
  - subst c0.
    assert (Hlen : (length (makeID_buf random) mod 3 = 0)%nat)
      by (rewrite makeID_buf_bytes, length_map, length_seq; reflexivity).
    destruct (base64_no_pad (makeID_buf random) Hlen Hc0).
  - rewrite Hchar. exact (b64char_url_safe i Hi).
Qed.

(** A token determines its 30 bytes: decoding it as base64 gives the bytes
    the loop stored, so two tokens are equal only if all their bytes are. *)
Theorem makeID_decodes random random' :
  base64_decode (makeID random) = makeID_buf random
  /\ (makeID random = makeID random' <-> makeID_buf random = makeID_buf random').
Proof.
  assert (Hdec : forall r, base64_decode (makeID r) = makeID_buf r).
  { intros r. unfold makeID. rewrite base64_decode_url_safe.
    apply base64_decode_base64, makeID_buf_range. }
  split; [apply Hdec|]. split.
  - intros Heq. rewrite <- (Hdec random), <- (Hdec random'). now f_equal.
  - intros Heq. unfold makeID. now rewrite Heq.
Qed.

(** ** Events in order raise no error *)

Lemma same_pair_eq p q : same_pair p q = true <-> p = q.
Proof.
  destruct p as [u s], q as [v t]. unfold same_pair. cbn [fst snd].
  rewrite andb_true_iff, String.eqb_eq, Nat.eqb_eq. split.
  - intros [-> ->]. reflexivity.
  - intros [= -> ->]. auto.
Qed.

Lemma existsb_same_pair p open : existsb (same_pair p) open = true <-> In p open.
Proof.
  rewrite existsb_exists. split.
  - intros (q & Hq & Heq). apply same_pair_eq in Heq. now subst.
  - intros Hp. exists p. split; [assumption | now apply same_pair_eq].
Qed.

Lemma take_out_Permutation p open :
  In p open -> Permutation open (p :: take_out p open).
Proof.
  induction open as [|q open IH]; [intros []|]. intros Hin. cbn [take_out].
  destruct (same_pair p q) eqn:E.
  - apply same_pair_eq in E. now subst.
  - destruct Hin as [->|Hin].
    + assert (same_pair p p = true) by now apply same_pair_eq. congruence.
    + rewrite (IH Hin) at 1. apply perm_swap.
Qed.

Lemma run_orderly evs :
  forall st open,
    well_formed st -> Permutation (memberships st) open -> NoDup (map snd open) ->
    orderly open evs = true ->
    exists st' acts,
      run evs st = Ok (st', acts) /\ Permutation (memberships st') (open_after open evs).
Proof.
  induction evs as [|e evs IH]; intros st open Hwf Hperm Hnd Hord.
  - exists st, []. split; [reflexivity | exact Hperm].
  - destruct e as [now u s|u s msg|u b s]; cbn [orderly open_after] in *;
      apply andb_true_iff in Hord as [Hhere Hord].
    + destruct (IH (on_connection now u s st) ((u, s) :: open)) as (st' & acts & Hrun & Hp).
      * now apply well_formed_on_connection.
      * rewrite memberships_on_connection. now constructor.
      * cbn [map snd]. constructor; [|exact Hnd].
        intros Hin. apply negb_true_iff in Hhere.
        assert (Hex : existsb (Nat.eqb s) (map snd open) = true).
        { apply existsb_exists. exists s. split; [assumption | apply Nat.eqb_refl]. }
        congruence.
      * exact Hord.
      * exists st', acts. split; [|exact Hp]. cbn [run handle]. now rewrite Hrun.
    + apply existsb_same_pair in Hhere.
      apply (Permutation_in _ (Permutation_sym Hperm)) in Hhere.
      apply memberships_In in Hhere as (pool & Hpool & _).
      apply (obj_get_In _ _ _ _ (proj1 Hwf)) in Hpool.
      destruct (IH st open Hwf Hperm Hnd Hord) as (st' & acts & Hrun & Hp).
      eexists st', _. split; [|exact Hp].
      cbn [run handle]. unfold on_message. rewrite Hpool, Hrun. reflexivity.
    + apply existsb_same_pair in Hhere.
      pose proof (Permutation_in _ (Permutation_sym Hperm) Hhere) as Hmem.
      pose proof Hmem as Hmember.
      apply (memberships_membersOf st u s (proj1 Hwf)) in Hmember.
      apply memberships_In in Hmem as (pool & Hpool & _).
      apply (obj_get_In _ _ _ _ (proj1 Hwf)) in Hpool.
      destruct (on_close_present u b s st pool Hpool) as (st1 & Hclose & _).
      destruct (memberships_on_close _ _ _ _ _ _ Hwf Hclose) as (gone & Hgone & Hsame).
      rewrite (Hsame Hmember) in Hgone.
      assert (Hperm1 : Permutation ((u, s) :: memberships st1)
                                   ((u, s) :: take_out (u, s) open)).
      { rewrite Hgone, Hperm. now apply take_out_Permutation. }
      apply Permutation_cons_inv in Hperm1.
      destruct (IH st1 (take_out (u, s) open)) as (st' & acts & Hrun & Hp).
      * exact (well_formed_handle (Closed u b s) _ _ _ Hwf Hclose).
      * exact Hperm1.
      * assert (Hnd1 : NoDup (map snd ((u, s) :: take_out (u, s) open))).
        { apply (Permutation_NoDup (l := map snd open)); [|exact Hnd].
          apply Permutation_map. now apply take_out_Permutation. }
        now inversion Hnd1.
      * exact Hord.
      * eexists st', _. split; [|exact Hp].
        cbn [run handle]. rewrite Hclose, Hrun. reflexivity.
Qed.

Lemma orderly_app pre post :
  forall open, orderly open (pre ++ post) = true -> orderly open pre = true.
Proof.
  induction pre as [|e pre IH]; intros open; [reflexivity|].
  destruct e as [now u s|u s msg|u b s]; cbn [app orderly];
    rewrite !andb_true_iff; intros [Hhere Hrest]; (split; [exact Hhere|]);
    now apply IH.
Qed.

(** C8.  For every finite sequence of joins and leaves replayed from the
    empty registry, the events coming as the transport delivers them (a
    leave is the close of a socket that joined and has not left yet), and
    for every session identifier: the replay raises no error, and after
    every prefix of it, so also at its end, the member count of the session
    is the number of joins minus the number of leaves performed on it so
    far, and is not negative. *)
Theorem member_count_is_joins_minus_leaves url pre post :
  orderly [] (pre ++ post) = true ->
  exists st1 acts1 st acts,
    run pre initial = Ok (st1, acts1)
    /\ memberCount st1 url = joins url pre - leaves url pre
    /\ 0 <= memberCount st1 url
    /\ 0 <= joins url pre - leaves url pre
    /\ run (pre ++ post) initial = Ok (st, acts)
    /\ memberCount st url = joins url (pre ++ post) - leaves url (pre ++ post)
    /\ 0 <= memberCount st url.
Proof.
  intros Hord.
  destruct (run_orderly (pre ++ post) initial [] well_formed_initial
              (Permutation_refl _) (NoDup_nil _) Hord) as (st & acts & Hrun & _).
  destruct (run_orderly pre initial [] well_formed_initial
              (Permutation_refl _) (NoDup_nil _) (orderly_app pre post [] Hord))
    as (st1 & acts1 & Hrun1 & _).
  pose proof (memberCount_run url pre initial st1 acts1 well_formed_initial Hrun1) as H1.
  pose proof (memberCount_run url _ initial st acts well_formed_initial Hrun) as H.
  assert (Hzero : memberCount initial url = 0) by reflexivity.
  exists st1, acts1, st, acts.
  assert (Hpos : forall s, 0 <= memberCount s url) by (intros s; unfold memberCount; lia).
  split; [exact Hrun1|]. split; [lia|]. split; [apply Hpos|].
  split; [specialize (Hpos st1); lia|].
  split; [exact Hrun|]. split; [lia | apply Hpos].
Qed.

Lemma member_count_is_joins_minus_leaves_witness :
  exists st1 acts1 st acts,
    run [Connection 0 "/s" 1%nat; Connection 5 "/s" 2%nat] initial = Ok (st1, acts1)
    /\ memberCount st1 "/s"
       = joins "/s" [Connection 0 "/s" 1%nat; Connection 5 "/s" 2%nat]
         - leaves "/s" [Connection 0 "/s" 1%nat; Connection 5 "/s" 2%nat]
    /\ 0 <= memberCount st1 "/s"
    /\ 0 <= joins "/s" [Connection 0 "/s" 1%nat; Connection 5 "/s" 2%nat]
            - leaves "/s" [Connection 0 "/s" 1%nat; Connection 5 "/s" 2%nat]
    /\ run ([Connection 0 "/s" 1%nat; Connection 5 "/s" 2%nat]
              ++ [Closed "/s" false 1%nat]) initial = Ok (st, acts)
    /\ memberCount st "/s"
       = joins "/s" ([Connection 0 "/s" 1%nat; Connection 5 "/s" 2%nat]
                       ++ [Closed "/s" false 1%nat])
         - leaves "/s" ([Connection 0 "/s" 1%nat; Connection 5 "/s" 2%nat]
                          ++ [Closed "/s" false 1%nat])
    /\ 0 <= memberCount st "/s".
Proof.
  apply (member_count_is_joins_minus_leaves "/s"
           [Connection 0 "/s" 1%nat; Connection 5 "/s" 2%nat]
           [Closed "/s" false 1%nat]).
  reflexivity.
Defined.

(** When the transport delivers its events in order (every socket connects
    once, and its messages and its one close come while it is open, under the
    path it connected with), no handler raises an error, and after the run
    the registry holds exactly the sockets that are open, each in the session
    of its path. *)
Theorem orderly_run_raises_no_error evs :
  orderly [] evs = true ->
  exists st acts,
    run evs initial = Ok (st, acts)
    /\ Permutation (memberships st) (open_after [] evs).
Proof.
  intros Hord. apply (run_orderly evs initial []).
  - exact well_formed_initial.
  - reflexivity.
  - constructor.
  - exact Hord.
Qed.

Lemma orderly_run_raises_no_error_witness :
  exists st acts,
    run [Connection 0 "/s" 1%nat; Connection 1 "/s" 2%nat; Message "/s" 1%nat [104];
         Closed "/s" false 1%nat] initial = Ok (st, acts)
    /\ Permutation (memberships st)
         (open_after [] [Connection 0 "/s" 1%nat; Connection 1 "/s" 2%nat;
                         Message "/s" 1%nat [104]; Closed "/s" false 1%nat]).
Proof.
  apply (orderly_run_raises_no_error
           [Connection 0 "/s" 1%nat; Connection 1 "/s" 2%nat; Message "/s" 1%nat [104];
            Closed "/s" false 1%nat]).
  reflexivity.
Defined.

(** ** The text in the broadcast record *)

Lemma lor_byte a b : 0 <= a < 256 -> 0 <= b < 256 -> 0 <= Z.lor a b < 256.
Proof.
  intros Ha Hb. split; [apply Z.lor_nonneg; lia|].
  destruct (Z.eq_dec (Z.lor a b) 0) as [->|Hne]; [lia|].
  assert (Hpos : 0 < Z.lor a b) by (pose proof (proj2 (Z.lor_nonneg a b)); lia).
  change 256 with (2 ^ 8). apply Z.log2_lt_pow2; [assumption|].
  rewrite Z.log2_lor by lia.
  assert (Hlog : forall x, 0 <= x < 256 -> Z.log2 x < 8).
  { intros x Hx. destruct (Z.eq_dec x 0) as [->|]; [reflexivity|].
    apply Z.log2_lt_pow2; [lia|]. change (2 ^ 8) with 256. lia. }
  apply Z.max_lub_lt; now apply Hlog.
Qed.

Lemma land_63 x : 0 <= Z.land x 63 < 64.
Proof.
  change 63 with (2 ^ 6 - 1). rewrite land_low by lia. apply Z.mod_pos_bound. lia.
Qed.

Lemma continuation_byte x : 0 <= Z.lor 0x80 (Z.land x 0x3F) < 256.
Proof. pose proof (land_63 x). apply lor_byte; lia. Qed.

Lemma shiftr_range x k n : 0 <= k -> 0 <= x < n * 2 ^ k -> 0 <= Z.shiftr x k < n.
Proof.
  intros Hk Hx. rewrite Z.shiftr_div_pow2 by assumption.
  assert (0 < 2 ^ k) by (apply Z.pow_pos_nonneg; lia).
  split; [apply Z.div_pos; lia | apply Z.div_lt_upper_bound; lia].
Qed.

(** The UTF-8 bytes of UTF-16 code units are bytes. *)
Lemma utf8_chars_bytes s :
  Forall (fun c => 0 <= c < 65536) s ->
  Forall (Forall (fun b => 0 <= b < 256)) (utf8_chars s).
Proof.
  assert (Hfffd : Forall (fun b => 0 <= b < 256) [0xEF; 0xBF; 0xBD])
    by (repeat constructor; lia).
  assert (H : forall n s, (length s <= n)%nat ->
                          Forall (fun c => 0 <= c < 65536) s ->
                          Forall (Forall (fun b => 0 <= b < 256)) (utf8_chars s)).
  { induction n as [|n IH]; intros [|c s'] Hlen Hs; try constructor;
      try (simpl in Hlen; lia).
    - cbn [utf8_chars]. inversion Hs as [|? ? Hc Hs']; subst. simpl in Hlen.
      assert (IH' : Forall (Forall (fun b => 0 <= b < 256)) (utf8_chars s'))
        by (apply IH; [lia | assumption]).
      destruct (Z.ltb_spec c 0x80); [constructor; [repeat constructor; lia | exact IH']|].
      destruct (Z.ltb_spec c 0x800).
      { constructor; [|exact IH']. unfold utf8_2.
        pose proof (shiftr_range c 6 32 ltac:(lia) ltac:(change (2 ^ 6) with 64; lia)).
        repeat constructor; try apply continuation_byte; apply lor_byte; lia. }
      destruct (is_high_surrogate c) eqn:Ehi.
      { destruct s' as [|d s'']; [repeat constructor; lia|].
        destruct (is_low_surrogate d) eqn:Elo; [|now constructor].
        constructor.
        - unfold is_high_surrogate in Ehi. unfold is_low_surrogate in Elo.
          apply andb_true_iff in Ehi as [Hc1 Hc2]. apply andb_true_iff in Elo as [Hd1 Hd2].
          apply Z.leb_le in Hc1, Hc2, Hd1, Hd2.
          unfold utf8_4. cbv zeta. rewrite Z.shiftl_mul_pow2 by lia.
          change (2 ^ 10) with 1024.
          pose proof (shiftr_range (65536 + (c - 55296) * 1024 + (d - 56320)) 18 5
                        ltac:(lia) ltac:(change (2 ^ 18) with 262144; lia)).
          repeat constructor; try apply continuation_byte; apply lor_byte; lia.
        - inversion Hs' as [|? ? _ Hs'']; subst. apply IH; [simpl in Hlen; lia | assumption]. }
      destruct (is_low_surrogate c); [now constructor|].
      constructor; [|exact IH']. unfold utf8_3.
      pose proof (shiftr_range c 12 16 ltac:(lia) ltac:(change (2 ^ 12) with 4096; lia)).
      repeat constructor; try apply continuation_byte; apply lor_byte; lia. }
  intros Hs. now apply (H (length s)).
Qed.

Lemma fit_Forall (P : Z -> Prop) chars :
  Forall (Forall P) chars -> forall room, Forall P (fit chars room).
Proof.
  induction 1 as [|ch chars Hch _ IH]; intros room; cbn [fit]; [constructor|].
  destruct (length ch <=? room)%nat; [|constructor].
  apply Forall_app. split; [assumption | apply IH].
Qed.

Lemma sendMessage_buf_bytes message :
  Forall (fun c => 0 <= c < 65536) message ->
  Forall (fun b => 0 <= b < 256) (sendMessage_buf message).
Proof.
  intros Hunits. rewrite sendMessage_buf_layout.
  repeat (apply Forall_app; split).
  - repeat constructor; lia.
  - vm_compute. repeat constructor; discriminate.
  - repeat constructor; lia.
  - apply fit_Forall. now apply utf8_chars_bytes.
  - apply Forall_forall. intros b Hb. apply repeat_spec in Hb. lia.
Qed.

(** The payload of both envelopes is the base64 text of the record; it has
    [4 * ceil((27 + message.length) / 3)] characters, and decoding it gives
    the record back, byte for byte. *)
Theorem sendMessage_payload_decodes message :
  Forall (fun c => 0 <= c < 65536) message ->
  let b64 := base64 (sendMessage_buf message) in
  length b64 = (4 * ((27 + length message + 2) / 3))%nat
  /\ base64_decode b64 = sendMessage_buf message
  /\ Forall (fun b => 0 <= b < 256) (sendMessage_buf message).
Proof.
  intros Hunits b64. unfold b64. split; [|split].
  - now rewrite length_base64, length_sendMessage_buf.
  - apply base64_decode_base64. now apply sendMessage_buf_bytes.
  - now apply sendMessage_buf_bytes.
Qed.

Lemma sendMessage_payload_decodes_witness :
  length (base64 (sendMessage_buf [233; 233])) = (4 * ((27 + 2 + 2) / 3))%nat
  /\ base64_decode (base64 (sendMessage_buf [233; 233])) = sendMessage_buf [233; 233]
  /\ Forall (fun b => 0 <= b < 256) (sendMessage_buf [233; 233]).
Proof.
  apply (sendMessage_payload_decodes [233; 233]).
  repeat constructor; lia.
Defined.

(** [fit] writes everything when everything fits. *)
Lemma fit_whole chars room :
  (length (concat chars) <= room)%nat -> fit chars room = concat chars.
Proof.
  revert room. induction chars as [|ch chars IH]; intros room; cbn [fit concat]; [easy|].
  rewrite length_app. intros Hlen.
  destruct (Nat.leb_spec (length ch) room); [|lia].
  f_equal. apply IH. lia.
Qed.

(** [fit] writes the longest prefix of whole characters that fits. *)
Lemma fit_prefix chars :
  forall room,
    exists k,
      (k <= length chars)%nat
      /\ fit chars room = concat (firstn k chars)
      /\ ((k < length chars)%nat ->
          (room < length (concat (firstn (S k) chars)))%nat).
Proof.
  induction chars as [|ch chars IH]; intros room.
  - exists 0%nat. simpl. repeat split; lia.
  - cbn [fit]. destruct (Nat.leb_spec (length ch) room) as [Hfit|Hno].
    + destruct (IH (room - length ch)%nat) as (k & Hk & Hfitk & Hnext).
      exists (S k). split; [simpl; lia|]. split.
      * cbn [firstn concat]. now rewrite Hfitk.
      * intros Hlt. simpl in Hlt.
        change (firstn (S (S k)) (ch :: chars)) with (ch :: firstn (S k) chars).
        cbn [concat]. rewrite length_app.
        specialize (Hnext ltac:(lia)). lia.
    + exists 0%nat. split; [simpl; lia|]. split; [reflexivity|].
      intros _. cbn [firstn concat]. rewrite app_nil_r. exact Hno.
Qed.

(** The record holds the whole text exactly when its UTF-8 form is at most
    one byte longer than its count of code units; otherwise it holds the
    longest prefix of whole characters that fits in [message.length + 1]
    bytes, and what follows is dropped. *)
Theorem sendMessage_text_kept message :
  let head := [5; 0; 0x40; 0; 0; 0] ++ js "Message from server" ++ [0] in
  let room := (length message + 1)%nat in
  let chars := utf8_chars message in
  (byteLength message <= Z.of_nat room ->
   sendMessage_buf message
   = head ++ concat chars ++ repeat 0 (room - length (concat chars)))
  /\ (Z.of_nat room < byteLength message ->
      exists k,
        (k < length chars)%nat
        /\ sendMessage_buf message
           = head ++ concat (firstn k chars)
               ++ repeat 0 (room - length (concat (firstn k chars)))
        /\ (length (concat (firstn k chars)) <= room
            < length (concat (firstn (S k) chars)))%nat)
  /\ (fit chars room = concat chars <-> byteLength message <= Z.of_nat room).
Proof.
  intros head room chars. unfold byteLength. fold chars.
  assert (Hlayout : sendMessage_buf message
                    = head ++ fit chars room ++ repeat 0 (room - length (fit chars room))).
  { rewrite sendMessage_buf_layout. unfold head. now rewrite <- !app_assoc. }
  split; [|split].
  - intros Hlen. rewrite Hlayout, fit_whole by lia. reflexivity.
  - intros Hlen. destruct (fit_prefix chars room) as (k & Hk & Hfit & Hnext).
    assert (Hfitlen : (length (fit chars room) <= room)%nat) by apply length_fit.
    assert (Hlt : (k < length chars)%nat).
    { destruct (Nat.eq_dec k (length chars)) as [->|]; [|lia].
      rewrite firstn_all in Hfit. rewrite Hfit in Hfitlen. lia. }
    exists k. split; [exact Hlt|]. split.
    + rewrite Hlayout, Hfit. reflexivity.
    + rewrite <- Hfit. split; [exact Hfitlen | now apply Hnext].
  - split.
    + intros Hfit. pose proof (length_fit chars room) as Hle. rewrite Hfit in Hle. lia.
    + intros Hlen. apply fit_whole. lia.
Qed.

(** ** Redirects *)

Lemma getURL_authority config host :
  getURL config host = scheme config ++ js "://" ++ authority config host ++ js "/".
Proof.
  unfold getURL, authority, serverURL. destruct host as [[|c h]|];
    rewrite <- ?app_assoc; reflexivity.
Qed.

Lemma replace_final_slash_app url : replace_final_slash (url ++ js "/") = url.
Proof.
  unfold replace_final_slash. change (js "/") with [47].
  rewrite rev_app_distr. cbn [rev app]. apply rev_involutive.
Qed.

(** The plain-HTTP server of a secure deployment sends every request to the
    same path of the same host under [http(s)], and answers an upgrade with a
    301 whose [Location] is the same path of the same host under [ws(s)];
    the host is the request's [Host] header, or the configured address and
    port when the request has none. *)
Theorem redirects_keep_host_and_path config host httpVersion url :
  http_redirect config host url
  = js "http" ++ (if isSecure config then js "s" else []) ++ js "://"
      ++ authority config host ++ url
  /\ upgrade_redirect config host httpVersion url
     = httpVersion ++ js " 301 Moved Permanently" ++ [13; 10] ++ js "Location: "
         ++ js "ws" ++ (if isSecure config then js "s" else []) ++ js "://"
         ++ authority config host ++ url
         ++ [13; 10] ++ js "Content-Length: 0" ++ [13; 10; 13; 10].
Proof.
  unfold http_redirect, upgrade_redirect. rewrite getURL_authority. split.
  - unfold scheme. rewrite <- (app_assoc (js "ws")).
    change (js "ws" ++ ?x) with (119 :: 115 :: x).
    cbn [replace_ws_http].
    rewrite !app_assoc, replace_final_slash_app, <- !app_assoc. reflexivity.
  - rewrite !app_assoc, replace_final_slash_app.
    unfold scheme. rewrite <- !app_assoc. reflexivity.
Qed.
